(** * go-chat: the WebSocket hub, its clients and the message store

  A shallow embedding of [internal/websocket] (hub.go, client.go), of
  [internal/store] (messages.go, room_members.go, the user lookup of
  users.go) and of what [cmd/api] does with them (the WebSocket handler,
  the room handlers, the authentication middleware), followed by the
  properties of the hub, of the reader and the writer, of the stores and
  of the handlers.

  Conventions.
  - Go [int64] identifiers are [Z]; no arithmetic is ever done on them.
  - A [*Client] is an index into the heap of client objects; the heap is
    a list that only grows, so allocation is [length heap].
  - A Go panic is the [Panicked] result; everything else is [Ok]. *)

From stdpp Require Import gmap strings list fin_maps fin_sets sorting.
From Stdlib Require Import ZArith Lia Ascii.

Set Warnings "-clear-no-such-hyp".

Local Open Scope string_scope.
Local Open Scope list_scope.
Local Open Scope Z_scope.

(* ===================================================================== *)
(** ** encoding/json, as far as the two message structs need it *)
(* ===================================================================== *)

Module Json.

(** The values the structs of this program marshal to. *)
Inductive Value :=
| Int (n : Z)
| Str (s : string)
| Timestamp (unix : Z).   (* time.Time, printed as an RFC3339 string *)

#[global] Instance value_eq_dec : EqDecision Value.
Proof. solve_decision. Defined.

(** A JSON object: its fields in the order of the struct's declaration. *)
Definition Object := list (string * Value).

#[global] Instance object_eq_dec : EqDecision Object.
Proof. unfold Object. apply _. Defined.

Definition has_field (k : string) (o : Object) : bool :=
  bool_decide (k ∈ o.*1).

End Json.

(* ===================================================================== *)
(** ** package store: messages.go *)
(* ===================================================================== *)

Module Store.

(** [store.Message] with its json tags. *)
Record Message := mkMessage {
  ID : Z;
  RoomID : Z;
  UserID : Z;
  Content : string;
  Username : string;   (* joined from the users table *)
  CreatedAt : Z        (* time.Time, as a point on the time line *)
}.

(** json.Marshal of a [store.Message]: one field per struct tag. *)
Definition marshal (m : Message) : Json.Object :=
  [ ("id", Json.Int (ID m));
    ("room_id", Json.Int (RoomID m));
    ("user_id", Json.Int (UserID m));
    ("content", Json.Str (Content m));
    ("username", Json.Str (Username m));
    ("created_at", Json.Timestamp (CreatedAt m)) ].

(** A row of the [messages] table and a row of the [users] table (the
    columns the queries of messages.go read). *)
Record MessageRow := mkRow {
  m_id : Z; m_room_id : Z; m_user_id : Z; m_content : string; m_created_at : Z
}.
Record UserRow := mkUser { u_id : Z; u_username : string }.

Record DB := mkDB { messages : list MessageRow; users : list UserRow }.

(** context.Context: only the deadline and the parent matter here. *)
Inductive CtxParent := Background | Request.
Record Context := mkCtx { parent : CtxParent; timeout_seconds : option Z }.

Inductive DbError := DeadlineExceeded | ConnectionFailed | ConstraintViolation.

(** What the database answers to the INSERT of [Create]: the generated
    [id] and [created_at], or an error (among them the context's
    deadline passing). The database decides, not the program. *)
Inductive InsertOutcome :=
| Inserted (id created_at : Z)
| InsertFailed (e : DbError).

(** [MessageStore.Create]: INSERT INTO messages (room_id, user_id,
    content) VALUES ($1, $2, $3) RETURNING id, created_at. On success the
    row is in the table and [message.ID], [message.CreatedAt] are set. *)
Definition Create (ctx : Context) (db : DB) (message : Message) (o : InsertOutcome)
  : DB * Message * option DbError :=
  match o with
  | Inserted id ts =>
      (mkDB (messages db ++
               [mkRow id (RoomID message) (UserID message) (Content message) ts])
            (users db),
       mkMessage id (RoomID message) (UserID message) (Content message)
                 (Username message) ts,
       None)
  | InsertFailed e => (db, message, Some e)
  end.

(** m INNER JOIN users u ON m.user_id = u.id, projected on the SELECT
    list m.id, m.room_id, m.user_id, m.content, u.username, m.created_at. *)
Definition inner_join_users (us : list UserRow) (m : MessageRow) : list Message :=
  (λ u, mkMessage (m_id m) (m_room_id m) (m_user_id m) (m_content m)
                  (u_username u) (m_created_at m))
    <$> filter (λ u, m_user_id m = u_id u) us.

(** ORDER BY m.created_at DESC as a relation on result rows. *)
Definition newer_first (a b : Message) : Prop := CreatedAt b ≤ CreatedAt a.

#[global] Instance newer_first_dec a b : Decision (newer_first a b).
Proof. unfold newer_first. apply _. Defined.

(** FROM messages m INNER JOIN users u ON m.user_id = u.id
    WHERE m.room_id = $1: the rows of a room, each with its sender. *)
Definition room_rows (db : DB) (roomID : Z) : list Message :=
  filter (λ m, m_room_id m = roomID) (messages db) ≫= inner_join_users (users db).

(** What ORDER BY m.created_at DESC promises of the database: the rows
    come back newest first. SQL leaves the order of rows with equal
    created_at open: it is the database's choice, [order_by], which the
    program is given. *)
Definition orders_newest_first (order_by : list Message → list Message) : Prop :=
  ∀ rows, order_by rows ≡ₚ rows ∧ StronglySorted newer_first (order_by rows).

(** The SELECT of [GetRoomMessages]:
      FROM messages m INNER JOIN users u ON m.user_id = u.id
      WHERE m.room_id = $1 ORDER BY m.created_at DESC LIMIT $2.
    [fail] is the error the database has for the query, if it has one;
    a negative LIMIT is an error of the database. *)
Definition select_room_messages (order_by : list Message → list Message)
    (fail : option DbError) (db : DB) (roomID : Z) (limit : Z)
  : DbError + list Message :=
  match fail with
  | Some err => inl err
  | None =>
      if decide (limit < 0) then inl ConstraintViolation
      else inr (take (Z.to_nat limit) (order_by (room_rows db roomID)))
  end.

(** The reversal loop of [GetRoomMessages]:
      for i, j := 0, len(messages)-1; i < j; i, j = i+1, j-1 {
        messages[i], messages[j] = messages[j], messages[i] }
    Indices are [nat]: for the empty slice Go's j is -1 and the model's
    is 0, and [i < j] is false for both. The loop runs at most
    len/2 times, which is the fuel. *)
Fixpoint reverse_loop {A} (fuel i j : nat) (l : list A) : list A :=
  match fuel with
  | O => l
  | S fuel' =>
      if decide (i < j)%nat then
        match l !! i, l !! j with
        | Some a, Some b => reverse_loop fuel' (S i) (pred j) (<[j:=a]> (<[i:=b]> l))
        | _, _ => l
        end
      else l
  end.

Definition reverse_in_place {A} (l : list A) : list A :=
  reverse_loop (length l / 2)%nat 0%nat (length l - 1)%nat l.

(** [MessageStore.GetRoomMessages]: run the query, scan the rows,
    reverse, return. The error of QueryContext, of a Scan or of
    rows.Err ([fail], whichever of the three calls meets it) is returned
    as it is, with no rows. *)
Definition GetRoomMessages (order_by : list Message → list Message)
    (fail : option DbError) (db : DB) (roomID : Z) (limit : Z)
  : DbError + list Message :=
  match select_room_messages order_by fail db roomID limit with
  | inl err => inl err
  | inr rows => inr (reverse_in_place rows)
  end.

(** ORDER BY m.created_at ASC. *)
Definition older_first (a b : Message) : Prop := CreatedAt a ≤ CreatedAt b.

#[global] Instance older_first_dec a b : Decision (older_first a b).
Proof. unfold older_first. apply _. Defined.

(** [MessageStore.GetMessagesSince]:
      SELECT ... FROM messages m INNER JOIN users u ON m.user_id = u.id
      WHERE m.room_id = $1 AND m.created_at > $2 ORDER BY m.created_at ASC.
    The rows are returned as the query gives them, without a limit and
    without a reversal; [fail] is the error of the query, if the database
    has one. *)
Definition GetMessagesSince (fail : option DbError) (db : DB) (roomID : Z) (since : Z)
  : DbError + list Message :=
  match fail with
  | Some err => inl err
  | None =>
      inr (merge_sort older_first
             (filter (λ m, since < CreatedAt m) (room_rows db roomID)))
  end.

(** *** users.go *)

(** The error of a query for one row: sql.ErrNoRows, or another one. *)
Inductive RowError :=
| ErrNoRows
| RowQueryFailed (e : DbError).

(** [UserStore.GetByID]: SELECT ... FROM users WHERE id = $1, scanned by
    QueryRow: the first row found. *)
Definition GetByID (fail : option DbError) (db : DB) (id : Z) : RowError + UserRow :=
  match fail with
  | Some err => inl (RowQueryFailed err)
  | None =>
      match filter (λ u, u_id u = id) (users db) with
      | u :: _ => inr u
      | [] => inl ErrNoRows
      end
  end.

(** *** room_members.go *)

(** A row of the [room_members] table; its primary key is
    (room_id, user_id). *)
Record RoomMember := mkMember { rm_room_id : Z; rm_user_id : Z; rm_joined_at : Z }.

Definition member_key (m : RoomMember) : Z * Z := (rm_room_id m, rm_user_id m).

(** What an INSERT or DELETE on the table can fail with: the primary key,
    or something the table itself does not decide (a foreign key, the
    connection, the deadline). *)
Inductive OutsideError := ForeignKeyViolation | ConnectionLost | DeadlinePassed.

Inductive ExecError :=
| UniqueViolation
| Outside (e : OutsideError).

(** [RoomMemberStore.Join]: INSERT INTO room_members (room_id, user_id)
    VALUES ($1, $2); joined_at defaults to NOW(), which is [now]. The
    insert fails when the key is in the table already. *)
Definition Join (fail : option OutsideError) (now : Z) (tbl : list RoomMember)
    (roomID userID : Z) : list RoomMember * option ExecError :=
  match fail with
  | Some e => (tbl, Some (Outside e))
  | None =>
      if decide ((roomID, userID) ∈ member_key <$> tbl)
      then (tbl, Some UniqueViolation)
      else (tbl ++ [mkMember roomID userID now], None)
  end.

(** [RoomMemberStore.Leave]: DELETE FROM room_members WHERE room_id = $1
    AND user_id = $2. *)
Definition Leave (fail : option OutsideError) (tbl : list RoomMember)
    (roomID userID : Z) : list RoomMember * option ExecError :=
  match fail with
  | Some e => (tbl, Some (Outside e))
  | None => (filter (λ m, member_key m ≠ (roomID, userID)) tbl, None)
  end.

(** [RoomMemberStore.IsUserInRoom]: SELECT EXISTS(SELECT 1 FROM
    room_members WHERE room_id = $1 AND user_id = $2). *)
Definition IsUserInRoom (fail : option OutsideError) (tbl : list RoomMember)
    (roomID userID : Z) : ExecError + bool :=
  match fail with
  | Some e => inl (Outside e)
  | None => inr (bool_decide ((roomID, userID) ∈ member_key <$> tbl))
  end.

Definition joined_earlier (a b : RoomMember) : Prop := rm_joined_at a ≤ rm_joined_at b.

#[global] Instance joined_earlier_dec a b : Decision (joined_earlier a b).
Proof. unfold joined_earlier. apply _. Defined.

(** [RoomMemberStore.GetRoomMembers]: SELECT user_id FROM room_members
    WHERE room_id = $1 ORDER BY joined_at ASC. *)
Definition GetRoomMembers (fail : option OutsideError) (tbl : list RoomMember)
    (roomID : Z) : ExecError + list Z :=
  match fail with
  | Some e => inl (Outside e)
  | None =>
      inr (rm_user_id <$>
             merge_sort joined_earlier (filter (λ m, rm_room_id m = roomID) tbl))
  end.

(** [RoomMemberStore.GetRoomMemberCount]: SELECT COUNT( * ) FROM
    room_members WHERE room_id = $1. *)
Definition GetRoomMemberCount (fail : option OutsideError) (tbl : list RoomMember)
    (roomID : Z) : ExecError + nat :=
  match fail with
  | Some e => inl (Outside e)
  | None => inr (length (filter (λ m, rm_room_id m = roomID) tbl))
  end.

End Store.

(* ===================================================================== *)
(** ** package websocket: hub.go and client.go *)
(* ===================================================================== *)

Module Websocket.

(** [websocket.Message]: what travels through the hub and, marshalled,
    over the socket. *)
Record Message := mkMessage {
  RoomID : Z;
  UserID : Z;
  Username : string;
  Content : string;
  Type_ : string       (* the field Type: "message", "join", "leave" *)
}.

(** json.Marshal(message). The struct has integer and string fields
    only, for which json.Marshal returns no error: the [err != nil]
    branch of broadcastToRoom is dead. *)
Definition marshal (m : Message) : Json.Object :=
  [ ("room_id", Json.Int (RoomID m));
    ("user_id", Json.Int (UserID m));
    ("username", Json.Str (Username m));
    ("content", Json.Str (Content m));
    ("type", Json.Str (Type_ m)) ].

(** A frame is the marshalled message ([]byte in the source). *)
Abbreviation Frame := Json.Object.

(** *** Channels *)

Inductive Panic :=
| SendOnClosedChannel
| CloseOfClosedChannel
| NilDereference.

Inductive Result (A : Type) :=
| Ok (a : A)
| Panicked (p : Panic).
Arguments Ok {A} a.
Arguments Panicked {A} p.

#[global] Instance result_ret : MRet Result := λ A a, Ok a.
#[global] Instance result_bind : MBind Result := λ A B f r,
  match r with Ok a => f a | Panicked p => Panicked p end.

(** A buffered [chan []byte]: the queued frames (head first), the
    capacity given to [make], and whether it was closed. *)
Record Chan := mkChan { buf : list Frame; cap : nat; closed : bool }.

Definition make_chan (n : nat) : Chan := mkChan [] n false.

Definition is_full (ch : Chan) : bool := bool_decide (cap ch ≤ length (buf ch))%nat.

(** [close(ch)]: closing a closed channel panics. *)
Definition chan_close (ch : Chan) : Result Chan :=
  if closed ch then Panicked CloseOfClosedChannel
  else Ok (mkChan (buf ch) (cap ch) true).

(** [select { case ch <- v: ... default: ... }]: a send on a closed
    channel panics; otherwise the send happens when the buffer has room
    ([Some] of the new channel), and the default branch is taken when it
    has none ([None]). *)
Definition try_send (ch : Chan) (v : Frame) : Result (option Chan) :=
  if closed ch then Panicked SendOnClosedChannel
  else if is_full ch then Ok None
  else Ok (Some (mkChan (buf ch ++ [v]) (cap ch) false)).

(** [<-ch] when a frame is queued (a closed channel still hands out what
    it holds). With nothing queued the receiver blocks, or sees the
    channel closed: the channel is unchanged either way. *)
Definition chan_recv (ch : Chan) : Chan :=
  mkChan (tail (buf ch)) (cap ch) (closed ch).

(** *** Clients and the hub *)

(** A [*Client]: the index of the client in the heap. *)
Abbreviation ptr := nat.

(** [Client], without the socket and the back pointer to the hub. *)
Record Client := mkClient {
  send : Chan;
  userID : Z;
  username : string;
  roomID : Z
}.

Definition with_send (ch : Chan) (cl : Client) : Client :=
  mkClient ch (userID cl) (username cl) (roomID cl).

(** The lines of log.Printf in hub.go. *)
Inductive LogEntry :=
| LogHubStarted
| LogClientRegistered (user room : Z) (total : nat)
| LogClientUnregistered (user room : Z) (remaining : nat)
| LogRoomEmpty (room : Z)
| LogSaveFailed (e : Store.DbError)
| LogRemovedFullBuffer (user room : Z)
| LogBroadcasted (n : nat) (room : Z).

(** The hub with what its pointers refer to: the registry [rooms]
    (map[int64]map[*Client]bool, the inner map a set), the client objects,
    the database behind [h.store], the calls made to
    [h.store.Messages.Create], and the log. The three request channels
    are the list of events [Run] is given. *)
Record Hub := mkHub {
  rooms : gmap Z (gset ptr);
  heap : list Client;
  db : Store.DB;
  creates : list (Store.Context * Store.Message);
  log : list LogEntry
}.

Definition NewHub (store : Store.DB) : Hub := mkHub ∅ [] store [] [].

Definition set_rooms (f : gmap Z (gset ptr) → gmap Z (gset ptr)) (h : Hub) : Hub :=
  mkHub (f (rooms h)) (heap h) (db h) (creates h) (log h).
Definition set_client (c : ptr) (cl : Client) (h : Hub) : Hub :=
  mkHub (rooms h) (<[c:=cl]> (heap h)) (db h) (creates h) (log h).
Definition add_log (e : LogEntry) (h : Hub) : Hub :=
  mkHub (rooms h) (heap h) (db h) (creates h) (log h ++ [e]).

(** [h.rooms[roomID]] read as a set: the nil map of an absent key has no
    members. *)
Definition room_set (h : Hub) (roomID : Z) : gset ptr :=
  default ∅ (rooms h !! roomID).

(** One iteration of the loop of broadcastToRoom, for [client]:
      select {
      case client.send <- jsonMessage:
      default:
        close(client.send); delete(clients, client); log.Printf(...) }
    [clients] is the inner map of [h.rooms[roomID]] itself, so the delete
    is seen through the registry. *)
Definition deliver (roomID : Z) (jsonMessage : Frame) (h : Hub) (client : ptr)
  : Result Hub :=
  match heap h !! client with
  | None => Panicked NilDereference
  | Some cl =>
      sent ← try_send (send cl) jsonMessage;
      match sent with
      | Some ch => Ok (set_client client (with_send ch cl) h)
      | None =>
          ch ← chan_close (send cl);
          Ok (add_log (LogRemovedFullBuffer (userID cl) roomID)
                (set_rooms (alter (λ clients, clients ∖ {[client]}) roomID)
                   (set_client client (with_send ch cl) h)))
      end
  end.

(** [for client := range clients { ... }] over the members in some
    order. *)
Fixpoint range_clients (roomID : Z) (jsonMessage : Frame)
    (clients : list ptr) (h : Hub) : Result Hub :=
  match clients with
  | [] => Ok h
  | client :: rest =>
      h' ← deliver roomID jsonMessage h client;
      range_clients roomID jsonMessage rest h'
  end.

(** [Hub.broadcastToRoom]. Go ranges over a map in an unspecified order;
    the model takes the order of [elements] (the order does not matter,
    see [range_clients_order]). *)
Definition broadcastToRoom (h : Hub) (roomID : Z) (message : Message) : Result Hub :=
  match rooms h !! roomID with
  | None => Ok h
  | Some clients =>
      h' ← range_clients roomID (marshal message) (elements clients) h;
      Ok (add_log (LogBroadcasted (size (room_set h' roomID)) roomID) h')
  end.

Definition joinMessage (cl : Client) : Message :=
  mkMessage (roomID cl) (userID cl) (username cl)
            (username cl +:+ " joined the room") "join".

Definition leaveMessage (cl : Client) : Message :=
  mkMessage (roomID cl) (userID cl) (username cl)
            (username cl +:+ " left the room") "leave".

(** The first half of registerClient: create the room's set when
    [h.rooms[client.roomID] == nil], then [h.rooms[roomID][client] = true]. *)
Definition add_to_room (roomID : Z) (client : ptr) (h : Hub) : Hub :=
  let h1 :=
    match rooms h !! roomID with
    | None => set_rooms (<[roomID := ∅]>) h
    | Some _ => h
    end in
  set_rooms (alter (λ clients, {[client]} ∪ clients) roomID) h1.

(** [Hub.registerClient]. *)
Definition registerClient (h : Hub) (client : ptr) : Result Hub :=
  match heap h !! client with
  | None => Panicked NilDereference
  | Some cl =>
      let h1 := add_to_room (roomID cl) client h in
      let h2 := add_log (LogClientRegistered (userID cl) (roomID cl)
                           (size (room_set h1 (roomID cl)))) h1 in
      broadcastToRoom h2 (roomID cl) (joinMessage cl)
  end.

(** [Hub.unregisterClient]. *)
Definition unregisterClient (h : Hub) (client : ptr) : Result Hub :=
  match heap h !! client with
  | None => Panicked NilDereference
  | Some cl =>
      match rooms h !! roomID cl with
      | None => Ok h
      | Some clients =>
          if decide (client ∈ clients) then
            let clients' := clients ∖ {[client]} in
            let h1 := set_rooms (<[roomID cl := clients']>) h in
            ch ← chan_close (send cl);
            let h2 := set_client client (with_send ch cl) h1 in
            let h3 := add_log (LogClientUnregistered (userID cl) (roomID cl)
                                 (size clients')) h2 in
            let h4 :=
              if decide (size clients' = 0)%nat then
                add_log (LogRoomEmpty (roomID cl))
                  (set_rooms (delete (roomID cl)) h3)
              else h3 in
            broadcastToRoom h4 (roomID cl) (leaveMessage cl)
          else Ok h
      end
  end.

(** The context and the record handleBroadcast hands to Create. *)
Definition persistCtx : Store.Context :=
  Store.mkCtx Store.Background (Some 5).

Definition dbMessage (message : Message) : Store.Message :=
  Store.mkMessage 0 (RoomID message) (UserID message) (Content message) "" 0.

(** The first half of handleBroadcast: for a message of type "message",
    call [h.store.Messages.Create] under a context of 5 seconds derived
    from context.Background(), and log its error, if any. *)
Definition persist (h : Hub) (message : Message) (o : Store.InsertOutcome) : Hub :=
  if decide (Type_ message = "message") then
    let '(db', _, err) := Store.Create persistCtx (db h) (dbMessage message) o in
    let h1 := mkHub (rooms h) (heap h) db'
                    (creates h ++ [(persistCtx, dbMessage message)]) (log h) in
    match err with
    | Some e => add_log (LogSaveFailed e) h1
    | None => h1
    end
  else h.

(** [Hub.handleBroadcast]; [o] is what the database will answer, should
    it be asked. *)
Definition handleBroadcast (h : Hub) (message : Message) (o : Store.InsertOutcome)
  : Result Hub :=
  broadcastToRoom (persist h message o) (RoomID message) message.

(** [Hub.GetRoomClientCount]. *)
Definition GetRoomClientCount (h : Hub) (roomID : Z) : nat :=
  match rooms h !! roomID with
  | Some clients => size clients
  | None => O
  end.

(** *** The event loop *)

(** What arrives on the three channels of the hub. *)
Inductive Request :=
| Register (client : ptr)
| Unregister (client : ptr)
| Broadcast (message : Message) (o : Store.InsertOutcome).

(** One turn of the [select] of [Hub.Run]. *)
Definition serve (h : Hub) (r : Request) : Result Hub :=
  match r with
  | Register client => registerClient h client
  | Unregister client => unregisterClient h client
  | Broadcast message o => handleBroadcast h message o
  end.

(** What happens around the hub between two turns of its loop: the
    handler of cmd/api allocates a client ([newClient] below), and the
    writePump of a client receives a frame from its [send] channel. *)
Inductive Event :=
| Req (r : Request)
| NewClient (userID : Z) (username : string) (roomID : Z)
| WriterRecv (client : ptr).

(** The client websocketHandler builds:
      &ws.Client{ hub, conn, send: make(chan []byte, 256),
                  userID, username: user.Username, roomID } *)
Definition newClient (userID : Z) (username : string) (roomID : Z) : Client :=
  mkClient (make_chan 256) userID username roomID.

Definition step (h : Hub) (e : Event) : Result Hub :=
  match e with
  | Req r => serve h r
  | NewClient u n r =>
      Ok (mkHub (rooms h) (heap h ++ [newClient u n r]) (db h) (creates h) (log h))
  | WriterRecv client =>
      match heap h !! client with
      | Some cl => Ok (set_client client (with_send (chan_recv (send cl)) cl) h)
      | None => Ok h
      end
  end.

(** [Hub.Run] on the events that arrive, in their order. *)
Fixpoint run (h : Hub) (events : list Event) : Result Hub :=
  match events with
  | [] => Ok h
  | e :: rest => h' ← step h e; run h' rest
  end.

Definition Run (store : Store.DB) (events : list Event) : Result Hub :=
  run (add_log LogHubStarted (NewHub store)) events.

(** *** client.go: the reader *)

Definition writeWait : Z := 10.                      (* seconds *)
Definition pongWait : Z := 60.
Definition pingPeriod : Z := (pongWait * 9) / 10.
Definition maxMessageSize : Z := 1024 * 1024.

(** What [c.conn.ReadMessage()] returns: a message, or an error (the peer
    closed with some code, or anything else the socket library refuses:
    a frame over the read limit, a protocol violation, a passed
    deadline). *)
Inductive ReadError :=
| CloseError (code : Z)
| OtherReadError.

Inductive ReadResult :=
| ReadOk (message : string)
| ReadFailed (err : ReadError).

Definition CloseGoingAway : Z := 1001.
Definition CloseAbnormalClosure : Z := 1006.

(** websocket.IsUnexpectedCloseError(err, codes...): a close error whose
    code is not among the expected ones. *)
Definition IsUnexpectedCloseError (err : ReadError) (expected : list Z) : bool :=
  match err with
  | CloseError code => bool_decide (code ∉ expected)
  | OtherReadError => false
  end.

(** What readPump does to the world, in order. *)
Inductive ReaderAction :=
| SetReadLimit (n : Z)
| SetReadDeadline (seconds : Z)
| SetPongHandler
| LogWebSocketError (err : ReadError)
| SubmitBroadcast (msg : Message)      (* c.hub.broadcast <- msg *)
| SubmitUnregister (client : ptr)      (* c.hub.unregister <- c *)
| ConnClose.

(** The [for] loop of readPump over the results of the successive calls
    of ReadMessage. The boolean tells whether the loop was left ([break]);
    when the results run out the reader is blocked in ReadMessage. *)
Fixpoint read_loop (cl : Client) (reads : list ReadResult)
  : list ReaderAction * bool :=
  match reads with
  | [] => ([], false)
  | ReadFailed err :: _ =>
      (if IsUnexpectedCloseError err [CloseGoingAway; CloseAbnormalClosure]
       then [LogWebSocketError err] else [],
       true)
  | ReadOk message :: rest =>
      let '(actions, exited) := read_loop cl rest in
      (SubmitBroadcast
         (mkMessage (roomID cl) (userID cl) (username cl) message "message")
         :: actions,
       exited)
  end.

(** [Client.readPump]: the settings, the loop and, once the loop is
    left, the deferred function. *)
Definition readPump (c : ptr) (cl : Client) (reads : list ReadResult)
  : list ReaderAction * bool :=
  let '(actions, exited) := read_loop cl reads in
  ([SetReadLimit maxMessageSize; SetReadDeadline pongWait; SetPongHandler]
     ++ actions
     ++ (if exited then [SubmitUnregister c; ConnClose] else []),
   exited).

(** *** client.go: the writer *)

(** What the writer hands to the writer of a text message: the bytes of a
    frame, or the newline it puts between two frames. *)
Inductive Chunk :=
| Bytes (f : Frame)
| Newline.

(** What writePump does to the socket and its ticker, in order; the
    boolean of an action tells whether the call succeeded. *)
Inductive WriterAction :=
| NewTicker (seconds : Z)
| SetWriteDeadline (seconds : Z)
| WriteCloseMessage            (* c.conn.WriteMessage(websocket.CloseMessage, []byte{}) *)
| NextWriter (ok : bool)       (* c.conn.NextWriter(websocket.TextMessage) *)
| Write (c : Chunk)            (* w.Write(...) *)
| CloseWriter (ok : bool)      (* w.Close() *)
| WritePing (ok : bool)        (* c.conn.WriteMessage(websocket.PingMessage, nil) *)
| TickerStop
| WriterConnClose.

(** Which case of the [select] of writePump fires, with the outcomes of
    the socket calls it makes. *)
Inductive Wake :=
| SendReady (nextWriter_ok close_ok : bool)   (* case message, ok := <-c.send *)
| Tick (ping_ok : bool).                      (* case <-ticker.C *)

(** [n] receptions in a row, [n] being at most the number of frames
    queued (the writer counted them with [len(c.send)]). *)
Fixpoint recv_n (n : nat) (ch : Chan) : list Frame * Chan :=
  match n with
  | O => ([], ch)
  | S n' =>
      match buf ch with
      | [] => ([], ch)
      | f :: _ =>
          let '(fs, ch') := recv_n n' (chan_recv ch) in (f :: fs, ch')
      end
  end.

(** One turn of the [for] loop of writePump, the hub not sending in the
    meantime: the actions, the channel afterwards, and whether the loop
    goes on. The case [<-c.send] is ready when a frame is queued or the
    channel is closed; when it is not, nothing happens. *)
Definition writer_turn (ch : Chan) (w : Wake) : list WriterAction * Chan * bool :=
  match w with
  | SendReady nextWriter_ok close_ok =>
      match buf ch with
      | message :: _ =>
          let ch1 := chan_recv ch in
          if nextWriter_ok then
            let '(more, ch2) := recv_n (length (buf ch1)) ch1 in
            ([SetWriteDeadline writeWait; NextWriter true; Write (Bytes message)]
               ++ (more ≫= λ f, [Write Newline; Write (Bytes f)])
               ++ [CloseWriter close_ok],
             ch2, close_ok)
          else ([SetWriteDeadline writeWait; NextWriter false], ch1, false)
      | [] =>
          if closed ch
          then ([SetWriteDeadline writeWait; WriteCloseMessage], ch, false)
          else ([], ch, true)
      end
  | Tick ping_ok => ([SetWriteDeadline writeWait; WritePing ping_ok], ch, ping_ok)
  end.

(** The loop of writePump over the wake-ups that come; the boolean tells
    whether the loop was left. *)
Fixpoint writer_loop (ch : Chan) (wakes : list Wake) : list WriterAction * Chan * bool :=
  match wakes with
  | [] => ([], ch, false)
  | w :: rest =>
      let '(actions, ch1, goes_on) := writer_turn ch w in
      if goes_on then
        let '(actions', ch2, exited) := writer_loop ch1 rest in
        (actions ++ actions', ch2, exited)
      else (actions, ch1, true)
  end.

(** [Client.writePump]: the ticker, the loop and, once the loop is left,
    the deferred function. *)
Definition writePump (ch : Chan) (wakes : list Wake) : list WriterAction * Chan * bool :=
  let '(actions, ch', exited) := writer_loop ch wakes in
  (NewTicker pingPeriod :: actions
     ++ (if exited then [TickerStop; WriterConnClose] else []),
   ch', exited).

End Websocket.

(* ===================================================================== *)
(** ** cmd/api: the history handler *)
(* ===================================================================== *)

Module Api.

Inductive Response :=
| writeError (status : Z) (message : string)
| writeJSON (status : Z) (body : list Json.Object).

(** [getRoomMessagesHandler]. The user id found in the request context,
    the room id parsed from the URL and the answer of
    [RoomMembers.IsUserInRoom] are given, and so is what the database
    does with the history query ([order_by], [fail]). *)
Definition getRoomMessagesHandler
    (user : option Z) (room : string + Z) (isMember : Store.DbError + bool)
    (order_by : list Store.Message → list Store.Message)
    (fail : option Store.DbError) (db : Store.DB) : Response :=
  match user with
  | None => writeError 401 "user not authenticated"
  | Some userID =>
      match room with
      | inl err => writeError 400 err
      | inr roomID =>
          match isMember with
          | inl _ => writeError 500 "failed to verify room membership"
          | inr false => writeError 403 "you must join the room to see messages"
          | inr true =>
              match Store.GetRoomMessages order_by fail db roomID 100 with
              | inl _ => writeError 500 "failed to retrieve messages"
              | inr messages => writeJSON 200 (Store.marshal <$> messages)
              end
          end
      end
  end.

(** What websocketHandler leaves behind. *)
Inductive Upgrade :=
| Refused (r : Response)       (* writeError: the request is not upgraded *)
| UpgradeFailed                (* upgrader.Upgrade failed: logged, nothing built *)
| Connected (client : Websocket.Client).
                               (* the client built and sent on hub.register *)

(** [websocketHandler]. Given: the user id found in the request context,
    the room id parsed from the URL, the errors the two queries may meet,
    and whether the upgrade succeeds. *)
Definition websocketHandler
    (user : option Z) (room : string + Z)
    (memberFail : option Store.OutsideError) (userFail : option Store.DbError)
    (upgrade_ok : bool)
    (members : list Store.RoomMember) (db : Store.DB) : Upgrade :=
  match user with
  | None => Refused (writeError 401 "user not authenticated")
  | Some userID =>
      match room with
      | inl err => Refused (writeError 400 err)
      | inr roomID =>
          match Store.IsUserInRoom memberFail members roomID userID with
          | inl _ => Refused (writeError 500 "failed to verify room membership")
          | inr false =>
              Refused (writeError 403 "you must join the room before connecting")
          | inr true =>
              match Store.GetByID userFail db userID with
              | inl Store.ErrNoRows => Refused (writeError 404 "user not found")
              | inl _ => Refused (writeError 500 "failed to retrieve user")
              | inr u =>
                  if upgrade_ok
                  then Connected
                         (Websocket.newClient userID (Store.u_username u) roomID)
                  else UpgradeFailed
              end
          end
      end
  end.

(** What the hub sees of a connection: the allocation of the client and
    its Register request ([app.hub.register <- client]). *)
Definition arrival (h : Websocket.Hub) (up : Upgrade) : list Websocket.Event :=
  match up with
  | Connected cl =>
      [ Websocket.NewClient (Websocket.userID cl) (Websocket.username cl)
          (Websocket.roomID cl);
        Websocket.Req (Websocket.Register (length (Websocket.heap h))) ]
  | _ => []
  end.

(** The answer of a handler that returns a message or an error. *)
Inductive Reply :=
| replyError (status : Z) (message : string)
| replyMessage (status : Z) (message : string).

(** strings.Contains(err.Error(), "unique") || strings.Contains(err.Error(),
    "duplicate"): of the errors of the model, the one of the primary key
    (the driver words it "duplicate key value violates unique
    constraint"). *)
Definition is_duplicate (err : Store.ExecError) : bool :=
  match err with
  | Store.UniqueViolation => true
  | Store.Outside _ => false
  end.

(** [joinRoomHandler]: the answer and the table afterwards.
    [roomLookup] is the error of [Rooms.GetByID], if it has one. *)
Definition joinRoomHandler
    (user : option Z) (room : string + Z) (roomLookup : option Store.RowError)
    (fail : option Store.OutsideError) (now : Z)
    (members : list Store.RoomMember) : Reply * list Store.RoomMember :=
  match user with
  | None => (replyError 401 "user not authenticated", members)
  | Some userID =>
      match room with
      | inl err => (replyError 400 err, members)
      | inr roomID =>
          match roomLookup with
          | Some Store.ErrNoRows => (replyError 404 "room not found", members)
          | Some _ => (replyError 500 "failed to verify room", members)
          | None =>
              match Store.Join fail now members roomID userID with
              | (members', Some err) =>
                  if is_duplicate err
                  then (replyError 409 "already a member of this room", members')
                  else (replyError 500 "failed to join room", members')
              | (members', None) =>
                  (replyMessage 200 "joined room successfully", members')
              end
          end
      end
  end.

(** [leaveRoomHandler]. *)
Definition leaveRoomHandler
    (user : option Z) (room : string + Z) (fail : option Store.OutsideError)
    (members : list Store.RoomMember) : Reply * list Store.RoomMember :=
  match user with
  | None => (replyError 401 "user not authenticated", members)
  | Some userID =>
      match room with
      | inl err => (replyError 400 err, members)
      | inr roomID =>
          match Store.Leave fail members roomID userID with
          | (members', Some _) => (replyError 500 "failed to leave room", members')
          | (members', None) => (replyMessage 200 "left room successfully", members')
          end
      end
  end.

(** *** middleware.go *)

(** strings.Split(s, " "): the pieces of [s] between its spaces. *)
Fixpoint split_space (s : string) : list string :=
  match s with
  | EmptyString => [""]
  | String c rest =>
      if decide (c = " "%char) then "" :: split_space rest
      else match split_space rest with
           | piece :: pieces => String c piece :: pieces
           | [] => [String c ""]
           end
  end.

(** What auth.ValidateToken returns. *)
Inductive TokenResult :=
| ValidToken (userID : Z)
| ExpiredToken
| InvalidToken.

(** [AuthMiddleware] on the value of the Authorization header: the
    refusal, or the user id put in the context of the request that goes
    to the next handler (where GetUserIDFromContext finds it). *)
Definition AuthMiddleware (validate : string → TokenResult) (authHeader : string)
  : Response + Z :=
  if decide (authHeader = "") then
    inl (writeError 401 "missing authorization header")
  else
    match split_space authHeader with
    | [scheme; token] =>
        if decide (scheme = "Bearer") then
          match validate token with
          | ValidToken userID => inr userID
          | ExpiredToken => inl (writeError 401 "token has expired")
          | InvalidToken => inl (writeError 401 "invalid token")
          end
        else inl (writeError 401 "invalid authorization header format")
    | _ => inl (writeError 401 "invalid authorization header format")
    end.

End Api.

(* ===================================================================== *)
(** ** Predicates on hub states and on event sequences *)
(* ===================================================================== *)

Module Inv.
Import Websocket.

(** The pointers of the registry are live: every member of a room is an
    allocated client of that room whose [send] channel is open. *)
Definition members_open (h : Hub) : Prop :=
  ∀ R (S : gset ptr) c, rooms h !! R = Some S → c ∈ S →
    ∃ cl, heap h !! c = Some cl ∧ roomID cl = R ∧ closed (send cl) = false.

(** Every client was built by the handler: capacity 256, never more
    queued than that. *)
Definition queues_bounded (h : Hub) : Prop :=
  ∀ c cl, heap h !! c = Some cl →
    cap (send cl) = 256%nat ∧ (length (buf (send cl)) ≤ 256)%nat.

Definition wf (h : Hub) : Prop := members_open h ∧ queues_bounded h.

(** [wf], and with respect to the set [regd] of clients registered so
    far: members were registered, and a client never registered has an
    open channel. *)
Definition hub_inv (regd : gset ptr) (h : Hub) : Prop :=
  wf h
  ∧ (∀ R (S : gset ptr) c, rooms h !! R = Some S → c ∈ S → c ∈ regd)
  ∧ (∀ c cl, heap h !! c = Some cl → c ∉ regd → closed (send cl) = false).

(** The registry holds no empty room: a room identifier is a key of the
    registry exactly when some connection is in its set. *)
Definition registry_nonempty (h : Hub) : Prop :=
  ∀ R, is_Some (rooms h !! R) ↔ ∃ c, c ∈ room_set h R.

(** The client of one member after one iteration of the loop of
    broadcastToRoom: closed when its buffer was full, one frame longer
    otherwise. *)
Definition after_send (f : Frame) (cl : Client) : Client :=
  if is_full (send cl)
  then with_send (mkChan (buf (send cl)) (cap (send cl)) true) cl
  else with_send (mkChan (buf (send cl) ++ [f]) (cap (send cl)) false) cl.

Definition full_at (h : Hub) (c : ptr) : bool :=
  match heap h !! c with
  | Some cl => is_full (send cl)
  | None => false
  end.

(** The members among [cs] the loop evicts. *)
Definition evicted (h : Hub) (cs : list ptr) : gset ptr :=
  list_to_set (filter (λ c, full_at h c = true) cs).

(** What a fan-out reads and writes: the registry and the clients. *)
Definition view (h : Hub) : gmap Z (gset ptr) * list Client := (rooms h, heap h).

Definition result_view (r : Result Hub) : Result (gmap Z (gset ptr) * list Client) :=
  h ← r; Ok (view h).

(** The pointers registered by an event sequence, in order. *)
Definition registrations (events : list Event) : list ptr :=
  omap (λ e, match e with Req (Register c) => Some c | _ => None end) events.

(** Every Register and Unregister names a client allocated before it,
    [n] clients being allocated at the start. *)
Fixpoint scoped (n : nat) (events : list Event) : Prop :=
  match events with
  | [] => True
  | NewClient _ _ _ :: rest => scoped (S n) rest
  | Req (Register c) :: rest => (c < n)%nat ∧ scoped n rest
  | Req (Unregister c) :: rest => (c < n)%nat ∧ scoped n rest
  | _ :: rest => scoped n rest
  end.

(** The five fields of a frame, in order. *)
Definition frame_fields : list string :=
  ["room_id"; "user_id"; "username"; "content"; "type"].

(** Every queued frame is a marshalled [Message]. *)
Definition frames_marshalled (h : Hub) : Prop :=
  ∀ c cl f, heap h !! c = Some cl → f ∈ buf (send cl) → ∃ m, f = marshal m.

(** The footprint of a hub operation from [h0] to [h]: no client is
    allocated or moved to another room, no room gains a member, and
    queued frames stay marshalled messages. *)
Definition within (h0 h : Hub) : Prop :=
  length (heap h) = length (heap h0)
  ∧ (∀ x, roomID <$> heap h !! x = roomID <$> heap h0 !! x)
  ∧ (∀ R, room_set h R ⊆ room_set h0 R)
  ∧ (frames_marshalled h0 → frames_marshalled h).

(** What one fan-out of frame [f] in room [R] did to the member [c],
    whose client was [cl] before: evicted and closed when 256 frames
    were queued, still a member with [f] queued last otherwise. *)
Definition served (R : Z) (f : Frame) (h' : Hub) (c : ptr) (cl : Client) : Prop :=
  if decide (length (buf (send cl)) = 256%nat)
  then ((c ∉ room_set h' R)
        ∧ heap h' !! c = Some (with_send (mkChan (buf (send cl)) 256 true) cl))
  else (c ∈ room_set h' R
        ∧ heap h' !! c
          = Some (with_send (mkChan (buf (send cl) ++ [f]) 256 false) cl)).

(** A fan-out leaves the database and the journal of Create calls
    alone, and only adds to the log. *)
Definition store_kept (h0 h : Hub) : Prop :=
  db h = db h0 ∧ creates h = creates h0 ∧ ∃ more, log h = log h0 ++ more.

(** The message readPump builds from a frame it has read. *)
Definition chat_of (cl : Client) (payload : string) : Message :=
  mkMessage (roomID cl) (userID cl) (username cl) payload "message".

(** The reader drops a result of ReadMessage and goes on with the
    next. *)
Definition discards_and_continues (r : ReadResult) : Prop :=
  ∀ c cl rest, readPump c cl (r :: rest) = readPump c cl rest.

(** Every client registered so far is allocated and, while its queue is
    open, is in the set of its room. *)
Definition settled (regd : gset ptr) (h : Hub) : Prop :=
  ∀ c, c ∈ regd →
    ∃ cl, heap h !! c = Some cl
      ∧ (closed (send cl) = false → c ∈ room_set h (roomID cl)).

(** The Broadcast requests for a list of messages, each with the answer
    the store will give. *)
Definition broadcasts (ms : list (Message * Store.InsertOutcome)) : list Event :=
  (λ p, Req (Broadcast p.1 p.2)) <$> ms.

(** The frames handed to the writer of a text message, in order. *)
Definition written (actions : list WriterAction) : list Frame :=
  omap (λ a, match a with Write (Bytes f) => Some f | _ => None end) actions.

(** The wake-ups at which NextWriter does not fail. *)
Definition nextWriter_succeeds (w : Wake) : Prop :=
  match w with SendReady false _ => False | _ => True end.

(** A channel with its queue emptied. *)
Definition drained (ch : Chan) : Chan := mkChan [] (cap ch) (closed ch).

(** The actions of one text message carrying the frames [f :: fs],
    separated by newlines. *)
Definition text_message (f : Frame) (fs : list Frame) (close_ok : bool)
  : list WriterAction :=
  [SetWriteDeadline writeWait; NextWriter true; Write (Bytes f)]
    ++ (fs ≫= λ g, [Write Newline; Write (Bytes g)])
    ++ [CloseWriter close_ok].

(** The primary key of room_members holds: no two rows with the same
    (room_id, user_id). *)
Definition keys_unique (tbl : list Store.RoomMember) : Prop :=
  NoDup (Store.member_key <$> tbl).

(** Whether a string has a space in it. *)
Fixpoint has_space (s : string) : bool :=
  match s with
  | EmptyString => false
  | String c rest => bool_decide (c = " "%char) || has_space rest
  end.

(** strings.Join(pieces, " "). *)
Fixpoint join_space (pieces : list string) : string :=
  match pieces with
  | [] => ""
  | [piece] => piece
  | piece :: rest => piece +:+ " " +:+ join_space rest
  end.

(** What a call of GetRoomMessages can return on a database, whatever
    the database does with the query: fail, or order the rows of equal
    created_at one way or another. *)
Definition history_answers (db : Store.DB) (roomID limit : Z)
    (result : Store.DbError + list Store.Message) : Prop :=
  ∃ order_by fail, Store.orders_newest_first order_by
    ∧ Store.GetRoomMessages order_by fail db roomID limit = result.

(** A wake-up at which no socket call fails. *)
Definition succeeds (w : Wake) : bool :=
  match w with
  | SendReady nextWriter_ok close_ok => nextWriter_ok && close_ok
  | Tick ping_ok => ping_ok
  end.

(** A wake-up of the send case. *)
Definition is_send (w : Wake) : bool :=
  match w with SendReady _ _ => true | Tick _ => false end.

(** How many of the wake-ups are of the send case. *)
Definition sends (wakes : list Wake) : nat :=
  length (filter (λ w, is_send w = true) wakes).

(** How many times the send case must fire for the writer of a closed
    channel to find it closed and empty: once when nothing is queued,
    twice otherwise (the first firing takes all the frames). *)
Definition sends_to_close (ch : Chan) : nat :=
  match buf ch with [] => 1 | _ :: _ => 2 end.

(** The [n]-th firing of the send case is among the wake-ups, and every
    wake-up before it succeeds. *)
Definition reaches_send (n : nat) (wakes : list Wake) : Prop :=
  ∃ pre w rest, wakes = pre ++ w :: rest ∧ is_send w = true
    ∧ Forall (λ w, succeeds w = true) pre ∧ S (sends pre) = n.

End Inv.

(* ===================================================================== *)
(** ** Concrete runs *)
(* ===================================================================== *)

Module Scenario.
Import Websocket.

Definition someDB : Store.DB :=
  Store.mkDB [] [Store.mkUser 1 "ann"; Store.mkUser 2 "bob"].

Definition ann : Client := newClient 1 "ann" 7.
Definition bob : Client := newClient 2 "bob" 7.

Definition hello : Message := mkMessage 7 1 "ann" "hello" "message".

(** The store misses its deadline on every chat message. *)
Definition timed_out : Store.InsertOutcome :=
  Store.InsertFailed Store.DeadlineExceeded.

(** ann connects to room 7: her client is client 0. *)
Definition ann_joins : list Event := [NewClient 1 "ann" 7; Req (Register 0%nat)].

Definition flood (n : nat) : list Event :=
  replicate n (Req (Broadcast hello timed_out)).

(** ann never reads: her join frame and 255 chat frames fill her queue. *)
Definition ann_full : list Event := ann_joins ++ flood 255.

(** One more chat message. *)
Definition ann_evicted : list Event := ann_joins ++ flood 256.

(** bob's client (client 1) is built while ann's queue is full. *)
Definition bob_arrives : list Event := ann_full ++ [NewClient 2 "bob" 7].

(** ann and bob in room 7; ann never reads and her queue is full (two
    join frames and 254 chat frames), bob has read all of his. *)
Definition slow_ann : list Event :=
  ann_joins ++ [NewClient 2 "bob" 7; Req (Register 1%nat)]
    ++ flood 254 ++ replicate 255 (WriterRecv 1%nat).

(** Four stored messages, three of them of room 7, and their senders. *)
Definition chatDB : Store.DB :=
  Store.mkDB
    [ Store.mkRow 1 7 1 "hello" 10; Store.mkRow 2 7 2 "hi" 20;
      Store.mkRow 3 8 1 "elsewhere" 15; Store.mkRow 4 7 1 "bye" 30 ]
    [ Store.mkUser 1 "ann"; Store.mkUser 2 "bob" ].

(** The state a run of the loop ends in (the started hub, had it
    panicked). *)
Definition state_after (events : list Event) : Hub :=
  match Run someDB events with
  | Ok h => h
  | Panicked _ => add_log LogHubStarted (NewHub someDB)
  end.

(** The frames queued for client [c], and whether its queue is closed. *)
Definition queue_of (h : Hub) (c : ptr) : list Frame :=
  match heap h !! c with Some cl => buf (send cl) | None => [] end.

Definition closed_of (h : Hub) (c : ptr) : bool :=
  match heap h !! c with Some cl => closed (send cl) | None => false end.

(** ann and bob are in room 7 (clients 0 and 1); nobody has read. *)
Definition both_joined : list Event :=
  ann_joins ++ [NewClient 2 "bob" 7; Req (Register 1%nat)].

(** ann connects and leaves. *)
Definition ann_left : list Event := ann_joins ++ [Req (Unregister 0%nat)].

(** carl (client 1) connects to room 8 while ann is in room 7. *)
Definition carl : Client := newClient 3 "carl" 8.
Definition two_rooms : list Event :=
  ann_joins ++ [NewClient 3 "carl" 8; Req (Register 1%nat)].

Definition elsewhere : Message := mkMessage 8 3 "carl" "anyone?" "message".
Definition again : Message := mkMessage 7 1 "ann" "hello again" "message".

(** ann has said hello, and the store has kept it. *)
Definition ann_talked : list Event :=
  ann_joins ++ [Req (Broadcast hello (Store.Inserted 1 1000))].

(** Three memberships: users 2 and 1 in room 7, user 1 in room 8. *)
Definition memberTbl : list Store.RoomMember :=
  [Store.mkMember 7 1 10; Store.mkMember 8 1 15; Store.mkMember 7 2 5].

End Scenario.

(* ===================================================================== *)
(** ** History retrieval *)
(* ===================================================================== *)

Module StoreFacts.
Import Store.

Lemma half_step (n : nat) : (S (S n) / 2 = S (n / 2))%nat.
Proof.
  replace (S (S n)) with (n + 1 * 2)%nat by lia. rewrite Nat.div_add by lia. lia.
Qed.

Lemma half_le_0 (n : nat) : (n / 2 ≤ 0)%nat → (n ≤ 1)%nat.
Proof.
  intros H. destruct n as [|[|n]]; [lia..|]. rewrite half_step in H. lia.
Qed.

Lemma reverse_loop_S {A} fuel i j (l : list A) :
  reverse_loop (S fuel) i j l =
  if decide (i < j)%nat then
    match l !! i, l !! j with
    | Some a, Some b => reverse_loop fuel (S i) (pred j) (<[j:=a]> (<[i:=b]> l))
    | _, _ => l
    end
  else l.
Proof. reflexivity. Qed.

Lemma swap_ends {A} (pre mid post : list A) a b :
  <[(length pre + S (length mid))%nat := a]> (<[length pre := b]> (pre ++ (a :: mid ++ [b]) ++ post))
  = (pre ++ [b]) ++ mid ++ ([a] ++ post).
Proof.
  rewrite <- !app_assoc. simpl.
  rewrite insert_app_r_alt by lia. rewrite Nat.sub_diag. simpl.
  rewrite insert_app_r_alt by lia.
  replace (length pre + S (length mid) - length pre)%nat with (S (length mid)) by lia.
  simpl. rewrite <- app_assoc. simpl. rewrite insert_app_r_alt by lia.
  rewrite Nat.sub_diag. done.
Qed.

Lemma reverse_loop_spec {A} : ∀ fuel (mid pre post : list A),
  (length mid / 2 ≤ fuel)%nat →
  reverse_loop fuel (length pre) (length pre + length mid - 1) (pre ++ mid ++ post)
  = pre ++ reverse mid ++ post.
Proof.
  induction fuel as [|fuel IH]; intros mid pre post Hf.
  - apply half_le_0 in Hf. simpl. destruct mid as [|a [|b mid]]; simpl in *; [done..|lia].
  - destruct mid as [|a mid]; [simpl; by rewrite decide_False by lia|].
    destruct mid as [|b mid _] using rev_ind.
    { simpl. by rewrite decide_False by lia. }
    assert (Hlen : length (a :: mid ++ [b]) = S (S (length mid)))
      by (simpl; rewrite length_app; simpl; lia).
    rewrite Hlen in *.
    replace (length pre + S (S (length mid)) - 1)%nat
      with (length pre + S (length mid))%nat by lia.
    rewrite reverse_loop_S, decide_True by lia.
    assert (Hi : (pre ++ (a :: mid ++ [b]) ++ post) !! length pre = Some a).
    { rewrite lookup_app_r by lia. by rewrite Nat.sub_diag. }
    assert (Hj : (pre ++ (a :: mid ++ [b]) ++ post) !! (length pre + S (length mid))%nat
                 = Some b).
    { rewrite lookup_app_r by lia.
      replace (length pre + S (length mid) - length pre)%nat with (S (length mid)) by lia.
      simpl. rewrite <- app_assoc. rewrite lookup_app_r by lia. by rewrite Nat.sub_diag. }
    rewrite Hi, Hj, swap_ends.
    replace (S (length pre)) with (length (pre ++ [b])) by (rewrite length_app; simpl; lia).
    replace (Nat.pred (length pre + S (length mid)))
      with (length (pre ++ [b]) + length mid - 1)%nat
      by (rewrite length_app; simpl; lia).
    rewrite IH.
    + rewrite reverse_cons, reverse_snoc. rewrite <- !app_assoc. done.
    + rewrite half_step in Hf. lia.
Qed.

Lemma reverse_in_place_reverse {A} (l : list A) : reverse_in_place l = reverse l.
Proof.
  unfold reverse_in_place.
  pose proof (reverse_loop_spec (length l / 2) l [] [] (le_n _)) as H.
  simpl in H. by rewrite !app_nil_r in H.
Qed.

#[global] Instance newer_first_total : Total newer_first.
Proof. intros a b. unfold newer_first. lia. Qed.

#[global] Instance newer_first_trans : Transitive newer_first.
Proof. intros a b c. unfold newer_first. lia. Qed.

Lemma StronglySorted_reverse {A} (R : relation A) (l : list A) :
  StronglySorted R l → StronglySorted (flip R) (reverse l).
Proof.
  induction 1 as [|x l Hl IH Hx]; [constructor|].
  rewrite reverse_cons. apply StronglySorted_app_2; [|done|repeat constructor].
  intros y z Hy Hz. apply list_elem_of_singleton in Hz as ->.
  rewrite elem_of_reverse in Hy. rewrite Forall_forall in Hx. unfold flip. by apply Hx.
Qed.

Lemma elem_of_room_rows db roomID r :
  r ∈ room_rows db roomID ↔
  ∃ m u, m ∈ messages db ∧ u ∈ users db ∧ m_room_id m = roomID
         ∧ m_user_id m = u_id u
         ∧ r = mkMessage (m_id m) (m_room_id m) (m_user_id m) (m_content m)
                 (u_username u) (m_created_at m).
Proof.
  unfold room_rows, inner_join_users. rewrite list_elem_of_bind. split.
  - intros (m & Hr & Hm). apply list_elem_of_filter in Hm as [Hroom Hm].
    apply list_elem_of_fmap in Hr as (u & -> & Hu).
    apply list_elem_of_filter in Hu as [Hjoin Hu]. exists m, u. by split_and!.
  - intros (m & u & Hm & Hu & Hroom & Hjoin & ->). exists m. split.
    + apply list_elem_of_fmap. exists u. split; [done|]. by apply list_elem_of_filter.
    + by apply list_elem_of_filter.
Qed.

(** The merge sort by created_at, newest first, is one order the
    database may choose. *)
Lemma merge_sort_orders_newest_first : orders_newest_first (merge_sort newer_first).
Proof.
  intros rows. split; [apply merge_sort_Permutation|apply (StronglySorted_merge_sort _)].
Qed.

(** C8. Whatever order the database gives to rows of equal created_at:
    when the query succeeds, GetRoomMessages with the limit 100 of the
    handler returns the reversal of the newest-first, at most 100 rows
    long answer of its query. The rows are stored messages of the room,
    each joined with the name of its sender; they come oldest first;
    they are 100, or all of them when the room has fewer; and no row
    left out is newer than a row returned. The handler answers 200 with
    these rows marshalled. When the query, a scan or the iteration
    fails, GetRoomMessages returns the error and no rows, and the
    handler answers 500. *)
Theorem history_most_recent_100 order_by db roomID :
  orders_newest_first order_by →
  let newest := order_by (room_rows db roomID) in
  let history := reverse (take 100 newest) in
  GetRoomMessages order_by None db roomID 100 = inr history
  ∧ (∀ userID,
       Api.getRoomMessagesHandler (Some userID) (inr roomID) (inr true)
         order_by None db
       = Api.writeJSON 200 (marshal <$> history))
  ∧ (∀ err, GetRoomMessages order_by (Some err) db roomID 100 = inl err
       ∧ ∀ userID,
           Api.getRoomMessagesHandler (Some userID) (inr roomID) (inr true)
             order_by (Some err) db
           = Api.writeError 500 "failed to retrieve messages")
  ∧ newest ≡ₚ room_rows db roomID
  ∧ StronglySorted newer_first newest
  ∧ StronglySorted (λ a b, CreatedAt a ≤ CreatedAt b) history
  ∧ length history = (100 `min` length (room_rows db roomID))%nat
  ∧ (∀ x y, x ∈ history → y ∈ drop 100 newest → CreatedAt y ≤ CreatedAt x)
  ∧ (∀ r, r ∈ room_rows db roomID ↔
       ∃ m u, m ∈ messages db ∧ u ∈ users db ∧ m_room_id m = roomID
              ∧ m_user_id m = u_id u
              ∧ r = mkMessage (m_id m) (m_room_id m) (m_user_id m) (m_content m)
                      (u_username u) (m_created_at m)).
Proof.
  intros Horder newest history.
  assert (Hget : GetRoomMessages order_by None db roomID 100 = inr history).
  { unfold GetRoomMessages, select_room_messages. rewrite decide_False by lia.
    by rewrite reverse_in_place_reverse. }
  destruct (Horder (room_rows db roomID)) as [Hperm Hsorted].
  pose proof Hsorted as Hsplit. fold newest in Hsplit.
  rewrite <- (take_drop 100 newest) in Hsplit.
  apply StronglySorted_app in Hsplit as (Hcross & Htake & _).
  split_and!.
  - exact Hget.
  - intros userID. unfold Api.getRoomMessagesHandler. by rewrite Hget.
  - intros err. split; [done|]. intros userID. done.
  - exact Hperm.
  - exact Hsorted.
  - apply (StronglySorted_reverse _ _ Htake).
  - unfold history. rewrite length_reverse, length_take. unfold newest. by rewrite Hperm.
  - intros x y Hx Hy. unfold history in Hx. rewrite elem_of_reverse in Hx. by apply (Hcross x y).
  - apply elem_of_room_rows.
Qed.

(** C8, on a database: three messages in room 7, one elsewhere; the
    database sorts with a merge sort. It answers, or it loses the
    connection. *)
Lemma history_most_recent_100_witness :
  GetRoomMessages (merge_sort newer_first) None Scenario.chatDB 7 100
  = inr [ mkMessage 1 7 1 "hello" "ann" 10; mkMessage 2 7 2 "hi" "bob" 20;
          mkMessage 4 7 1 "bye" "ann" 30 ]
  ∧ Api.getRoomMessagesHandler (Some 1) (inr 7) (inr true)
      (merge_sort newer_first) (Some ConnectionFailed) Scenario.chatDB
    = Api.writeError 500 "failed to retrieve messages"
  ∧ ∀ x, x ∈ reverse (take 100 (merge_sort newer_first (room_rows Scenario.chatDB 7))) →
      RoomID x = 7.
Proof.
  destruct (history_most_recent_100 (merge_sort newer_first) Scenario.chatDB 7
              merge_sort_orders_newest_first)
    as (Hget & _ & Hfail & Hperm & _ & _ & _ & _ & Hrows).
  split; [|split].
  - rewrite Hget. vm_compute. reflexivity.
  - by destruct (Hfail ConnectionFailed) as [_ ->].
  - intros x Hx. rewrite elem_of_reverse in Hx. apply elem_of_take in Hx as (i & Hx & _).
    apply list_elem_of_lookup_2 in Hx. rewrite Hperm in Hx.
    apply Hrows in Hx as (m & u & _ & _ & Hroom & _ & ->). exact Hroom.
Defined.

(** With a limit of 2 the two newest come back, the older one first. *)
Example history_limit_2 :
  GetRoomMessages (merge_sort newer_first) None Scenario.chatDB 7 2
  = inr [ mkMessage 2 7 2 "hi" "bob" 20; mkMessage 4 7 1 "bye" "ann" 30 ].
Proof. vm_compute. reflexivity. Qed.

End StoreFacts.

(* ===================================================================== *)
(** ** The reader *)
(* ===================================================================== *)

Module ReaderFacts.
Import Websocket Inv.

Lemma read_loop_ok cl payload reads :
  read_loop cl (ReadOk payload :: reads)
  = (SubmitBroadcast (chat_of cl payload) :: (read_loop cl reads).1,
     (read_loop cl reads).2).
Proof. simpl. by destruct (read_loop cl reads). Qed.

Lemma read_loop_forwards cl payloads rest :
  read_loop cl ((ReadOk <$> payloads) ++ rest)
  = ((SubmitBroadcast ∘ chat_of cl <$> payloads) ++ (read_loop cl rest).1,
     (read_loop cl rest).2).
Proof.
  induction payloads as [|p payloads IH].
  - simpl. by destruct (read_loop cl rest).
  - rewrite fmap_cons, <- app_comm_cons, read_loop_ok, IH. done.
Qed.

(** C7, as the code has it. The reader forwards every frame that
    ReadMessage hands over, whatever its content, as the content of a
    message of type "message" (nothing is inspected, nothing is
    discarded); the first frame ReadMessage fails on ends the loop: the
    reader submits Unregister, closes the socket and reads no frame after
    it. No result of ReadMessage is dropped with the loop going on. *)
Theorem reader_forwards_or_stops c cl :
  (∀ payloads,
     readPump c cl (ReadOk <$> payloads)
     = ([SetReadLimit (1024 * 1024); SetReadDeadline 60; SetPongHandler]
          ++ (SubmitBroadcast ∘ chat_of cl <$> payloads),
        false))
  ∧ (∀ payloads err rest,
       readPump c cl ((ReadOk <$> payloads) ++ ReadFailed err :: rest)
       = ([SetReadLimit (1024 * 1024); SetReadDeadline 60; SetPongHandler]
            ++ (SubmitBroadcast ∘ chat_of cl <$> payloads)
            ++ (if IsUnexpectedCloseError err [1001; 1006]
                then [LogWebSocketError err] else [])
            ++ [SubmitUnregister c; ConnClose],
          true))
  ∧ (∀ r, ¬ discards_and_continues r).
Proof.
  split; [|split].
  - intros payloads. unfold readPump.
    pose proof (read_loop_forwards cl payloads []) as H. rewrite app_nil_r in H.
    rewrite H. simpl. by rewrite !app_nil_r.
  - intros payloads err rest. unfold readPump.
    rewrite read_loop_forwards. simpl. by rewrite <- !app_assoc.
  - intros [payload|err] H.
    + specialize (H c cl []). unfold readPump in H. simpl in H. discriminate.
    + specialize (H c cl [ReadOk ""]). unfold readPump in H. simpl in H.
      discriminate.
Qed.

(** C7, on a run: two frames, the peer closing with code 1000 in
    between. *)
Lemma reader_forwards_or_stops_witness :
  readPump 0 Scenario.ann [ReadOk "a"; ReadFailed (CloseError 1000); ReadOk "b"]
  = ([SetReadLimit 1048576; SetReadDeadline 60; SetPongHandler;
      SubmitBroadcast (mkMessage 7 1 "ann" "a" "message");
      LogWebSocketError (CloseError 1000); SubmitUnregister 0; ConnClose], true).
Proof.
  destruct (reader_forwards_or_stops 0%nat Scenario.ann) as (_ & Hstop & _).
  exact (Hstop ["a"] (CloseError 1000) [ReadOk "b"]).
Defined.

(** C7 as the specification has it, refuted. A frame the socket rejects
    (over the read limit, say) is not skipped: the loop ends, Unregister
    is submitted and the frame after it is never read. A frame that is
    read is not skipped either, malformed or not: it is broadcast as it
    is. *)
Lemma bad_frame_counterexample :
  ¬ discards_and_continues (ReadFailed OtherReadError)
  ∧ ¬ discards_and_continues (ReadOk "{not json")
  ∧ readPump 0 Scenario.ann [ReadFailed OtherReadError; ReadOk "hi"]
    = ([SetReadLimit 1048576; SetReadDeadline 60; SetPongHandler;
        SubmitUnregister 0; ConnClose], true)
  ∧ readPump 0 Scenario.ann [ReadOk "{not json"; ReadOk "hi"]
    = ([SetReadLimit 1048576; SetReadDeadline 60; SetPongHandler;
        SubmitBroadcast (mkMessage 7 1 "ann" "{not json" "message");
        SubmitBroadcast (mkMessage 7 1 "ann" "hi" "message")], false).
Proof.
  split_and!.
  - intros H. specialize (H 0%nat Scenario.ann [ReadOk "hi"]). vm_compute in H.
    discriminate.
  - intros H. specialize (H 0%nat Scenario.ann []). vm_compute in H. discriminate.
  - vm_compute. reflexivity.
  - vm_compute. reflexivity.
Qed.

End ReaderFacts.

(* ===================================================================== *)
(** ** The fan-out loop *)
(* ===================================================================== *)

Module HubFacts.
Import Websocket Inv.

Lemma bind_Ok {A B} (f : A → Result B) (a : A) : (Ok a ≫= f) = f a.
Proof. reflexivity. Qed.

Lemma bind_Ok_inv {A B} (f : A → Result B) (r : Result A) (b : B) :
  r ≫= f = Ok b → ∃ a, r = Ok a ∧ f a = Ok b.
Proof. destruct r as [a|p]; [eauto | discriminate]. Qed.

Lemma heap_set_client c cl h x :
  (c < length (heap h))%nat →
  heap (set_client c cl h) !! x = if decide (x = c) then Some cl else heap h !! x.
Proof.
  intros Hc. simpl. destruct (decide (x = c)) as [->|Hne].
  - by apply list_lookup_insert_eq.
  - by apply list_lookup_insert_ne.
Qed.

(** One iteration on an allocated client with an open channel. *)
Lemma deliver_open R f h c cl :
  heap h !! c = Some cl → closed (send cl) = false →
  deliver R f h c =
    Ok (if is_full (send cl)
        then add_log (LogRemovedFullBuffer (userID cl) R)
               (set_rooms (alter (λ S, S ∖ {[c]}) R)
                  (set_client c (after_send f cl) h))
        else set_client c (after_send f cl) h).
Proof.
  intros Hc Hopen. unfold deliver, try_send, chan_close, after_send.
  rewrite Hc, Hopen. by destruct (is_full (send cl)).
Qed.

Lemma elem_of_evicted h cs c :
  c ∈ evicted h cs ↔ c ∈ cs ∧ full_at h c = true.
Proof. unfold evicted. rewrite elem_of_list_to_set, list_elem_of_filter. tauto. Qed.

Lemma evicted_cons h c cs :
  evicted h (c :: cs) = (if full_at h c then {[c]} else ∅) ∪ evicted h cs.
Proof.
  unfold evicted. rewrite filter_cons.
  destruct (full_at h c); simpl; set_solver.
Qed.

Lemma evicted_ext h1 h2 cs :
  (∀ c, c ∈ cs → heap h1 !! c = heap h2 !! c) → evicted h1 cs = evicted h2 cs.
Proof.
  intros Heq. apply set_eq. intros c. rewrite !elem_of_evicted.
  split; intros [Hc Hf]; (split; [done|]); unfold full_at in *.
  - by rewrite <- (Heq c Hc).
  - by rewrite (Heq c Hc).
Qed.

(** The whole loop, on distinct members that are allocated and open:
    it does not panic; every member is closed (when full) or one frame
    longer, nobody else is touched; the room loses the full ones. *)
Lemma range_clients_spec R f cs : ∀ h,
  NoDup cs →
  (∀ c, c ∈ cs → ∃ cl, heap h !! c = Some cl ∧ closed (send cl) = false) →
  ∃ h', range_clients R f cs h = Ok h'
    ∧ (∀ x, heap h' !! x =
             if decide (x ∈ cs) then after_send f <$> heap h !! x else heap h !! x)
    ∧ rooms h' !! R = (λ S, S ∖ evicted h cs) <$> rooms h !! R
    ∧ (∀ R', R' ≠ R → rooms h' !! R' = rooms h !! R')
    ∧ db h' = db h ∧ creates h' = creates h
    ∧ (∃ more, log h' = log h ++ more).
Proof.
  induction cs as [|c cs IH]; intros h Hnd Hall.
  - exists h. simpl. split_and!; try done.
    + destruct (rooms h !! R) as [S|]; simpl; [|done]. f_equal.
      unfold evicted. simpl. set_solver.
    + exists []. by rewrite app_nil_r.
  - apply NoDup_cons in Hnd as [Hc Hnd].
    destruct (Hall c) as (cl & Hcl & Hopen); [set_solver|].
    assert (Hlt : (c < length (heap h))%nat) by (by eapply lookup_lt_Some).
    simpl. rewrite (deliver_open _ _ _ _ _ Hcl Hopen), bind_Ok.
    set (h1 := if is_full (send cl) then _ else _).
    assert (Hheap1 : ∀ x, heap h1 !! x =
               if decide (x = c) then Some (after_send f cl) else heap h !! x).
    { intros x. subst h1. destruct (is_full (send cl)); by apply heap_set_client. }
    assert (Hother : ∀ x, x ∈ cs → heap h1 !! x = heap h !! x).
    { intros x Hx. rewrite Hheap1. rewrite decide_False; [done|]. set_solver. }
    destruct (IH h1 Hnd) as (h' & Hrun & Hh & HR & HR' & Hdb & Hcr & more & Hlog).
    { intros x Hx. rewrite (Hother x Hx). apply Hall. set_solver. }
    exists h'. split; [done|]. split_and!.
    + intros x. rewrite Hh, Hheap1.
      repeat case_decide; subst; rewrite ?Hcl; try done; set_solver.
    + rewrite HR, (evicted_ext h1 h cs Hother), evicted_cons.
      unfold full_at. rewrite Hcl. subst h1.
      destruct (is_full (send cl)); simpl.
      * rewrite lookup_alter_eq. destruct (rooms h !! R); simpl; [|done].
        f_equal. set_solver.
      * destruct (rooms h !! R); simpl; [|done]. f_equal. set_solver.
    + intros R'' Hne. rewrite (HR' R'' Hne). subst h1.
      destruct (is_full (send cl)); simpl; [|done]. by rewrite lookup_alter_ne.
    + rewrite Hdb. subst h1. by destruct (is_full (send cl)).
    + rewrite Hcr. subst h1. by destruct (is_full (send cl)).
    + rewrite Hlog. subst h1. destruct (is_full (send cl)); simpl.
      * eexists. by rewrite <- app_assoc.
      * by eexists.
Qed.

(** Go ranges over the members in an order of its choosing: the registry
    and the clients the loop ends with do not depend on it. *)
Lemma range_clients_order R f cs cs' h :
  NoDup cs → cs ≡ₚ cs' →
  (∀ c, c ∈ cs → ∃ cl, heap h !! c = Some cl ∧ closed (send cl) = false) →
  result_view (range_clients R f cs h) = result_view (range_clients R f cs' h).
Proof.
  intros Hnd Hperm Hall.
  destruct (range_clients_spec R f cs h Hnd Hall) as (h1 & -> & Hh1 & HR1 & HR1' & _).
  destruct (range_clients_spec R f cs' h) as (h2 & -> & Hh2 & HR2 & HR2' & _).
  { by rewrite <- Hperm. }
  { intros c Hc. apply Hall. by rewrite Hperm. }
  unfold result_view, view. simpl. f_equal. f_equal.
  - apply map_eq. intros R'. destruct (decide (R' = R)) as [->|Hne].
    + rewrite HR1, HR2. destruct (rooms h !! R) as [S|]; simpl; [|done]. f_equal.
      apply set_eq. intros c. rewrite !elem_of_difference, !elem_of_evicted.
      by rewrite Hperm.
    + by rewrite HR1', HR2'.
  - apply list_eq. intros x. rewrite Hh1, Hh2.
    destruct (decide (x ∈ cs)) as [Hin|Hnin].
    + by rewrite decide_True by (by rewrite <- Hperm).
    + by rewrite decide_False by (by rewrite <- Hperm).
Qed.

Lemma elem_of_evicted_elements h (S : gset ptr) c :
  c ∈ evicted h (elements S) ↔ c ∈ S ∧ full_at h c = true.
Proof. by rewrite elem_of_evicted, elem_of_elements. Qed.

(** [broadcastToRoom] on a room whose members are live. *)
Lemma broadcastToRoom_spec h R m (clients : gset ptr) :
  members_open h → rooms h !! R = Some clients →
  ∃ h', broadcastToRoom h R m = Ok h'
    ∧ (∀ x, heap h' !! x =
             if decide (x ∈ clients) then after_send (marshal m) <$> heap h !! x
             else heap h !! x)
    ∧ rooms h' !! R = Some (clients ∖ evicted h (elements clients))
    ∧ (∀ R', R' ≠ R → rooms h' !! R' = rooms h !! R')
    ∧ db h' = db h ∧ creates h' = creates h
    ∧ (∃ more, log h' = log h ++ more).
Proof.
  intros Hopen HR. unfold broadcastToRoom. rewrite HR.
  destruct (range_clients_spec R (marshal m) (elements clients) h)
    as (h' & Hrun & Hh & HR1 & HR' & Hdb & Hcr & more & Hlog).
  { apply NoDup_elements. }
  { intros c Hc. apply elem_of_elements in Hc.
    destruct (Hopen R clients c HR Hc) as (cl & ? & _ & ?). eauto. }
  rewrite Hrun, bind_Ok. eexists. split; [done|]. simpl. split_and!; try done.
  - intros x. rewrite Hh. destruct (decide (x ∈ clients)).
    + by rewrite decide_True by (by apply elem_of_elements).
    + by rewrite decide_False by (by rewrite elem_of_elements).
  - by rewrite HR1, HR.
  - rewrite Hlog. eexists. by rewrite <- app_assoc.
Qed.

Lemma broadcastToRoom_absent h R m :
  rooms h !! R = None → broadcastToRoom h R m = Ok h.
Proof. intros HR. unfold broadcastToRoom. by rewrite HR. Qed.

Lemma after_send_cap f cl : cap (send (after_send f cl)) = cap (send cl).
Proof. unfold after_send. by destruct (is_full (send cl)). Qed.

Lemma after_send_full f cl :
  is_full (send cl) = true →
  after_send f cl = with_send (mkChan (buf (send cl)) (cap (send cl)) true) cl.
Proof. unfold after_send. by intros ->. Qed.

Lemma after_send_room f cl :
  is_full (send cl) = false →
  after_send f cl = with_send (mkChan (buf (send cl) ++ [f]) (cap (send cl)) false) cl.
Proof. unfold after_send. by intros ->. Qed.

Lemma after_send_length f cl :
  (length (buf (send cl)) ≤ cap (send cl))%nat →
  (length (buf (send (after_send f cl))) ≤ cap (send cl))%nat.
Proof.
  intros Hle. unfold after_send, is_full. case_bool_decide; simpl; [done|].
  rewrite length_app. simpl. lia.
Qed.

(** The invariant looks at the registry and the clients only. *)
Lemma hub_inv_view regd h1 h2 : view h1 = view h2 → hub_inv regd h1 → hub_inv regd h2.
Proof.
  unfold view. intros [= Hr Hh] ([Hm Hq] & Hreg & Hfresh).
  unfold hub_inv, wf, members_open, queues_bounded.
  rewrite <- Hr, <- Hh. done.
Qed.

Lemma hub_inv_mono regd regd' h :
  regd ⊆ regd' → hub_inv regd h → hub_inv regd' h.
Proof.
  intros Hsub (Hwf & Hreg & Hfresh). split; [done|]. split.
  - intros R S c HR Hc. apply Hsub. eauto.
  - intros c cl Hc Hn. apply (Hfresh c cl Hc). set_solver.
Qed.

(** A fan-out on a state that satisfies the invariant does not panic
    and keeps the invariant. *)
Lemma broadcastToRoom_inv regd h R m :
  hub_inv regd h → ∃ h', broadcastToRoom h R m = Ok h' ∧ hub_inv regd h'.
Proof.
  intros Hinv. destruct (rooms h !! R) as [clients|] eqn:HR.
  2:{ exists h. by rewrite broadcastToRoom_absent. }
  destruct Hinv as ([Hm Hq] & Hreg & Hfresh).
  destruct (broadcastToRoom_spec h R m clients Hm HR)
    as (h' & Hrun & Hh & HR1 & HR' & _).
  exists h'. split; [done|].
  assert (Hsub : ∀ R' (S' : gset ptr) c, rooms h' !! R' = Some S' → c ∈ S' →
            ∃ S, rooms h !! R' = Some S ∧ c ∈ S ∧
                 (R' = R → S = clients ∧ full_at h c = false)).
  { intros R' S' c HS' Hc. destruct (decide (R' = R)) as [->|Hne].
    - rewrite HR1 in HS'. injection HS' as <-.
      apply elem_of_difference in Hc as [Hc Hnev].
      exists clients. split_and!; [done..|]. intros _. split; [done|].
      rewrite elem_of_evicted_elements in Hnev.
      destruct (full_at h c); [|done]. by destruct Hnev.
    - rewrite (HR' R' Hne) in HS'. exists S'. by split_and!. }
  split; [split|split].
  - intros R' S' c HS' Hc.
    destruct (Hsub R' S' c HS' Hc) as (S & HS & HcS & HRR).
    destruct (Hm R' S c HS HcS) as (cl & Hcl & Hroom & Hopen).
    rewrite Hh, Hcl. destruct (decide (c ∈ clients)) as [Hin|Hnin]; simpl.
    + assert (R' = R) as ->.
      { destruct (Hm R clients c HR Hin) as (cl' & Hcl' & Hroom' & _). congruence. }
      destruct (HRR eq_refl) as [_ Hnf]. unfold full_at in Hnf. rewrite Hcl in Hnf.
      eexists. split; [done|]. by rewrite (after_send_room _ _ Hnf).
    + eauto.
  - intros c cl'. rewrite Hh. intros Hc.
    assert (∃ cl, heap h !! c = Some cl ∧ (cl' = cl ∨ cl' = after_send (marshal m) cl))
      as (cl & Hcl & Hor).
    { destruct (decide (c ∈ clients)); destruct (heap h !! c) as [cl|]; simpl in Hc;
        try discriminate; injection Hc as <-; eauto. }
    destruct (Hq c cl Hcl) as [Hcap Hlen]. destruct Hor as [->| ->]; [done|].
    rewrite after_send_cap. split; [done|]. rewrite <- Hcap.
    apply after_send_length. lia.
  - intros R' S' c HS' Hc. destruct (Hsub R' S' c HS' Hc) as (S & HS & HcS & _). eauto.
  - intros c cl'. rewrite Hh. intros Hc Hn.
    rewrite decide_False in Hc; [eauto|]. intros Hin. apply Hn. eauto.
Qed.

(** *** Register, Unregister, Broadcast and the loop keep the invariant *)

Lemma add_to_room_lookup R c h :
  rooms (add_to_room R c h) !! R = Some ({[c]} ∪ room_set h R).
Proof.
  unfold add_to_room, room_set. destruct (rooms h !! R) as [S|] eqn:HR; simpl.
  - by rewrite lookup_alter_eq, HR.
  - by rewrite lookup_alter_eq, lookup_insert_eq.
Qed.

Lemma add_to_room_other R R' c h :
  R' ≠ R → rooms (add_to_room R c h) !! R' = rooms h !! R'.
Proof.
  intros Hne. unfold add_to_room. destruct (rooms h !! R) as [S|] eqn:HR; simpl.
  - by rewrite lookup_alter_ne.
  - by rewrite lookup_alter_ne, lookup_insert_ne.
Qed.

Lemma add_to_room_heap R c h : heap (add_to_room R c h) = heap h.
Proof. unfold add_to_room. by destruct (rooms h !! R). Qed.

Lemma elem_of_room_set h R c :
  c ∈ room_set h R ↔ ∃ S : gset ptr, rooms h !! R = Some S ∧ c ∈ S.
Proof.
  unfold room_set. destruct (rooms h !! R) as [S|]; simpl.
  - split; [eauto|]. by intros (? & [= <-] & ?).
  - split; [set_solver|]. by intros (? & ? & ?).
Qed.

Lemma add_to_room_inv regd h c cl :
  hub_inv regd h → heap h !! c = Some cl → closed (send cl) = false →
  hub_inv ({[c]} ∪ regd) (add_to_room (roomID cl) c h).
Proof.
  intros ([Hm Hq] & Hreg & Hfresh) Hcl Hopen.
  assert (Hsub : ∀ R (S : gset ptr) x,
            rooms (add_to_room (roomID cl) c h) !! R = Some S → x ∈ S →
            (x = c ∧ R = roomID cl) ∨ ∃ S0 : gset ptr, rooms h !! R = Some S0 ∧ x ∈ S0).
  { intros R S x HS Hx. destruct (decide (R = roomID cl)) as [->|Hne].
    - rewrite add_to_room_lookup in HS. injection HS as <-.
      apply elem_of_union in Hx as [Hx|Hx]; [left; set_solver|].
      right. by apply elem_of_room_set.
    - rewrite add_to_room_other in HS by done. eauto. }
  split; [split|split].
  - intros R S x HS Hx. rewrite add_to_room_heap.
    destruct (Hsub R S x HS Hx) as [[-> ->]|(S0 & HS0 & Hx0)]; eauto.
  - intros x clx. rewrite add_to_room_heap. apply Hq.
  - intros R S x HS Hx.
    destruct (Hsub R S x HS Hx) as [[-> ->]|(S0 & HS0 & Hx0)]; [set_solver|].
    apply elem_of_union_r. eauto.
  - intros x clx. rewrite add_to_room_heap. intros Hx Hn. apply (Hfresh x clx Hx).
    set_solver.
Qed.

Lemma registerClient_inv regd h c cl :
  hub_inv regd h → heap h !! c = Some cl → closed (send cl) = false →
  ∃ h', registerClient h c = Ok h' ∧ hub_inv ({[c]} ∪ regd) h'.
Proof.
  intros Hinv Hcl Hopen. unfold registerClient. rewrite Hcl.
  apply broadcastToRoom_inv.
  eapply hub_inv_view; [|by apply (add_to_room_inv regd h c cl)]. done.
Qed.

(** The state unregisterClient reaches before it broadcasts the leave
    message, for a member [c] of [clients]. *)
Lemma unregisterClient_member h c cl (clients : gset ptr) :
  heap h !! c = Some cl → rooms h !! roomID cl = Some clients → c ∈ clients →
  closed (send cl) = false →
  ∃ h4, unregisterClient h c = broadcastToRoom h4 (roomID cl) (leaveMessage cl)
    ∧ rooms h4 = (if decide (clients ∖ {[c]} = ∅)
                  then delete (roomID cl) (rooms h)
                  else <[roomID cl := clients ∖ {[c]}]> (rooms h))
    ∧ heap h4 = <[c := with_send (mkChan (buf (send cl)) (cap (send cl)) true) cl]>
                  (heap h)
    ∧ db h4 = db h ∧ creates h4 = creates h.
Proof.
  intros Hcl HR Hin Hopen. unfold unregisterClient, chan_close.
  rewrite Hcl, HR, decide_True by done. rewrite Hopen, bind_Ok.
  eexists. split; [reflexivity|].
  destruct (decide (size (clients ∖ {[c]}) = 0%nat)) as [Hz|Hnz].
  - rewrite decide_True by (by apply leibniz_equiv, size_empty_iff).
    simpl. by rewrite delete_insert_eq.
  - rewrite decide_False; [done|]. intros He. apply Hnz. rewrite He. apply size_empty.
Qed.

Lemma unregisterClient_absent h c cl :
  heap h !! c = Some cl → c ∉ room_set h (roomID cl) → unregisterClient h c = Ok h.
Proof.
  intros Hcl Hn. unfold unregisterClient. rewrite Hcl.
  destruct (rooms h !! roomID cl) as [S|] eqn:HR; [|done].
  rewrite decide_False; [done|]. intros Hin. apply Hn. apply elem_of_room_set. eauto.
Qed.

Lemma unregisterClient_inv regd h c :
  hub_inv regd h → is_Some (heap h !! c) →
  ∃ h', unregisterClient h c = Ok h' ∧ hub_inv regd h'.
Proof.
  intros Hinv [cl Hcl].
  destruct (decide (c ∈ room_set h (roomID cl))) as [Hin|Hnin].
  2:{ exists h. by rewrite (unregisterClient_absent h c cl). }
  apply elem_of_room_set in Hin as (clients & HR & Hin).
  pose proof Hinv as ([Hm Hq] & Hreg & Hfresh).
  destruct (Hm _ _ _ HR Hin) as (cl' & Hcl' & _ & Hopen).
  assert (cl' = cl) as -> by congruence.
  destruct (unregisterClient_member h c cl clients Hcl HR Hin Hopen)
    as (h4 & -> & Hr4 & Hh4 & _).
  apply broadcastToRoom_inv.
  assert (Hlt : (c < length (heap h))%nat) by (by eapply lookup_lt_Some).
  assert (Hsub : ∀ R (S : gset ptr) x, rooms h4 !! R = Some S → x ∈ S →
            x ≠ c ∧ ∃ S0 : gset ptr, rooms h !! R = Some S0 ∧ x ∈ S0).
  { intros R S x. rewrite Hr4. intros HS Hx.
    destruct (decide (R = roomID cl)) as [->|Hne].
    - case_decide.
      + by rewrite lookup_delete_eq in HS.
      + rewrite lookup_insert_eq in HS. injection HS as <-.
        split; [set_solver|]. exists clients. split; [done|set_solver].
    - assert (rooms h !! R = Some S) as HS0.
      { case_decide; [by rewrite lookup_delete_ne in HS
                     |by rewrite lookup_insert_ne in HS]. }
      split; [|eauto]. intros ->.
      destruct (Hm _ _ _ HS0 Hx) as (cl' & Hcl'' & Hroom & _). congruence. }
  split; [split|split].
  - intros R S x HS Hx. destruct (Hsub R S x HS Hx) as (Hne & S0 & HS0 & Hx0).
    rewrite Hh4, list_lookup_insert_ne by done. eauto.
  - intros x clx. rewrite Hh4. intros Hx.
    destruct (decide (x = c)) as [->|Hne].
    + rewrite list_lookup_insert_eq in Hx by done. injection Hx as <-. simpl.
      by apply Hq in Hcl.
    + rewrite list_lookup_insert_ne in Hx by done. eauto.
  - intros R S x HS Hx. destruct (Hsub R S x HS Hx) as (Hne & S0 & HS0 & Hx0). eauto.
  - intros x clx. rewrite Hh4. intros Hx Hn.
    assert (x ≠ c) by (intros ->; apply Hn; eauto).
    rewrite list_lookup_insert_ne in Hx by done. eauto.
Qed.

Lemma persist_view h m o : view (persist h m o) = view h.
Proof.
  unfold persist. case_decide; [|done]. by destruct o.
Qed.

Lemma handleBroadcast_inv regd h m o :
  hub_inv regd h → ∃ h', handleBroadcast h m o = Ok h' ∧ hub_inv regd h'.
Proof.
  intros Hinv. apply broadcastToRoom_inv.
  eapply hub_inv_view; [|exact Hinv]. symmetry. apply persist_view.
Qed.

Lemma newClient_inv regd h u n r :
  hub_inv regd h →
  hub_inv regd (mkHub (rooms h) (heap h ++ [newClient u n r]) (db h) (creates h) (log h)).
Proof.
  intros ([Hm Hq] & Hreg & Hfresh).
  assert (Hnew : ∀ x clx, (heap h ++ [newClient u n r]) !! x = Some clx →
            heap h !! x = Some clx ∨ clx = newClient u n r).
  { intros x clx Hx. apply lookup_app_Some in Hx as [Hx|[_ Hx]]; [by left|right].
    apply list_lookup_singleton_Some in Hx as [_ Hx]. done. }
  split; [split|split]; simpl.
  - intros R S x HS Hx. destruct (Hm R S x HS Hx) as (clx & Hclx & ?).
    exists clx. split; [|done]. by apply lookup_app_l_Some.
  - intros x clx Hx. destruct (Hnew x clx Hx) as [?| ->]; [eauto|]. simpl. lia.
  - done.
  - intros x clx Hx Hn. destruct (Hnew x clx Hx) as [?| ->]; [eauto|done].
Qed.

Lemma writerRecv_inv regd h c cl :
  hub_inv regd h → heap h !! c = Some cl →
  hub_inv regd (set_client c (with_send (chan_recv (send cl)) cl) h).
Proof.
  intros ([Hm Hq] & Hreg & Hfresh) Hcl.
  assert (Hlt : (c < length (heap h))%nat) by (by eapply lookup_lt_Some).
  assert (Hnew : ∀ x clx,
            heap (set_client c (with_send (chan_recv (send cl)) cl) h) !! x = Some clx →
            ∃ clx0, heap h !! x = Some clx0 ∧ roomID clx = roomID clx0
              ∧ closed (send clx) = closed (send clx0)
              ∧ cap (send clx) = cap (send clx0)
              ∧ (length (buf (send clx)) ≤ length (buf (send clx0)))%nat).
  { intros x clx. rewrite heap_set_client by done. case_decide as Hx.
    - subst x. intros [= <-]. exists cl. simpl. split_and!; try done.
      destruct (buf (send cl)); simpl; lia.
    - intros Hclx. exists clx. by split_and!. }
  split; [split|split].
  - intros R S x HS Hx. destruct (Hm R S x HS Hx) as (clx & Hclx & Hroom & Hopen).
    destruct (decide (x = c)) as [->|Hne].
    + assert (clx = cl) as -> by congruence. eexists. split.
      * rewrite heap_set_client by done. by rewrite decide_True.
      * done.
    + exists clx. split; [|done]. rewrite heap_set_client by done.
      by rewrite decide_False.
  - intros x clx Hx. destruct (Hnew x clx Hx) as (clx0 & H0 & _ & _ & Hcap & Hlen).
    destruct (Hq x clx0 H0). split; [congruence|lia].
  - done.
  - intros x clx Hx Hn. destruct (Hnew x clx Hx) as (clx0 & H0 & _ & Hcl0 & _).
    rewrite Hcl0. eauto.
Qed.

(** *** What any fan-out that returns has done, whatever the state *)

Lemma within_refl h : within h h.
Proof. unfold within. by split_and!. Qed.

Lemma within_trans h0 h1 h2 : within h0 h1 → within h1 h2 → within h0 h2.
Proof.
  intros (Hl1 & Hr1 & Hs1 & Hf1) (Hl2 & Hr2 & Hs2 & Hf2). unfold within. split_and!.
  - congruence.
  - intros x. by rewrite Hr2.
  - intros R. specialize (Hs1 R). specialize (Hs2 R). set_solver.
  - auto.
Qed.

Lemma within_set_client h c cl cl' :
  heap h !! c = Some cl → roomID cl' = roomID cl →
  (∀ f, f ∈ buf (send cl') → f ∈ buf (send cl) ∨ ∃ m, f = marshal m) →
  within h (set_client c cl' h).
Proof.
  intros Hcl Hroom Hbuf.
  assert (Hlt : (c < length (heap h))%nat) by (by eapply lookup_lt_Some).
  unfold within. split_and!.
  - simpl. apply length_insert.
  - intros x. rewrite heap_set_client by done. case_decide; [subst|done].
    by rewrite Hcl; simpl; f_equal.
  - done.
  - intros Hfm x clx f. rewrite heap_set_client by done. case_decide.
    + subst x. intros [= <-] Hf. destruct (Hbuf f Hf); eauto.
    + eauto.
Qed.

Lemma within_rooms h h' :
  heap h' = heap h → (∀ R, room_set h' R ⊆ room_set h R) → within h h'.
Proof.
  intros Hh Hsub. unfold within. split_and!; [by rewrite Hh| by intros; rewrite Hh|done|].
  unfold frames_marshalled. by rewrite Hh.
Qed.

Lemma deliver_within R m h c h1 :
  deliver R (marshal m) h c = Ok h1 → within h h1.
Proof.
  unfold deliver. destruct (heap h !! c) as [cl|] eqn:Hcl; [|done].
  unfold try_send, chan_close. destruct (closed (send cl)) eqn:Hopen; [done|].
  destruct (is_full (send cl)); simpl; intros [= <-].
  - set (cl' := with_send (mkChan (buf (send cl)) (cap (send cl)) true) cl).
    apply (within_trans h (set_client c cl' h)).
    { apply (within_set_client h c cl cl'); [done..|]. simpl. eauto. }
    apply within_rooms; [done|]. intros R'. unfold room_set. simpl.
    destruct (decide (R' = R)) as [->|Hne].
    + rewrite lookup_alter_eq. destruct (rooms h !! R); simpl; set_solver.
    + by rewrite lookup_alter_ne.
  - apply (within_set_client h c cl); [done..|]. simpl. intros f Hf.
    apply elem_of_app in Hf as [?|Hf]; [by left|right].
    apply list_elem_of_singleton in Hf. eauto.
Qed.

Lemma range_clients_within R m cs : ∀ h h',
  range_clients R (marshal m) cs h = Ok h' → within h h'.
Proof.
  induction cs as [|c cs IH]; simpl; intros h h' Hrun.
  - injection Hrun as <-. apply within_refl.
  - apply bind_Ok_inv in Hrun as (h1 & Hd & Hrun).
    eapply within_trans; [by eapply deliver_within|by apply IH].
Qed.

Lemma within_add_log e h : within h (add_log e h).
Proof. by apply within_rooms. Qed.

Lemma broadcastToRoom_within h R m h' :
  broadcastToRoom h R m = Ok h' → within h h'.
Proof.
  unfold broadcastToRoom. destruct (rooms h !! R) as [clients|].
  - intros Hrun. apply bind_Ok_inv in Hrun as (h1 & Hrun & [= <-]).
    eapply within_trans; [by eapply range_clients_within|apply within_add_log].
  - intros [= <-]. apply within_refl.
Qed.

Lemma within_persist h m o : within h (persist h m o).
Proof.
  apply within_rooms.
  - pose proof (persist_view h m o) as Hv. unfold view in Hv. congruence.
  - intros R. unfold room_set.
    pose proof (persist_view h m o) as Hv. unfold view in Hv.
    injection Hv as -> _. done.
Qed.

Lemma handleBroadcast_within h m o h' :
  handleBroadcast h m o = Ok h' → within h h'.
Proof.
  intros Hrun. eapply within_trans; [apply within_persist|].
  by eapply broadcastToRoom_within.
Qed.

(** After the first half of registerClient the room has gained the
    client, and nothing else changed. *)
Lemma registerClient_Ok_inv h c h' :
  registerClient h c = Ok h' →
  ∃ cl, heap h !! c = Some cl
    ∧ within (add_to_room (roomID cl) c h) h'.
Proof.
  unfold registerClient. destruct (heap h !! c) as [cl|]; [|done].
  intros Hrun. exists cl. split; [done|].
  eapply within_trans; [|by eapply broadcastToRoom_within].
  apply within_add_log.
Qed.

Lemma unregisterClient_within h c h' :
  unregisterClient h c = Ok h' → within h h' ∧ ∃ cl, heap h !! c = Some cl
    ∧ c ∉ room_set h' (roomID cl).
Proof.
  unfold unregisterClient. destruct (heap h !! c) as [cl|] eqn:Hcl; [|done].
  destruct (rooms h !! roomID cl) as [clients|] eqn:HR.
  2:{ intros [= <-]. split; [apply within_refl|]. exists cl. split; [done|].
      unfold room_set. rewrite HR. set_solver. }
  destruct (decide (c ∈ clients)) as [Hin|Hnin].
  2:{ intros [= <-]. split; [apply within_refl|]. exists cl. split; [done|].
      unfold room_set. by rewrite HR. }
  unfold chan_close. destruct (closed (send cl)) eqn:Hopen; [done|].
  rewrite bind_Ok. intros Hrun. apply broadcastToRoom_within in Hrun.
  set (cl' := with_send _ cl) in Hrun.
  set (h1 := set_rooms (<[roomID cl := clients ∖ {[c]}]>) h) in Hrun.
  assert (H1 : within h h1).
  { apply within_rooms; [done|]. intros R. unfold room_set. simpl.
    destruct (decide (R = roomID cl)) as [->|Hne].
    - rewrite lookup_insert_eq, HR. simpl. set_solver.
    - by rewrite lookup_insert_ne. }
  assert (Hc1 : c ∉ room_set h1 (roomID cl)).
  { unfold room_set. simpl. rewrite lookup_insert_eq. simpl. set_solver. }
  set (h3 := add_log _ (set_client c cl' h1)) in Hrun.
  assert (H3 : within h h3 ∧ c ∉ room_set h3 (roomID cl)).
  { split; [|done]. apply (within_trans h h1); [exact H1|].
    apply (within_trans h1 (set_client c cl' h1)); [|apply within_add_log].
    apply (within_set_client h1 c cl cl'); [done..|]. simpl. eauto. }
  destruct H3 as [H3 Hc3].
  set (h4 := if decide _ then _ else h3) in Hrun.
  assert (H4 : within h3 h4 ∧ c ∉ room_set h4 (roomID cl)).
  { subst h4. case_decide; [|split; [apply within_refl|done]]. split.
    - eapply within_trans; [|apply within_add_log].
      apply within_rooms; [done|]. intros R. unfold room_set. simpl.
      destruct (decide (R = roomID cl)) as [->|Hne].
      + rewrite lookup_delete_eq. set_solver.
      + by rewrite lookup_delete_ne.
    - unfold room_set. simpl. rewrite lookup_delete_eq. set_solver. }
  destruct H4 as [H4 Hc4]. split.
  - eapply within_trans; [exact H3|]. eapply within_trans; [exact H4|exact Hrun].
  - exists cl. split; [done|]. destruct Hrun as (_ & _ & Hsub & _).
    intros Hc. apply Hc4. by apply Hsub.
Qed.

Lemma serve_length h r h' : serve h r = Ok h' → length (heap h') = length (heap h).
Proof.
  destruct r as [c|c|m o]; simpl; intros Hrun.
  - apply registerClient_Ok_inv in Hrun as (cl & _ & (Hl & _)).
    by rewrite Hl, add_to_room_heap.
  - by apply unregisterClient_within in Hrun as [(Hl & _) _].
  - by apply handleBroadcast_within in Hrun as (Hl & _).
Qed.

(** *** The loop *)

Lemma step_inv regd h e :
  hub_inv regd h → scoped (length (heap h)) [e] →
  (∀ c, c ∈ registrations [e] → c ∉ regd) →
  ∃ h', step h e = Ok h'
    ∧ hub_inv (list_to_set (registrations [e]) ∪ regd) h'
    ∧ length (heap h') =
        match e with NewClient _ _ _ => S (length (heap h)) | _ => length (heap h) end.
Proof.
  intros Hinv Hsc Hfresh. destruct e as [[c|c|m o]|u n r|c]; simpl in *.
  - destruct Hsc as [Hlt _].
    destruct (lookup_lt_is_Some_2 _ _ Hlt) as [cl Hcl].
    assert (closed (send cl) = false) as Hopen.
    { destruct Hinv as (_ & _ & Hf). apply (Hf c cl Hcl). apply Hfresh. set_solver. }
    destruct (registerClient_inv regd h c cl Hinv Hcl Hopen) as (h' & Hrun & Hinv').
    exists h'. split_and!; [done| |by apply (serve_length h (Register c))].
    eapply hub_inv_mono; [|exact Hinv']. set_solver.
  - destruct Hsc as [Hlt _].
    destruct (unregisterClient_inv regd h c Hinv) as (h' & Hrun & Hinv').
    { by apply lookup_lt_is_Some_2. }
    exists h'. split_and!; [done| |by apply (serve_length h (Unregister c))].
    eapply hub_inv_mono; [|exact Hinv']. set_solver.
  - destruct (handleBroadcast_inv regd h m o Hinv) as (h' & Hrun & Hinv').
    exists h'. split_and!; [done| |by apply (serve_length h (Broadcast m o))].
    eapply hub_inv_mono; [|exact Hinv']. set_solver.
  - eexists. split_and!; [done| |].
    + eapply hub_inv_mono; [|by apply newClient_inv]. set_solver.
    + simpl. rewrite length_app. simpl. lia.
  - destruct (heap h !! c) as [cl|] eqn:Hcl.
    + eexists. split_and!; [done| |].
      * eapply hub_inv_mono; [|by apply writerRecv_inv]. set_solver.
      * simpl. apply length_insert.
    + exists h. split_and!; [done| |done].
      eapply hub_inv_mono; [|exact Hinv]. set_solver.
Qed.

Lemma scoped_cons n e rest :
  scoped n (e :: rest) ↔
  scoped n [e] ∧ scoped (match e with NewClient _ _ _ => S n | _ => n end) rest.
Proof. destruct e as [[c|c|m o]|u nm r|c]; simpl; tauto. Qed.

Lemma registrations_cons e rest :
  registrations (e :: rest) = registrations [e] ++ registrations rest.
Proof. unfold registrations. simpl. by destruct e as [[c|c|m o]|u nm r|c]. Qed.

Lemma run_inv events : ∀ h regd,
  hub_inv regd h → scoped (length (heap h)) events →
  NoDup (registrations events) →
  (∀ c, c ∈ registrations events → c ∉ regd) →
  ∃ h', run h events = Ok h'
    ∧ hub_inv (list_to_set (registrations events) ∪ regd) h'.
Proof.
  induction events as [|e rest IH]; intros h regd Hinv Hsc Hnd Hfresh.
  - exists h. split; [done|]. eapply hub_inv_mono; [|exact Hinv]. set_solver.
  - apply scoped_cons in Hsc as [Hsc1 Hsc2].
    rewrite (registrations_cons e rest) in Hnd, Hfresh.
    apply NoDup_app in Hnd as (Hnd1 & Hdisj & Hnd2).
    destruct (step_inv regd h e Hinv Hsc1) as (h1 & Hstep & Hinv1 & Hlen).
    { intros c Hc. apply Hfresh. set_solver. }
    destruct (IH h1 (list_to_set (registrations [e]) ∪ regd) Hinv1)
      as (h' & Hrun & Hinv'); [by rewrite Hlen|done| |].
    { intros c Hc. apply not_elem_of_union. split.
      - rewrite elem_of_list_to_set. intros Hc1. by apply (Hdisj c).
      - apply Hfresh. set_solver. }
    exists h'. split.
    + simpl. by rewrite Hstep, bind_Ok.
    + eapply hub_inv_mono; [|exact Hinv'].
      rewrite (registrations_cons e rest), list_to_set_app_L.
      generalize (registrations [e]) (registrations rest). clear. intros l1 l2.
      set_solver.
Qed.

Lemma hub_inv_start db regd : hub_inv regd (add_log LogHubStarted (NewHub db)).
Proof.
  assert (Hr : rooms (add_log LogHubStarted (NewHub db)) = ∅) by done.
  assert (Hh : heap (add_log LogHubStarted (NewHub db)) = []) by done.
  split; [split|split].
  - intros R S c. by rewrite Hr, lookup_empty.
  - intros c cl. by rewrite Hh, lookup_nil.
  - intros R S c. by rewrite Hr, lookup_empty.
  - intros c cl. by rewrite Hh, lookup_nil.
Qed.

Lemma wf_hub_inv h : wf h → hub_inv (list_to_set (seq 0 (length (heap h)))) h.
Proof.
  intros [Hm Hq]. split; [done|]. split.
  - intros R S c HS Hc. destruct (Hm R S c HS Hc) as (cl & Hcl & _).
    apply elem_of_list_to_set, elem_of_seq. apply lookup_lt_Some in Hcl. lia.
  - intros c cl Hcl Hn. exfalso. apply Hn.
    apply elem_of_list_to_set, elem_of_seq. apply lookup_lt_Some in Hcl. lia.
Qed.

(** C9. Under the precondition that every connection is registered at
    most once (and that requests name clients the handler has built),
    the hub loop never panics, whatever the sequence of Register,
    Unregister and Broadcast requests, of allocations and of receptions
    by the writers: no [send] channel is closed twice (that panics with
    close of closed channel) and no frame is sent on a closed channel
    (that panics with send on closed channel). In the state reached,
    every member of every room still has an open channel. *)
Theorem hub_loop_never_panics db events :
  scoped 0 events → NoDup (registrations events) →
  ∃ h, Run db events = Ok h ∧ members_open h.
Proof.
  intros Hsc Hnd.
  destruct (run_inv events (add_log LogHubStarted (NewHub db)) ∅) as (h & Hrun & Hinv).
  - apply hub_inv_start.
  - done.
  - done.
  - set_solver.
  - exists h. split; [done|]. by destruct Hinv as ([Hm _] & _).
Qed.

(** *** What a fan-out does to each member *)

Lemma wf_view h1 h2 : view h1 = view h2 → wf h1 → wf h2.
Proof.
  unfold view. intros [= Hr Hh] [Hm Hq].
  unfold wf, members_open, queues_bounded. by rewrite <- Hr, <- Hh.
Qed.

Lemma fanout_members h R m (clients : gset ptr) :
  wf h → rooms h !! R = Some clients →
  ∃ h', broadcastToRoom h R m = Ok h' ∧ wf h'
    ∧ room_set h' R ⊆ clients
    ∧ (∀ c, c ∈ clients →
         ∃ cl, heap h !! c = Some cl ∧ roomID cl = R ∧ closed (send cl) = false
           ∧ served R (marshal m) h' c cl)
    ∧ (∀ c, c ∉ clients → heap h' !! c = heap h !! c).
Proof.
  intros Hwf HR. pose proof Hwf as [Hm Hq].
  destruct (broadcastToRoom_spec h R m clients Hm HR)
    as (h' & Hrun & Hh & HR1 & HR' & _).
  exists h'. split; [done|]. split_and!.
  - destruct (broadcastToRoom_inv _ h R m (wf_hub_inv h Hwf)) as (h'' & Hrun' & Hinv).
    assert (h'' = h') as -> by congruence. by destruct Hinv.
  - unfold room_set. rewrite HR1. simpl. set_solver.
  - intros c Hc. destruct (Hm R clients c HR Hc) as (cl & Hcl & Hroom & Hopen).
    exists cl. split_and!; [done..|].
    destruct (Hq c cl Hcl) as [Hcap Hlen].
    unfold served, room_set. rewrite HR1, Hh, Hcl.
    rewrite (decide_True (P:=c ∈ clients)) by done. simpl.
    case_decide as Hfull.
    + split.
      * intros Hin. apply elem_of_difference in Hin as [_ Hne]. apply Hne.
        apply elem_of_evicted_elements. split; [done|].
        unfold full_at, is_full. rewrite Hcl. apply bool_decide_eq_true. lia.
      * rewrite after_send_full, Hcap; [done|]. unfold is_full.
        apply bool_decide_eq_true. lia.
    + assert (is_full (send cl) = false) as Hnf.
      { unfold is_full. apply bool_decide_eq_false. lia. }
      split.
      * apply elem_of_difference. split; [done|].
        rewrite elem_of_evicted_elements. unfold full_at. rewrite Hcl, Hnf.
        by intros [_ ?].
      * by rewrite after_send_room, Hcap.
  - intros c Hc. rewrite Hh. by rewrite decide_False.
Qed.

(** C2. A Broadcast on a hub whose members are live (as they are in
    every state the loop reaches) returns, and has dealt with every
    member of the room on its own: a member with 256 frames queued (the
    capacity the handler gives every queue) is removed from the room's
    set and its queue is closed; every other member is still in the set
    and has the frame of this very message queued last. *)
Theorem broadcast_backpressure h m o (clients : gset ptr) :
  wf h → rooms h !! RoomID m = Some clients →
  ∃ h', handleBroadcast h m o = Ok h'
    ∧ ∀ c, c ∈ clients →
        ∃ cl, heap h !! c = Some cl ∧ cap (send cl) = 256%nat
          ∧ served (RoomID m) (marshal m) h' c cl.
Proof.
  intros Hwf HR. unfold handleBroadcast.
  pose proof (persist_view h m o) as Hv.
  assert (Hwf' : wf (persist h m o)) by (eapply wf_view; [symmetry; exact Hv|done]).
  unfold view in Hv. injection Hv as Hr Hh.
  destruct (fanout_members (persist h m o) (RoomID m) m clients Hwf')
    as (h' & Hrun & _ & _ & Hserved & _); [by rewrite Hr|].
  exists h'. split; [done|]. intros c Hc.
  destruct (Hserved c Hc) as (cl & Hcl & _ & _ & Hs). rewrite Hh in Hcl.
  exists cl. split_and!; [done| |done]. destruct Hwf as [_ Hq]. by apply (Hq c cl).
Qed.

(** *** The fan-out and the store do not see each other *)

Lemma deliver_view R f h1 h2 c :
  view h1 = view h2 →
  result_view (deliver R f h1 c) = result_view (deliver R f h2 c)
  ∧ ∀ h1' h2', deliver R f h1 c = Ok h1' → deliver R f h2 c = Ok h2' →
      view h1' = view h2'.
Proof.
  destruct h1 as [r1 hp1 d1 c1 l1], h2 as [r2 hp2 d2 c2 l2].
  unfold view. simpl. intros [= -> ->]. unfold deliver. simpl.
  destruct (hp2 !! c) as [cl|]; [|done].
  unfold try_send, chan_close. destruct (closed (send cl)); [done|].
  destruct (is_full (send cl)); simpl.
  - split; [done|]. by intros ?? [= <-] [= <-].
  - split; [done|]. by intros ?? [= <-] [= <-].
Qed.

Lemma range_clients_view R f cs : ∀ h1 h2,
  view h1 = view h2 →
  result_view (range_clients R f cs h1) = result_view (range_clients R f cs h2).
Proof.
  induction cs as [|c cs IH]; intros h1 h2 Hv; simpl.
  - unfold result_view. simpl. by rewrite Hv.
  - destruct (deliver_view R f h1 h2 c Hv) as [Hd Hok].
    destruct (deliver R f h1 c) as [h1'|p1], (deliver R f h2 c) as [h2'|p2];
      try discriminate; simpl.
    + apply IH. by apply Hok.
    + done.
Qed.

Lemma broadcastToRoom_view h1 h2 R m :
  view h1 = view h2 →
  result_view (broadcastToRoom h1 R m) = result_view (broadcastToRoom h2 R m).
Proof.
  intros Hv. unfold broadcastToRoom.
  assert (rooms h1 = rooms h2) as Hr by (unfold view in Hv; congruence).
  rewrite Hr. destruct (rooms h2 !! R) as [clients|].
  - pose proof (range_clients_view R (marshal m) (elements clients) h1 h2 Hv) as Hrc.
    destruct (range_clients R (marshal m) (elements clients) h1) as [h1'|p1],
             (range_clients R (marshal m) (elements clients) h2) as [h2'|p2];
      try discriminate; [|done].
    unfold result_view, view in *. simpl in *. injection Hrc as Hr' Hh'.
    by rewrite Hr', Hh'.
  - unfold result_view. simpl. by rewrite Hv.
Qed.

Lemma store_kept_trans h0 h1 h2 : store_kept h0 h1 → store_kept h1 h2 → store_kept h0 h2.
Proof.
  intros (Hd1 & Hc1 & m1 & Hl1) (Hd2 & Hc2 & m2 & Hl2). unfold store_kept.
  split_and!; [congruence..|]. exists (m1 ++ m2). by rewrite Hl2, Hl1, app_assoc.
Qed.

Lemma deliver_store R f h c h1 : deliver R f h c = Ok h1 → store_kept h h1.
Proof.
  unfold deliver. destruct (heap h !! c) as [cl|]; [|done].
  unfold try_send, chan_close. destruct (closed (send cl)); [done|].
  destruct (is_full (send cl)); simpl; intros [= <-]; unfold store_kept; simpl.
  - split_and!; [done..|]. by eexists.
  - split_and!; [done..|]. exists []. by rewrite app_nil_r.
Qed.

Lemma range_clients_store R f cs : ∀ h h',
  range_clients R f cs h = Ok h' → store_kept h h'.
Proof.
  induction cs as [|c cs IH]; simpl; intros h h' Hrun.
  - injection Hrun as <-. unfold store_kept. split_and!; [done..|].
    exists []. by rewrite app_nil_r.
  - apply bind_Ok_inv in Hrun as (h1 & Hd & Hrun).
    eapply store_kept_trans; [by eapply deliver_store|by apply IH].
Qed.

Lemma broadcastToRoom_store h R m h' :
  broadcastToRoom h R m = Ok h' → store_kept h h'.
Proof.
  unfold broadcastToRoom. destruct (rooms h !! R) as [clients|].
  - intros Hrun. apply bind_Ok_inv in Hrun as (h1 & Hrun & [= <-]).
    eapply store_kept_trans; [by eapply range_clients_store|].
    unfold store_kept. simpl. split_and!; [done..|]. by eexists.
  - intros [= <-]. unfold store_kept. split_and!; [done..|].
    exists []. by rewrite app_nil_r.
Qed.

(** C3. handleBroadcast asks the store to persist exactly the messages
    of type "message", once, under a context of 5 seconds whose parent
    is context.Background() (no caller's deadline); whatever the store
    answers, the fan-out sees the same registry and clients and does to
    them what a bare fan-out does; when the store fails, the error is
    logged, nothing is stored, and every member of the room is still
    served. *)
Theorem persistence_best_effort h m o :
  Store.parent persistCtx = Store.Background
  ∧ Store.timeout_seconds persistCtx = Some 5
  ∧ result_view (handleBroadcast h m o) = result_view (broadcastToRoom h (RoomID m) m)
  ∧ (∀ h', handleBroadcast h m o = Ok h' →
       creates h' = creates h
                      ++ (if decide (Type_ m = "message")
                          then [(persistCtx, dbMessage m)] else [])
       ∧ (Type_ m ≠ "message" → db h' = db h)
       ∧ (∀ e, Type_ m = "message" → o = Store.InsertFailed e →
            db h' = db h ∧ LogSaveFailed e ∈ log h'))
  ∧ (∀ e (clients : gset ptr),
       o = Store.InsertFailed e → wf h → rooms h !! RoomID m = Some clients →
       ∃ h', handleBroadcast h m o = Ok h'
         ∧ ∀ c, c ∈ clients →
             ∃ cl, heap h !! c = Some cl ∧ served (RoomID m) (marshal m) h' c cl).
Proof.
  split; [done|]. split; [done|]. split; [|split].
  - apply broadcastToRoom_view, persist_view.
  - intros h' Hrun. unfold handleBroadcast in Hrun.
    apply broadcastToRoom_store in Hrun as (Hdb & Hcr & more & Hlog).
    rewrite Hdb, Hcr. unfold persist in *. case_decide as Hty.
    + split_and!.
      * by destruct o.
      * done.
      * intros e _ ->. simpl in *. split; [done|].
        rewrite Hlog. set_solver.
    + split_and!; [by rewrite app_nil_r|done|done].
  - intros e clients -> Hwf HR.
    pose proof (persist_view h m (Store.InsertFailed e)) as Hv.
    assert (Hwf' : wf (persist h m (Store.InsertFailed e)))
      by (eapply wf_view; [symmetry; exact Hv|done]).
    unfold view in Hv. injection Hv as Hr Hh.
    destruct (fanout_members _ (RoomID m) m clients Hwf')
      as (h' & Hrun & _ & _ & Hserved & _); [by rewrite Hr|].
    exists h'. split; [done|]. intros c Hc.
    destruct (Hserved c Hc) as (cl & Hcl & _ & _ & Hs). rewrite Hh in Hcl. eauto.
Qed.

(** C5, as the code has it. Registering a client [c] whose queue is
    open, on a hub whose members are live, returns; [c] is put in its
    room's set (the set is created when the room has none), and the
    message of type "join" carrying [c]'s user id and name, with content
    "<name> joined the room", is offered to every connection then in the
    room, [c] included: each one with room in its queue has it queued
    last and stays; each one with 256 frames queued is evicted and its
    queue closed, and gets no join frame. *)
Theorem register_effect h c cl :
  wf h → heap h !! c = Some cl → closed (send cl) = false →
  ∃ h', registerClient h c = Ok h'
    ∧ room_set h' (roomID cl) ⊆ {[c]} ∪ room_set h (roomID cl)
    ∧ ∀ x, x ∈ ({[c]} ∪ room_set h (roomID cl) : gset ptr) →
        ∃ clx, heap h !! x = Some clx
          ∧ served (roomID cl)
              (marshal (mkMessage (roomID cl) (userID cl) (username cl)
                          (username cl +:+ " joined the room") "join"))
              h' x clx.
Proof.
  intros Hwf Hcl Hopen. unfold registerClient. rewrite Hcl.
  set (h1 := add_to_room (roomID cl) c h).
  set (h2 := add_log _ h1).
  assert (Hwf2 : wf h2).
  { apply (wf_view h1); [done|].
    by destruct (add_to_room_inv _ h c cl (wf_hub_inv h Hwf) Hcl Hopen). }
  destruct (fanout_members h2 (roomID cl) (joinMessage cl)
              ({[c]} ∪ room_set h (roomID cl)) Hwf2)
    as (h' & Hrun & _ & Hsub & Hserved & _).
  { subst h2 h1. simpl. apply add_to_room_lookup. }
  exists h'. split; [done|]. split; [done|]. intros x Hx.
  destruct (Hserved x Hx) as (clx & Hclx & _ & _ & Hs).
  exists clx. split; [|done].
  assert (heap h2 = heap h) as Hheap2 by apply add_to_room_heap.
  by rewrite Hheap2 in Hclx.
Qed.

(** The state unregisterClient reaches before it fans out the leave
    message is well formed, the client being a member. *)
Lemma unregister_state_wf h c cl (clients : gset ptr) h4 :
  wf h → heap h !! c = Some cl → rooms h !! roomID cl = Some clients → c ∈ clients →
  rooms h4 = (if decide (clients ∖ {[c]} = ∅)
              then delete (roomID cl) (rooms h)
              else <[roomID cl := clients ∖ {[c]}]> (rooms h)) →
  heap h4 = <[c := with_send (mkChan (buf (send cl)) (cap (send cl)) true) cl]> (heap h) →
  wf h4.
Proof.
  intros [Hm Hq] Hcl HR Hin Hr4 Hh4.
  assert (Hlt : (c < length (heap h))%nat) by (by eapply lookup_lt_Some).
  assert (Hsub : ∀ R (S : gset ptr) x, rooms h4 !! R = Some S → x ∈ S →
            x ≠ c ∧ ∃ S0 : gset ptr, rooms h !! R = Some S0 ∧ x ∈ S0).
  { intros R S x. rewrite Hr4. intros HS Hx.
    destruct (decide (R = roomID cl)) as [->|Hne].
    - case_decide.
      + by rewrite lookup_delete_eq in HS.
      + rewrite lookup_insert_eq in HS. injection HS as <-.
        split; [set_solver|]. exists clients. split; [done|set_solver].
    - assert (rooms h !! R = Some S) as HS0.
      { case_decide; [by rewrite lookup_delete_ne in HS
                     |by rewrite lookup_insert_ne in HS]. }
      split; [|eauto]. intros ->.
      destruct (Hm _ _ _ HS0 Hx) as (cl' & Hcl'' & Hroom & _). congruence. }
  split.
  - intros R S x HS Hx. destruct (Hsub R S x HS Hx) as (Hne & S0 & HS0 & Hx0).
    rewrite Hh4, list_lookup_insert_ne by done. eauto.
  - intros x clx. rewrite Hh4. intros Hx.
    destruct (decide (x = c)) as [->|Hne].
    + rewrite list_lookup_insert_eq in Hx by done. injection Hx as <-. simpl.
      by apply Hq in Hcl.
    + rewrite list_lookup_insert_ne in Hx by done. eauto.
Qed.

(** What unregisterClient does on a well-formed hub to a member and to
    the members that stay. *)
Lemma unregisterClient_served h c cl (clients : gset ptr) :
  wf h → heap h !! c = Some cl → rooms h !! roomID cl = Some clients → c ∈ clients →
  ∃ h', unregisterClient h c = Ok h' ∧ wf h'
    ∧ room_set h' (roomID cl) ⊆ clients ∖ {[c]}
    ∧ heap h' !! c
      = Some (with_send (mkChan (buf (send cl)) (cap (send cl)) true) cl)
    ∧ (clients ∖ {[c]} = ∅ → rooms h' !! roomID cl = None)
    ∧ (∀ R, R ≠ roomID cl → rooms h' !! R = rooms h !! R)
    ∧ ∀ x, x ∈ clients ∖ {[c]} →
        ∃ clx, heap h !! x = Some clx
          ∧ served (roomID cl) (marshal (leaveMessage cl)) h' x clx.
Proof.
  intros Hwf Hcl HR Hin. pose proof Hwf as [Hm Hq].
  destruct (Hm _ _ _ HR Hin) as (cl0 & Hcl0 & _ & Hopen).
  assert (cl0 = cl) as -> by congruence.
  assert (Hlt : (c < length (heap h))%nat) by (by eapply lookup_lt_Some).
  destruct (unregisterClient_member h c cl clients Hcl HR Hin Hopen)
    as (h4 & Hrun & Hr4 & Hh4 & _).
  pose proof (unregister_state_wf h c cl clients h4 Hwf Hcl HR Hin Hr4 Hh4) as Hwf4.
  assert (Hc4 : heap h4 !! c
            = Some (with_send (mkChan (buf (send cl)) (cap (send cl)) true) cl))
    by (by rewrite Hh4, list_lookup_insert_eq).
  rewrite Hrun. destruct (decide (clients ∖ {[c]} = ∅)) as [Hempty|Hsome].
  - assert (HR4 : rooms h4 !! roomID cl = None) by (by rewrite Hr4, lookup_delete_eq).
    exists h4. rewrite broadcastToRoom_absent by done.
    split; [done|]. split; [done|]. split.
    { unfold room_set. rewrite HR4. simpl. set_solver. }
    split; [done|]. split; [done|]. split.
    + intros R HRne. by rewrite Hr4, lookup_delete_ne.
    + intros x Hx. rewrite Hempty in Hx. by apply elem_of_empty in Hx.
  - assert (HR4 : rooms h4 !! roomID cl = Some (clients ∖ {[c]}))
      by (by rewrite Hr4, lookup_insert_eq).
    destruct (fanout_members h4 (roomID cl) (leaveMessage cl) _ Hwf4 HR4)
      as (h' & Hrun' & Hwf' & Hsub & Hserved & Hother).
    destruct (broadcastToRoom_spec h4 (roomID cl) (leaveMessage cl) _ (proj1 Hwf4) HR4)
      as (h'' & Hrun'' & _ & _ & Hrooms & _).
    assert (h'' = h') as -> by congruence.
    exists h'. split; [done|]. split; [done|]. split; [done|]. split.
    { rewrite Hother by set_solver. done. }
    split; [done|]. split.
    + intros R HRne. rewrite Hrooms by done. by rewrite Hr4, lookup_insert_ne.
    + intros x Hx. destruct (Hserved x Hx) as (clx & Hclx & _ & _ & Hs).
      exists clx. split; [|done].
      rewrite Hh4, list_lookup_insert_ne in Hclx by set_solver. done.
Qed.

(** C6. For an allocated client [c]: when [c] is not in its room's set,
    unregisterClient returns the very state it was given (registry,
    queues, database and log untouched, nothing closed), so a second
    Unregister after a first changes nothing; when [c] is in the set,
    with its queue open, unregisterClient takes [c] out of the set,
    closes its queue, deletes the room's entry when the set has become
    empty, and only then fans out the message of type "leave" to the
    room as it is left. On a well-formed hub this returns, and every
    member that stays is served the leave frame: it has it queued last,
    or, with 256 frames queued, is evicted and closed; [c] itself gets
    no leave frame, and the other rooms are as they were. *)
Theorem unregister_idempotent h c cl :
  heap h !! c = Some cl →
  (c ∉ room_set h (roomID cl) → unregisterClient h c = Ok h)
  ∧ (unregisterClient h c ≫= (λ h', unregisterClient h' c)) = unregisterClient h c
  ∧ (∀ clients : gset ptr,
       rooms h !! roomID cl = Some clients → c ∈ clients → closed (send cl) = false →
       ∃ h4, unregisterClient h c
             = broadcastToRoom h4 (roomID cl)
                 (mkMessage (roomID cl) (userID cl) (username cl)
                    (username cl +:+ " left the room") "leave")
         ∧ rooms h4 = (if decide (clients ∖ {[c]} = ∅)
                       then delete (roomID cl) (rooms h)
                       else <[roomID cl := clients ∖ {[c]}]> (rooms h))
         ∧ heap h4 = <[c := with_send (mkChan (buf (send cl)) (cap (send cl)) true) cl]>
                       (heap h))
  ∧ (∀ clients : gset ptr,
       wf h → rooms h !! roomID cl = Some clients → c ∈ clients →
       ∃ h', unregisterClient h c = Ok h'
         ∧ room_set h' (roomID cl) ⊆ clients ∖ {[c]}
         ∧ heap h' !! c
           = Some (with_send (mkChan (buf (send cl)) (cap (send cl)) true) cl)
         ∧ (clients ∖ {[c]} = ∅ → rooms h' !! roomID cl = None)
         ∧ (∀ R, R ≠ roomID cl → rooms h' !! R = rooms h !! R)
         ∧ ∀ x, x ∈ clients ∖ {[c]} →
             ∃ clx, heap h !! x = Some clx
               ∧ served (roomID cl)
                   (marshal (mkMessage (roomID cl) (userID cl) (username cl)
                               (username cl +:+ " left the room") "leave"))
                   h' x clx).
Proof.
  intros Hcl. split; [|split; [|split]].
  - by apply unregisterClient_absent.
  - destruct (unregisterClient h c) as [h'|p] eqn:Hrun; [|done].
    rewrite bind_Ok.
    apply unregisterClient_within in Hrun as [(_ & Hroom & _) (cl0 & Hcl0 & Hout)].
    assert (cl0 = cl) as -> by congruence.
    specialize (Hroom c). rewrite Hcl in Hroom.
    destruct (heap h' !! c) as [cl'|] eqn:Hcl'; [|discriminate].
    injection Hroom as Hroom.
    apply (unregisterClient_absent h' c cl'); [done|]. by rewrite Hroom.
  - intros clients HR Hin Hopen.
    destruct (unregisterClient_member h c cl clients Hcl HR Hin Hopen)
      as (h4 & Hrun & Hr4 & Hh4 & _).
    exists h4. by split_and!.
  - intros clients Hwf HR Hin.
    destruct (unregisterClient_served h c cl clients Hwf Hcl HR Hin)
      as (h' & Hrun & _ & Hsub & Hc & Hdel & Hother & Hserved).
    exists h'. by split_and!.
Qed.

Lemma add_to_room_member h R c (clients : gset ptr) :
  rooms h !! R = Some clients → c ∈ clients → add_to_room R c h = h.
Proof.
  intros HR Hin. destruct h as [r hp d cr l]. unfold add_to_room. simpl in *.
  rewrite HR. unfold set_rooms. simpl. f_equal.
  apply map_eq. intros R'. destruct (decide (R' = R)) as [->|Hne].
  - rewrite lookup_alter_eq, HR. simpl. f_equal. set_solver.
  - by rewrite lookup_alter_ne.
Qed.

(** C10, as the code has it. Registering a client [c] that is already
    in its room's set adds no member (inserting a member of a set into
    it changes nothing), and still logs and fans out one more message of
    type "join" to the room. On a well-formed hub this returns; every
    member with room in its queue, [c] included, has one more join
    frame queued and stays; every member with 256 frames queued, [c]
    included, is evicted and its queue closed. So the set afterwards is
    the set of the members whose queue was not full: it is unchanged
    exactly when no member's queue was full. The other rooms are as
    they were. *)
Theorem register_again h c cl (clients : gset ptr) :
  heap h !! c = Some cl → rooms h !! roomID cl = Some clients → c ∈ clients →
  rooms (add_to_room (roomID cl) c h) = rooms h
  ∧ registerClient h c
    = broadcastToRoom
        (add_log (LogClientRegistered (userID cl) (roomID cl) (size clients)) h)
        (roomID cl)
        (mkMessage (roomID cl) (userID cl) (username cl)
           (username cl +:+ " joined the room") "join")
  ∧ (wf h →
     ∃ h', registerClient h c = Ok h'
       ∧ room_set h' (roomID cl) ⊆ clients
       ∧ (∀ x, x ∈ clients →
           ∃ clx, heap h !! x = Some clx
             ∧ served (roomID cl) (marshal (joinMessage cl)) h' x clx)
       ∧ (∀ x, x ∈ room_set h' (roomID cl)
               ↔ x ∈ clients
                 ∧ ∃ clx, heap h !! x = Some clx
                     ∧ length (buf (send clx)) ≠ 256%nat)
       ∧ ((∀ x clx, x ∈ clients → heap h !! x = Some clx →
             length (buf (send clx)) ≠ 256%nat) →
          room_set h' (roomID cl) = clients)
       ∧ (∀ R, R ≠ roomID cl → rooms h' !! R = rooms h !! R)).
Proof.
  intros Hcl HR Hin.
  pose proof (add_to_room_member h (roomID cl) c clients HR Hin) as Hadd.
  assert (Hreg : registerClient h c
            = broadcastToRoom
                (add_log (LogClientRegistered (userID cl) (roomID cl) (size clients)) h)
                (roomID cl) (joinMessage cl)).
  { unfold registerClient. rewrite Hcl, Hadd. unfold room_set. by rewrite HR. }
  split; [by rewrite Hadd|]. split; [exact Hreg|].
  intros Hwf. rewrite Hreg.
  set (h1 := add_log (LogClientRegistered (userID cl) (roomID cl) (size clients)) h).
  assert (Hwf1 : wf h1) by (by apply (wf_view h)).
  destruct (fanout_members h1 (roomID cl) (joinMessage cl) clients Hwf1 HR)
    as (h' & Hrun & _ & Hsub & Hserved & _).
  destruct (broadcastToRoom_spec h1 (roomID cl) (joinMessage cl) clients (proj1 Hwf1) HR)
    as (h'' & Hrun' & _ & _ & Hother & _).
  assert (h'' = h') as -> by congruence.
  assert (Hs : ∀ x, x ∈ clients →
            ∃ clx, heap h !! x = Some clx
              ∧ served (roomID cl) (marshal (joinMessage cl)) h' x clx).
  { intros x Hx. destruct (Hserved x Hx) as (clx & Hclx & _ & _ & Hsx). eauto. }
  assert (Hiff : ∀ x, x ∈ room_set h' (roomID cl)
            ↔ x ∈ clients
              ∧ ∃ clx, heap h !! x = Some clx ∧ length (buf (send clx)) ≠ 256%nat).
  { intros x. split.
    - intros Hx. pose proof (Hsub x Hx) as Hxc. split; [done|].
      destruct (Hs x Hxc) as (clx & Hclx & Hsx). exists clx. split; [done|].
      unfold served in Hsx. case_decide; [by destruct Hsx|done].
    - intros (Hxc & clx & Hclx & Hlen).
      destruct (Hs x Hxc) as (clx' & Hclx' & Hsx).
      assert (clx' = clx) as -> by congruence.
      unfold served in Hsx. rewrite decide_False in Hsx by done. by destruct Hsx. }
  exists h'. split; [done|]. split; [done|]. split; [done|]. split; [done|]. split.
  - intros Hroom. apply set_eq. intros x. rewrite Hiff. split; [by intros [? _]|].
    intros Hx. split; [done|]. destruct (Hs x Hx) as (clx & Hclx & _). eauto.
  - done.
Qed.

(** *** Frames *)

Lemma frames_marshalled_heap h1 h2 :
  heap h1 = heap h2 → frames_marshalled h1 → frames_marshalled h2.
Proof. unfold frames_marshalled. by intros ->. Qed.

Lemma step_frames h e h' :
  frames_marshalled h → step h e = Ok h' → frames_marshalled h'.
Proof.
  intros Hfm. destruct e as [[c|c|m o]|u n r|c]; simpl.
  - intros Hrun. apply registerClient_Ok_inv in Hrun as (cl & _ & (_ & _ & _ & Hf)).
    apply Hf. eapply frames_marshalled_heap; [|exact Hfm].
    symmetry. apply add_to_room_heap.
  - intros Hrun. apply unregisterClient_within in Hrun as [(_ & _ & _ & Hf) _]. auto.
  - intros Hrun. apply handleBroadcast_within in Hrun as (_ & _ & _ & Hf). auto.
  - intros [= <-] x clx f. simpl. intros Hx Hfr.
    apply lookup_app_Some in Hx as [Hx|[_ Hx]]; [eauto|].
    apply list_lookup_singleton_Some in Hx as [_ <-]. simpl in Hfr. set_solver.
  - destruct (heap h !! c) as [cl|] eqn:Hcl; intros [= <-]; [|done].
    assert (Hlt : (c < length (heap h))%nat) by (by eapply lookup_lt_Some).
    intros x clx f. rewrite heap_set_client by done. case_decide; [|eauto].
    subst x. intros [= <-]. simpl. intros Hfr. apply (Hfm c cl f Hcl).
    destruct (buf (send cl)); simpl in *; set_solver.
Qed.

Lemma run_frames events : ∀ h h',
  frames_marshalled h → run h events = Ok h' → frames_marshalled h'.
Proof.
  induction events as [|e rest IH]; simpl; intros h h' Hfm Hrun.
  - by injection Hrun as <-.
  - apply bind_Ok_inv in Hrun as (h1 & Hstep & Hrun).
    eapply IH; [|exact Hrun]. by eapply step_frames.
Qed.

(** C4, as the code has it. Every frame the hub ever queues for a
    connection is the marshalled [websocket.Message]: a JSON object with
    exactly the fields room_id, user_id, username, content and type, and
    no created_at, whatever the type. The created_at field is on the
    records of the store ([store.Message]), which the history endpoint
    returns. *)
Theorem frames_carry_no_created_at :
  (∀ m, (marshal m).*1 = frame_fields
        ∧ Json.has_field "created_at" (marshal m) = false)
  ∧ (∀ r, Json.has_field "created_at" (Store.marshal r) = true)
  ∧ (∀ db events h c cl f,
       Run db events = Ok h → heap h !! c = Some cl → f ∈ buf (send cl) →
       ∃ m, f = marshal m).
Proof.
  split; [done|]. split; [done|].
  intros db events h c cl f Hrun Hcl Hf.
  apply (run_frames events _ h) in Hrun; [eauto|].
  intros x clx g Hx. change (([] : list Client) !! x = Some clx) in Hx.
  by rewrite lookup_nil in Hx.
Qed.

(** *** Concrete runs *)

Import Scenario.

Lemma Run_wf db events h :
  scoped 0 events → NoDup (registrations events) → Run db events = Ok h → wf h.
Proof.
  intros Hsc Hnd Hrun.
  destruct (run_inv events (add_log LogHubStarted (NewHub db)) ∅) as (h' & Hrun' & Hinv);
    [apply hub_inv_start|done|done|set_solver|].
  unfold Run in Hrun. assert (h' = h) as -> by congruence. by destruct Hinv.
Qed.

Lemma state_after_wf events :
  scoped 0 events → NoDup (registrations events) → wf (state_after events).
Proof.
  intros Hsc Hnd. unfold state_after.
  destruct (run_inv events (add_log LogHubStarted (NewHub someDB)) ∅)
    as (h & Hrun & Hinv); [apply hub_inv_start|done|done|set_solver|].
  unfold Run. rewrite Hrun. by destruct Hinv.
Qed.

Ltac by_computation := vm_compute; reflexivity.
Ltac decide_by_computation := apply (bool_decide_unpack _); vm_compute; exact I.

(** C1, at the input where the code departs from it. ann alone is in
    room 7 and never reads; the 256th chat message finds her queue full
    and evicts her. The room's set is now empty, and room 7 is still a
    key of the registry: the eviction branch of broadcastToRoom does not
    delete the entry, as unregisterClient does. *)
Theorem eviction_leaves_empty_room :
  ∃ h, Run someDB ann_evicted = Ok h
    ∧ rooms h !! 7 = Some ∅
    ∧ closed_of h 0 = true
    ∧ GetRoomClientCount h 7 = 0%nat
    ∧ ¬ registry_nonempty h.
Proof.
  eexists. split; [by_computation|].
  assert (Hroom : ∀ h : Hub, rooms h !! 7 = Some ∅ → ¬ registry_nonempty h).
  { intros h HR Hinv. destruct (Hinv 7) as [Hkey _].
    destruct Hkey as [c Hc]; [by rewrite HR|].
    unfold room_set in Hc. rewrite HR in Hc. by apply not_elem_of_empty in Hc. }
  split_and!; [by_computation..|]. apply Hroom. by_computation.
Qed.

(** C9, on a run: ann joins, talks, leaves, and her Unregister arrives
    twice. *)
Lemma hub_loop_never_panics_witness :
  let events := ann_joins ++ [Req (Broadcast hello timed_out);
                              Req (Unregister 0%nat); Req (Unregister 0%nat)] in
  scoped 0 events ∧ NoDup (registrations events)
  ∧ ∃ h, Run someDB events = Ok h ∧ members_open h.
Proof.
  intros events.
  assert (Hsc : scoped 0 events) by (vm_compute; lia).
  assert (Hnd : NoDup (registrations events)) by decide_by_computation.
  split; [exact Hsc|]. split; [exact Hnd|].
  exact (hub_loop_never_panics someDB events Hsc Hnd).
Defined.

(** Without the precondition of C9 the loop does panic: a client
    registered again after its Unregister is sent a frame on its closed
    channel. *)
Example register_after_unregister_panics :
  Run someDB (ann_joins ++ [Req (Unregister 0%nat); Req (Register 0%nat)])
  = Panicked SendOnClosedChannel.
Proof. by_computation. Qed.

Lemma wf_bob_arrives : wf (state_after bob_arrives).
Proof. apply state_after_wf; [vm_compute; lia|decide_by_computation]. Qed.

Lemma wf_slow_ann : wf (state_after slow_ann).
Proof. apply state_after_wf; [vm_compute; lia|decide_by_computation]. Qed.

Lemma room_slow_ann : rooms (state_after slow_ann) !! 7 = Some {[0%nat; 1%nat]}.
Proof. by_computation. Qed.

(** C2, on a run: a chat message arrives while ann's queue is full and
    bob's is empty. *)
Lemma broadcast_backpressure_witness :
  let h := state_after slow_ann in
  wf h ∧ rooms h !! RoomID hello = Some {[0%nat; 1%nat]}
  ∧ ∃ h', handleBroadcast h hello timed_out = Ok h'
      ∧ ∀ c, c ∈ ({[0%nat; 1%nat]} : gset nat) →
          ∃ cl, heap h !! c = Some cl ∧ cap (send cl) = 256%nat
            ∧ served (RoomID hello) (marshal hello) h' c cl.
Proof.
  intros h. split; [exact wf_slow_ann|]. split; [exact room_slow_ann|].
  exact (broadcast_backpressure h hello timed_out _ wf_slow_ann room_slow_ann).
Defined.

(** Scenario C of the specification, computed: ann is evicted and her
    queue closed, bob receives the message. *)
Example slow_ann_evicted_bob_served :
  ∃ h', handleBroadcast (state_after slow_ann) hello timed_out = Ok h'
    ∧ rooms h' !! 7 = Some {[1%nat]}
    ∧ closed_of h' 0 = true ∧ length (queue_of h' 0) = 256%nat
    ∧ queue_of h' 1 = [marshal hello] ∧ closed_of h' 1 = false.
Proof. eexists. split; [by_computation|]. split_and!; by_computation. Qed.

(** C3, on a run: the store times out on a chat message for the room of
    slow ann and bob. *)
Lemma persistence_best_effort_witness :
  let h := state_after slow_ann in
  ∃ h', handleBroadcast h hello timed_out = Ok h'
    ∧ creates h' = creates h ++ [(persistCtx, dbMessage hello)]
    ∧ db h' = db h
    ∧ LogSaveFailed Store.DeadlineExceeded ∈ log h'
    ∧ ∀ c, c ∈ ({[0%nat; 1%nat]} : gset nat) →
        ∃ cl, heap h !! c = Some cl ∧ served (RoomID hello) (marshal hello) h' c cl.
Proof.
  intros h.
  destruct (persistence_best_effort h hello timed_out)
    as (_ & _ & _ & Hstore & Hfan).
  destruct (Hfan Store.DeadlineExceeded {[0%nat; 1%nat]} eq_refl
              wf_slow_ann room_slow_ann) as (h' & Hrun & Hserved).
  destruct (Hstore h' Hrun) as (Hcr & _ & Hfail).
  destruct (Hfail Store.DeadlineExceeded eq_refl eq_refl) as [Hdb Hlog].
  exists h'. by split_and!.
Defined.

(** C4 as the specification has it, refuted: the frame of a chat message
    (type "message") that the hub queues for ann has no created_at
    field, although the store accepted the message and stamped it. *)
Lemma chat_frame_counterexample :
  ∃ h, Run someDB (ann_joins ++ [Req (Broadcast hello (Store.Inserted 1 1000))]) = Ok h
    ∧ queue_of h 0 = [marshal (joinMessage ann); marshal hello]
    ∧ Type_ hello = "message"
    ∧ Json.has_field "created_at" (marshal hello) = false
    ∧ Store.messages (db h) = [Store.mkRow 1 7 1 "hello" 1000].
Proof. eexists. split; [by_computation|]. split_and!; by_computation. Qed.

(** C4, on a run: the frame queued for ann when she joins. *)
Lemma frames_carry_no_created_at_witness :
  let f := marshal (joinMessage ann) in
  f.*1 = frame_fields ∧ Json.has_field "created_at" f = false ∧ ∃ m, f = marshal m.
Proof.
  intros f.
  destruct frames_carry_no_created_at as (Hfields & _ & Hframes).
  destruct (Hfields (joinMessage ann)) as [Hf1 Hf2].
  split; [exact Hf1|]. split; [exact Hf2|].
  apply (Hframes someDB ann_joins (state_after ann_joins) 0%nat
           (with_send (mkChan [f] 256 false) ann) f).
  - by_computation.
  - by_computation.
  - apply list_elem_of_here.
Defined.

(** C5 as the specification has it, refuted: bob registers in room 7
    while ann, a member, has a full queue. ann is in the room when the
    join message is fanned out, and it is not delivered to her: she is
    evicted, her queue is closed with the 256 frames it had. *)
Lemma register_full_member_counterexample :
  let h := state_after bob_arrives in
  0%nat ∈ room_set h 7
  ∧ ∃ h', registerClient h 1 = Ok h'
      ∧ queue_of h' 0 = queue_of h 0
      ∧ (marshal (joinMessage bob) ∉ queue_of h' 0)
      ∧ closed_of h' 0 = true
      ∧ rooms h' !! 7 = Some {[1%nat]}.
Proof.
  intros h. split; [decide_by_computation|].
  eexists. split; [by_computation|].
  split_and!; [by_computation|decide_by_computation|by_computation..].
Qed.

Lemma heap_bob_arrives : heap (state_after bob_arrives) !! 1%nat = Some bob.
Proof. by_computation. Qed.

(** C5, on that run: bob is served, ann is evicted. *)
Lemma register_effect_witness :
  let h := state_after bob_arrives in
  wf h ∧ heap h !! 1%nat = Some bob ∧ closed (send bob) = false
  ∧ ∃ h', registerClient h 1 = Ok h'
      ∧ room_set h' 7 ⊆ {[1%nat]} ∪ room_set h 7
      ∧ ∀ x, x ∈ ({[1%nat]} ∪ room_set h 7 : gset ptr) →
          ∃ clx, heap h !! x = Some clx
            ∧ served 7 (marshal (mkMessage 7 2 "bob" "bob joined the room" "join"))
                h' x clx.
Proof.
  intros h. split; [exact wf_bob_arrives|]. split; [exact heap_bob_arrives|].
  split; [reflexivity|].
  exact (register_effect h 1%nat bob wf_bob_arrives heap_bob_arrives eq_refl).
Defined.

Lemma heap_ann_joined :
  heap (state_after ann_joins) !! 0%nat
  = Some (with_send (mkChan [marshal (joinMessage ann)] 256 false) ann).
Proof. by_computation. Qed.

Lemma room_ann_joined : rooms (state_after ann_joins) !! 7 = Some {[0%nat]}.
Proof. by_computation. Qed.

Lemma wf_ann_joined : wf (state_after ann_joins).
Proof. apply state_after_wf; [vm_compute; lia|decide_by_computation]. Qed.

Lemma wf_both_joined : wf (state_after both_joined).
Proof. apply state_after_wf; [vm_compute; lia|decide_by_computation]. Qed.

Lemma heap_both_joined :
  heap (state_after both_joined) !! 0%nat
  = Some (with_send (mkChan [marshal (joinMessage ann); marshal (joinMessage bob)]
                       256 false) ann).
Proof. by_computation. Qed.

Lemma bob_both_joined :
  heap (state_after both_joined) !! 1%nat
  = Some (with_send (mkChan [marshal (joinMessage bob)] 256 false) bob).
Proof. by_computation. Qed.

Lemma room_both_joined : rooms (state_after both_joined) !! 7 = Some {[0%nat; 1%nat]}.
Proof. by_computation. Qed.

(** C6, on a run: ann leaves room 7, where bob stays; bob has the leave
    frame queued last, ann has none, and a second Unregister of ann
    changes nothing. *)
Lemma unregister_idempotent_witness :
  let h := state_after both_joined in
  ∃ h', unregisterClient h 0 = Ok h'
    ∧ rooms h' !! 7 = Some {[1%nat]}
    ∧ closed_of h' 0 = true
    ∧ queue_of h' 0 = [marshal (joinMessage ann); marshal (joinMessage bob)]
    ∧ queue_of h' 1 = [marshal (joinMessage bob); marshal (leaveMessage ann)]
    ∧ unregisterClient h' 0 = Ok h'.
Proof.
  intros h.
  destruct (unregister_idempotent h 0%nat _ heap_both_joined)
    as (_ & Htwice & _ & Hmember).
  destruct (Hmember {[0%nat; 1%nat]} wf_both_joined room_both_joined)
    as (h' & Hrun & _ & Hc & _ & _ & Hserved); [set_solver|].
  destruct (Hserved 1%nat) as (clx & Hclx & Hs); [set_solver|].
  unfold h in Hclx. rewrite bob_both_joined in Hclx. injection Hclx as <-.
  unfold served in Hs. rewrite decide_False in Hs by (simpl; lia).
  destruct Hs as [_ Hbob].
  assert (Hroom : ∃ h'', unregisterClient h 0 = Ok h'' ∧ rooms h'' !! 7 = Some {[1%nat]}).
  { eexists. split; by_computation. }
  destruct Hroom as (h'' & Hrun'' & Hroom).
  assert (h'' = h') as -> by congruence.
  exists h'. split; [exact Hrun|]. split; [exact Hroom|].
  unfold closed_of, queue_of. rewrite Hc, Hbob. split_and!; [done..|].
  rewrite Hrun in Htwice. exact Htwice.
Defined.

(** C10 as the specification has it, refuted: ann, the only member of
    room 7, has a full queue and is registered once more. The second
    join message finds her queue full: she is evicted, and the set of
    the room, which was {ann}, is empty afterwards. *)
Lemma register_again_counterexample :
  let h := state_after ann_full in
  rooms h !! 7 = Some {[0%nat]}
  ∧ ∃ h', registerClient h 0 = Ok h'
      ∧ rooms h' !! 7 = Some ∅
      ∧ closed_of h' 0 = true
      ∧ queue_of h' 0 = queue_of h 0.
Proof.
  intros h. split; [by_computation|].
  eexists. split; [by_computation|]. split_and!; by_computation.
Qed.

(** C10, on a run: ann, in room 7 with room in her queue, is
    registered once more. *)
Lemma register_again_witness :
  let h := state_after ann_joins in
  ∃ h', registerClient h 0 = Ok h'
    ∧ rooms (add_to_room 7 0%nat h) = rooms h
    ∧ room_set h' 7 = {[0%nat]}
    ∧ served 7 (marshal (joinMessage ann)) h' 0%nat
        (with_send (mkChan [marshal (joinMessage ann)] 256 false) ann).
Proof.
  intros h.
  destruct (register_again h 0%nat _ {[0%nat]} heap_ann_joined room_ann_joined)
    as (Hrooms & _ & Hfan); [by apply elem_of_singleton|].
  destruct (Hfan wf_ann_joined) as (h' & Hrun & _ & Hserved & _ & Hsame & _).
  exists h'. split_and!; [done..| |].
  - apply Hsame. intros x clx Hx Hclx. apply elem_of_singleton in Hx as ->.
    unfold h in Hclx. rewrite heap_ann_joined in Hclx. injection Hclx as <-.
    simpl. lia.
  - destruct (Hserved 0%nat) as (clx & Hclx & Hs); [by apply elem_of_singleton|].
    unfold h in Hclx. rewrite heap_ann_joined in Hclx. injection Hclx as <-. exact Hs.
Defined.

(** The two join frames of ann, computed. *)
Example register_twice_two_joins :
  ∃ h, Run someDB (ann_joins ++ [Req (Register 0%nat)]) = Ok h
    ∧ rooms h !! 7 = Some {[0%nat]}
    ∧ queue_of h 0 = [marshal (joinMessage ann); marshal (joinMessage ann)].
Proof. eexists. split; [by_computation|]. split; by_computation. Qed.

End HubFacts.

(* ===================================================================== *)
(** ** More on the hub: what its states and its failures look like *)
(* ===================================================================== *)

Module HubMore.
Import Websocket Inv HubFacts Scenario.

(** An iteration that returns was on an allocated client with an open
    queue, and touched no other client. *)
Lemma deliver_Ok_open R f h c h1 :
  deliver R f h c = Ok h1 →
  (∃ cl, heap h !! c = Some cl ∧ closed (send cl) = false)
  ∧ ∀ x, x ≠ c → heap h1 !! x = heap h !! x.
Proof.
  intros Hd. unfold deliver in Hd.
  destruct (heap h !! c) as [cl|] eqn:Hcl; [|done].
  destruct (closed (send cl)) eqn:Hopen.
  { unfold try_send in Hd. by rewrite Hopen in Hd. }
  split; [eauto|]. intros x Hx.
  assert (Hlt : (c < length (heap h))%nat) by (by eapply lookup_lt_Some).
  unfold try_send, chan_close in Hd. rewrite Hopen in Hd.
  destruct (is_full (send cl)); simpl in Hd; injection Hd as <-; simpl;
    by rewrite list_lookup_insert_ne.
Qed.

Lemma range_clients_Ok_open R f cs : ∀ h h',
  NoDup cs → range_clients R f cs h = Ok h' →
  ∀ c, c ∈ cs → ∃ cl, heap h !! c = Some cl ∧ closed (send cl) = false.
Proof.
  induction cs as [|x cs IH]; intros h h' Hnd Hrun c Hc; [by apply elem_of_nil in Hc|].
  apply NoDup_cons in Hnd as [Hx Hnd]. simpl in Hrun.
  apply bind_Ok_inv in Hrun as (h1 & Hd & Hrun).
  apply deliver_Ok_open in Hd as [Hopen Hother].
  apply elem_of_cons in Hc as [->|Hc]; [done|].
  destruct (IH h1 h' Hnd Hrun c Hc) as (cl & Hcl & Hcl').
  exists cl. split; [|done]. rewrite <- Hother; [done|]. by intros ->.
Qed.

(** The loop over members of which exactly [c] has a closed queue
    panics when it comes to [c]. *)
Lemma range_clients_closed R f cs : ∀ h c cl,
  NoDup cs → c ∈ cs → heap h !! c = Some cl → closed (send cl) = true →
  (∀ x, x ∈ cs → x ≠ c → ∃ clx, heap h !! x = Some clx ∧ closed (send clx) = false) →
  range_clients R f cs h = Panicked SendOnClosedChannel.
Proof.
  induction cs as [|x cs IH]; intros h c cl Hnd Hc Hcl Hclosed Hothers;
    [by apply elem_of_nil in Hc|].
  apply NoDup_cons in Hnd as [Hx Hnd]. simpl.
  destruct (decide (x = c)) as [->|Hne].
  - unfold deliver, try_send. by rewrite Hcl, Hclosed.
  - destruct (Hothers x) as (clx & Hclx & Hopen); [by left|done|].
    destruct (deliver R f h x) as [h1|p] eqn:Hd.
    2:{ by rewrite (deliver_open R f h x clx Hclx Hopen) in Hd. }
    rewrite bind_Ok. pose proof (deliver_Ok_open _ _ _ _ _ Hd) as [_ Hsame].
    apply (IH h1 c cl Hnd).
    + apply elem_of_cons in Hc as [->|Hc]; done.
    + by rewrite Hsame.
    + done.
    + intros y Hy Hyc. rewrite Hsame by (by intros ->). apply Hothers; [by right|done].
Qed.

Lemma rooms_add_log e h : rooms (add_log e h) = rooms h.
Proof. reflexivity. Qed.

Lemma heap_add_log e h : heap (add_log e h) = heap h.
Proof. reflexivity. Qed.

Lemma registerClient_Ok_open h c h' :
  registerClient h c = Ok h' →
  ∃ cl, heap h !! c = Some cl ∧ closed (send cl) = false.
Proof.
  unfold registerClient. destruct (heap h !! c) as [cl|] eqn:Hcl; [|done].
  intros Hrun. exists cl. split; [done|].
  unfold broadcastToRoom in Hrun.
  rewrite rooms_add_log, add_to_room_lookup in Hrun.
  apply bind_Ok_inv in Hrun as (h1 & Hrun & _).
  destruct (range_clients_Ok_open _ _ _ _ _ (NoDup_elements _) Hrun c)
    as (cl' & Hcl' & Hopen).
  { apply elem_of_elements. set_solver. }
  rewrite heap_add_log, add_to_room_heap in Hcl'. congruence.
Qed.

Lemma step_wf h e h' : wf h → step h e = Ok h' → wf h'.
Proof.
  intros Hwf Hstep. pose proof (wf_hub_inv h Hwf) as Hinv.
  destruct e as [[c|c|m o]|u n r|c]; simpl in Hstep.
  - destruct (registerClient_Ok_open h c h' Hstep) as (cl & Hcl & Hopen).
    destruct (registerClient_inv _ h c cl Hinv Hcl Hopen) as (h'' & Hrun & Hinv').
    assert (h'' = h') as -> by congruence. by destruct Hinv'.
  - destruct (unregisterClient_inv _ h c Hinv) as (h'' & Hrun & Hinv').
    { unfold unregisterClient in Hstep. by destruct (heap h !! c). }
    assert (h'' = h') as -> by congruence. by destruct Hinv'.
  - destruct (handleBroadcast_inv _ h m o Hinv) as (h'' & Hrun & Hinv').
    assert (h'' = h') as -> by congruence. by destruct Hinv'.
  - injection Hstep as <-. by destruct (newClient_inv _ h u n r Hinv).
  - destruct (heap h !! c) as [cl|] eqn:Hcl; injection Hstep as <-; [|done].
    by destruct (writerRecv_inv _ h c cl Hinv Hcl).
Qed.

Lemma run_wf events : ∀ h h', wf h → run h events = Ok h' → wf h'.
Proof.
  induction events as [|e rest IH]; simpl; intros h h' Hwf Hrun.
  - by injection Hrun as <-.
  - apply bind_Ok_inv in Hrun as (h1 & Hstep & Hrun).
    eapply IH; [|exact Hrun]. by eapply step_wf.
Qed.

(** X1. Whatever the events, registered once or not: a state the loop
    reaches without a panic is well formed. Every member of every room
    is an allocated client of that room with an open queue, and every
    queue has capacity 256 and holds at most 256 frames. *)
Theorem every_state_reached_is_wf db events h :
  Run db events = Ok h → wf h.
Proof.
  apply run_wf. by destruct (hub_inv_start db ∅).
Qed.

(** X1, on a run that registers ann twice. *)
Lemma every_state_reached_is_wf_witness :
  wf (state_after (ann_joins ++ [Req (Register 0%nat)])).
Proof.
  apply (every_state_reached_is_wf someDB (ann_joins ++ [Req (Register 0%nat)])).
  by_computation.
Defined.

(** X2. On a well-formed hub, registering a client whose queue was
    closed (it left, or it was evicted) panics with send on closed
    channel: the client is put back in its room's set and the join
    message is sent to it. *)
Theorem register_closed_panics h c cl :
  wf h → heap h !! c = Some cl → closed (send cl) = true →
  registerClient h c = Panicked SendOnClosedChannel.
Proof.
  intros [Hm Hq] Hcl Hclosed. unfold registerClient. rewrite Hcl.
  unfold broadcastToRoom. rewrite rooms_add_log, add_to_room_lookup.
  rewrite (range_clients_closed _ _ _ _ c cl); [done|apply NoDup_elements| | | |].
  - apply elem_of_elements. set_solver.
  - by rewrite heap_add_log, add_to_room_heap.
  - done.
  - intros x Hx Hne. apply elem_of_elements in Hx.
    apply elem_of_union in Hx as [Hx|Hx]; [set_solver|].
    apply elem_of_room_set in Hx as (S & HS & Hx).
    destruct (Hm _ _ _ HS Hx) as (clx & Hclx & _ & Hopen).
    exists clx. by rewrite heap_add_log, add_to_room_heap.
Qed.

Lemma wf_ann_left : wf (state_after ann_left).
Proof. apply state_after_wf; [vm_compute; lia|decide_by_computation]. Qed.

Lemma heap_ann_left :
  heap (state_after ann_left) !! 0%nat
  = Some (with_send (mkChan [marshal (joinMessage ann)] 256 true) ann).
Proof. by_computation. Qed.

(** X2, on a run: ann has left and is registered again. *)
Lemma register_closed_panics_witness :
  registerClient (state_after ann_left) 0 = Panicked SendOnClosedChannel.
Proof.
  exact (register_closed_panics _ 0%nat _ wf_ann_left heap_ann_left eq_refl).
Defined.

(** What a Broadcast does to a member [c] of room [R], seen from [c]. *)
Lemma handleBroadcast_member h m o R c cl :
  wf h → heap h !! c = Some cl → c ∈ room_set h R →
  ∃ h', handleBroadcast h m o = Ok h' ∧ wf h'
    ∧ if decide (RoomID m = R)
      then served R (marshal m) h' c cl
      else (c ∈ room_set h' R ∧ heap h' !! c = Some cl).
Proof.
  intros Hwf Hcl Hin. unfold handleBroadcast.
  pose proof (persist_view h m o) as Hv.
  assert (Hwf' : wf (persist h m o)) by (eapply wf_view; [symmetry; exact Hv|done]).
  unfold view in Hv. injection Hv as Hr Hh.
  apply elem_of_room_set in Hin as (S & HS & Hin).
  destruct Hwf as [Hm Hq].
  destruct (Hm _ _ _ HS Hin) as (cl0 & Hcl0 & Hroom & _).
  assert (cl0 = cl) as -> by congruence.
  destruct (rooms h !! RoomID m) as [clients|] eqn:HR.
  - destruct (fanout_members (persist h m o) (RoomID m) m clients Hwf')
      as (h' & Hrun & Hwf2 & Hsub & Hserved & Hother); [by rewrite Hr|].
    destruct (broadcastToRoom_spec (persist h m o) (RoomID m) m clients)
      as (h'' & Hrun' & _ & _ & HR' & _); [by destruct Hwf'|by rewrite Hr|].
    assert (h'' = h') as -> by congruence.
    exists h'. split; [done|]. split; [done|]. case_decide as HmR.
    + subst R. assert (S = clients) as -> by congruence.
      destruct (Hserved c Hin) as (cl1 & Hcl1 & _ & _ & Hs).
      rewrite Hh in Hcl1. assert (cl1 = cl) as -> by congruence.
      by rewrite <- HmR.
    + split.
      * apply elem_of_room_set. exists S. split; [|done].
        rewrite HR' by done. by rewrite Hr.
      * rewrite Hother, Hh; [done|]. intros Hc.
        destruct (Hm _ _ _ HR Hc) as (cl1 & Hcl1 & Hroom1 & _). congruence.
  - exists (persist h m o). rewrite broadcastToRoom_absent by (by rewrite Hr).
    split; [done|]. split; [done|]. case_decide as HmR; [congruence|].
    split; [|by rewrite Hh]. apply elem_of_room_set. exists S. by rewrite Hr.
Qed.

(** X3. A broadcast stays in its room: on a well-formed hub
    handleBroadcast returns, the sets of all other rooms are as they
    were, and so is every client that is not a member of the message's
    room. *)
Theorem broadcast_room_isolation h m o :
  wf h →
  ∃ h', handleBroadcast h m o = Ok h'
    ∧ (∀ R, R ≠ RoomID m → rooms h' !! R = rooms h !! R)
    ∧ (∀ c cl, heap h !! c = Some cl → c ∉ room_set h (RoomID m) →
         heap h' !! c = Some cl).
Proof.
  intros Hwf. unfold handleBroadcast.
  pose proof (persist_view h m o) as Hv.
  assert (Hwf' : wf (persist h m o)) by (eapply wf_view; [symmetry; exact Hv|done]).
  unfold view in Hv. injection Hv as Hr Hh.
  destruct (rooms h !! RoomID m) as [clients|] eqn:HR.
  - destruct (broadcastToRoom_spec (persist h m o) (RoomID m) m clients)
      as (h' & Hrun & Hheap & _ & HR' & _); [by destruct Hwf'|by rewrite Hr|].
    exists h'. split; [done|]. split.
    + intros R HRne. rewrite HR' by done. by rewrite Hr.
    + intros c cl Hcl Hout. rewrite Hheap, Hh, Hcl.
      rewrite decide_False; [done|]. intros Hc. apply Hout.
      apply elem_of_room_set. eauto.
  - exists (persist h m o). rewrite broadcastToRoom_absent by (by rewrite Hr).
    split; [done|]. split; [by rewrite Hr|]. intros c cl Hcl _. by rewrite Hh.
Qed.

Lemma wf_two_rooms : wf (state_after two_rooms).
Proof. apply state_after_wf; [vm_compute; lia|decide_by_computation]. Qed.

(** X3, on a run: a message for room 7 leaves carl, in room 8, alone. *)
Lemma broadcast_room_isolation_witness :
  let h := state_after two_rooms in
  ∃ h', handleBroadcast h hello timed_out = Ok h'
    ∧ rooms h' !! 8 = Some {[1%nat]}
    ∧ heap h' !! 1%nat
      = Some (with_send (mkChan [marshal (joinMessage carl)] 256 false) carl).
Proof.
  intros h.
  destruct (broadcast_room_isolation h hello timed_out wf_two_rooms)
    as (h' & Hrun & Hrooms & Hheap).
  exists h'. split; [exact Hrun|]. split.
  - rewrite (Hrooms 8) by done. by_computation.
  - apply Hheap; [by_computation|decide_by_computation].
Defined.

(** X4. A message for a room with no member (no entry in the registry,
    or the empty set an eviction leaves behind) is not an error:
    handleBroadcast returns, and the registry and the clients are
    unchanged. *)
Theorem broadcast_to_nobody h m o :
  room_set h (RoomID m) = ∅ →
  ∃ h', handleBroadcast h m o = Ok h' ∧ rooms h' = rooms h ∧ heap h' = heap h.
Proof.
  intros Hempty. unfold handleBroadcast.
  pose proof (persist_view h m o) as Hv. unfold view in Hv. injection Hv as Hr Hh.
  unfold broadcastToRoom. rewrite Hr.
  unfold room_set in Hempty. destruct (rooms h !! RoomID m) as [clients|]; simpl in *.
  - subst clients. rewrite elements_empty. simpl. eexists. split; [done|].
    by rewrite rooms_add_log, heap_add_log.
  - by eexists.
Qed.

(** X4, on a run: a message for room 7 after ann, its only member,
    was evicted. *)
Lemma broadcast_to_nobody_witness :
  let h := state_after ann_evicted in
  ∃ h', handleBroadcast h hello timed_out = Ok h'
    ∧ rooms h' = rooms h ∧ heap h' = heap h.
Proof.
  intros h. apply (broadcast_to_nobody h hello timed_out). by_computation.
Defined.

(** X5. Frames are queued in the order of the requests. After the
    Broadcast requests [ms], a member of room [R] whose queue had room
    for them has, behind what was queued, exactly the frames of the
    messages of [ms] addressed to [R], in their order, and is still a
    member; messages for other rooms leave no trace in its queue. *)
Theorem queue_is_room_messages_in_order ms : ∀ h R c cl,
  wf h → heap h !! c = Some cl → c ∈ room_set h R →
  (length (buf (send cl)) + length (filter (λ p, RoomID p.1 = R) ms) ≤ 256)%nat →
  ∃ h', run h (broadcasts ms) = Ok h'
    ∧ c ∈ room_set h' R
    ∧ heap h' !! c
      = Some (with_send
                (mkChan (buf (send cl)
                           ++ (marshal ∘ fst <$> filter (λ p, RoomID p.1 = R) ms))
                        256 false) cl).
Proof.
  induction ms as [|[m o] ms IH]; intros h R c cl Hwf Hcl Hin Hlen.
  - exists h. split; [done|]. split; [done|]. simpl. rewrite app_nil_r, Hcl.
    destruct Hwf as [Hm Hq]. destruct (Hq c cl Hcl) as [Hcap _].
    apply elem_of_room_set in Hin as (S & HS & Hin).
    destruct (Hm _ _ _ HS Hin) as (cl0 & Hcl0 & _ & Hopen).
    assert (cl0 = cl) as -> by congruence.
    destruct cl as [[b cp cd] u n r]. simpl in *. by subst.
  - destruct (handleBroadcast_member h m o R c cl Hwf Hcl Hin) as (h1 & Hrun & Hwf1 & Hc).
    unfold broadcasts. rewrite fmap_cons. simpl. rewrite Hrun, bind_Ok.
    rewrite filter_cons in Hlen |- *. simpl in *.
    destruct (decide (RoomID m = R)) as [HmR|HmR].
    + simpl in Hlen. unfold served in Hc. rewrite decide_False in Hc by lia.
      destruct Hc as [Hin1 Hcl1].
      destruct (IH h1 R c _ Hwf1 Hcl1 Hin1) as (h' & Hrun' & Hin' & Hcl').
      { simpl. rewrite length_app. simpl. lia. }
      exists h'. split; [done|]. split; [done|]. rewrite Hcl'. simpl.
      by rewrite <- app_assoc.
    + destruct Hc as [Hin1 Hcl1].
      destruct (IH h1 R c cl Hwf1 Hcl1 Hin1 Hlen) as (h' & Hrun' & Hin' & Hcl').
      exists h'. by split_and!.
Qed.

Lemma heap_two_rooms :
  heap (state_after two_rooms) !! 0%nat
  = Some (with_send (mkChan [marshal (joinMessage ann)] 256 false) ann).
Proof. by_computation. Qed.

(** X5, on a run: of three messages, the two for room 7 are queued
    for ann, in order. *)
Lemma queue_is_room_messages_in_order_witness :
  let h := state_after two_rooms in
  let ms := [(hello, timed_out); (elsewhere, timed_out);
             (again, Store.Inserted 1 1000)] in
  ∃ h', run h (broadcasts ms) = Ok h'
    ∧ 0%nat ∈ room_set h' 7
    ∧ queue_of h' 0 = [marshal (joinMessage ann); marshal hello; marshal again].
Proof.
  intros h ms.
  destruct (queue_is_room_messages_in_order ms h 7 0%nat _ wf_two_rooms heap_two_rooms)
    as (h' & Hrun & Hin & Hq).
  - decide_by_computation.
  - vm_compute. lia.
  - exists h'. split; [exact Hrun|]. split; [exact Hin|].
    unfold queue_of. rewrite Hq. reflexivity.
Defined.

(** X6. When the only member of a room is unregistered, the room's
    entry is deleted from the registry, GetRoomClientCount is 0, the
    client's queue is closed with its frames left in it, and no leave
    frame is queued for anyone. *)
Theorem last_unregister_removes_room h c cl :
  heap h !! c = Some cl → rooms h !! roomID cl = Some {[c]} →
  closed (send cl) = false →
  ∃ h', unregisterClient h c = Ok h'
    ∧ rooms h' = delete (roomID cl) (rooms h)
    ∧ GetRoomClientCount h' (roomID cl) = 0%nat
    ∧ heap h' = <[c := with_send (mkChan (buf (send cl)) (cap (send cl)) true) cl]>
                  (heap h).
Proof.
  intros Hcl HR Hopen.
  destruct (unregisterClient_member h c cl {[c]} Hcl HR) as (h4 & Hrun & Hr4 & Hh4 & _);
    [set_solver|done|].
  rewrite decide_True in Hr4 by set_solver.
  exists h4. rewrite Hrun, broadcastToRoom_absent by (by rewrite Hr4, lookup_delete_eq).
  split_and!; [done..| |done].
  unfold GetRoomClientCount. by rewrite Hr4, lookup_delete_eq.
Qed.

(** X6, on a run: ann, alone in room 7, leaves. *)
Lemma last_unregister_removes_room_witness :
  let h := state_after ann_joins in
  ∃ h', unregisterClient h 0 = Ok h'
    ∧ rooms h' = delete 7 (rooms h)
    ∧ GetRoomClientCount h' 7 = 0%nat
    ∧ heap h' = <[0%nat := with_send (mkChan [marshal (joinMessage ann)] 256 true) ann]>
                  (heap h).
Proof.
  intros h.
  exact (last_unregister_removes_room h 0%nat _ heap_ann_joined room_ann_joined eq_refl).
Defined.

Lemma after_send_roomID f cl : roomID (after_send f cl) = roomID cl.
Proof. unfold after_send. by destruct (is_full (send cl)). Qed.

Lemma settled_view regd h1 h2 : view h1 = view h2 → settled regd h1 → settled regd h2.
Proof.
  unfold view. intros [= Hr Hh] Hs c Hc. destruct (Hs c Hc) as (cl & Hcl & Himp).
  exists cl. unfold room_set in *. by rewrite <- Hr, <- Hh.
Qed.

Lemma broadcastToRoom_settled regd h R m h' :
  members_open h → settled regd h → broadcastToRoom h R m = Ok h' → settled regd h'.
Proof.
  intros Hm Hs Hrun. destruct (rooms h !! R) as [clients|] eqn:HR.
  2:{ rewrite broadcastToRoom_absent in Hrun by done. by injection Hrun as <-. }
  destruct (broadcastToRoom_spec h R m clients Hm HR)
    as (h'' & Hrun' & Hheap & HR1 & HR' & _).
  assert (h'' = h') as -> by congruence.
  intros c Hc. destruct (Hs c Hc) as (cl & Hcl & Himp).
  rewrite Hheap, Hcl. destruct (decide (c ∈ clients)) as [Hin|Hout]; simpl.
  - destruct (Hm _ _ _ HR Hin) as (cl0 & Hcl0 & Hroom & Hopen).
    assert (cl0 = cl) as -> by congruence.
    eexists. split; [done|]. rewrite after_send_roomID, Hroom.
    unfold after_send. destruct (is_full (send cl)) eqn:Hfull; simpl; [done|].
    intros _. unfold room_set. rewrite HR1. simpl.
    apply elem_of_difference. split; [done|].
    rewrite elem_of_evicted_elements. unfold full_at. rewrite Hcl, Hfull. by intros [_ ?].
  - exists cl. split; [done|]. intros Hopen. specialize (Himp Hopen).
    assert (roomID cl ≠ R) as Hne.
    { intros <-. apply Hout. unfold room_set in Himp. by rewrite HR in Himp. }
    unfold room_set in *. by rewrite HR'.
Qed.

(** The state of unregisterClient before its fan-out keeps the
    invariants, the client being a member. *)
Lemma unregister_state_inv regd h c cl (clients : gset ptr) h4 :
  members_open h → settled regd h →
  heap h !! c = Some cl → rooms h !! roomID cl = Some clients → c ∈ clients →
  rooms h4 = (if decide (clients ∖ {[c]} = ∅)
              then delete (roomID cl) (rooms h)
              else <[roomID cl := clients ∖ {[c]}]> (rooms h)) →
  heap h4 = <[c := with_send (mkChan (buf (send cl)) (cap (send cl)) true) cl]> (heap h) →
  members_open h4 ∧ settled regd h4.
Proof.
  intros Hm Hs Hcl HR Hin Hr4 Hh4.
  assert (Hlt : (c < length (heap h))%nat) by (by eapply lookup_lt_Some).
  assert (Hkeep : ∀ R (S : gset ptr) x, rooms h !! R = Some S → x ∈ S → x ≠ c →
            x ∈ room_set h4 R).
  { intros R S x HS Hx Hne. unfold room_set. rewrite Hr4.
    destruct (decide (R = roomID cl)) as [->|HRne].
    - assert (S = clients) as -> by congruence.
      rewrite decide_False by set_solver. rewrite lookup_insert_eq. simpl. set_solver.
    - case_decide; [rewrite lookup_delete_ne by done|rewrite lookup_insert_ne by done];
        rewrite HS; done. }
  assert (Hsub : ∀ R (S : gset ptr) x, rooms h4 !! R = Some S → x ∈ S →
            x ≠ c ∧ ∃ S0 : gset ptr, rooms h !! R = Some S0 ∧ x ∈ S0).
  { intros R S x. rewrite Hr4. intros HS Hx.
    destruct (decide (R = roomID cl)) as [->|Hne].
    - case_decide.
      + by rewrite lookup_delete_eq in HS.
      + rewrite lookup_insert_eq in HS. injection HS as <-.
        split; [set_solver|]. exists clients. split; [done|set_solver].
    - assert (rooms h !! R = Some S) as HS0.
      { case_decide; [by rewrite lookup_delete_ne in HS
                     |by rewrite lookup_insert_ne in HS]. }
      split; [|eauto]. intros ->.
      destruct (Hm _ _ _ HS0 Hx) as (cl' & Hcl'' & Hroom & _). congruence. }
  split.
  - intros R S x HS Hx. destruct (Hsub R S x HS Hx) as (Hne & S0 & HS0 & Hx0).
    rewrite Hh4, list_lookup_insert_ne by done. eauto.
  - intros x Hx. destruct (Hs x Hx) as (clx & Hclx & Himp).
    destruct (decide (x = c)) as [->|Hne].
    + eexists. rewrite Hh4, list_lookup_insert_eq by done. split; [done|]. done.
    + exists clx. rewrite Hh4, list_lookup_insert_ne by done. split; [done|].
      intros Hopen. specialize (Himp Hopen).
      apply elem_of_room_set in Himp as (S & HS & HxS). by apply (Hkeep _ S).
Qed.

Lemma settled_add_to_room regd h c cl :
  settled regd h → heap h !! c = Some cl →
  settled ({[c]} ∪ regd) (add_to_room (roomID cl) c h).
Proof.
  intros Hs Hcl x Hx. rewrite add_to_room_heap.
  destruct (decide (x = c)) as [->|Hne].
  - exists cl. split; [done|]. intros _. unfold room_set.
    rewrite add_to_room_lookup. simpl. set_solver.
  - destruct (Hs x) as (clx & Hclx & Himp); [set_solver|].
    exists clx. split; [done|]. intros Hox. specialize (Himp Hox).
    unfold room_set at 1. destruct (decide (roomID clx = roomID cl)) as [Heq|Hneq].
    + rewrite Heq, add_to_room_lookup. simpl. rewrite <- Heq. set_solver.
    + rewrite add_to_room_other by done. exact Himp.
Qed.

Lemma step_settled regd seen h e h' :
  hub_inv regd h → settled seen h → step h e = Ok h' →
  settled (list_to_set (registrations [e]) ∪ seen) h'.
Proof.
  intros Hinv Hs Hstep. pose proof Hinv as ([Hm Hq] & Hreg & Hfresh).
  destruct e as [[c|c|m o]|u n r|c]; simpl in Hstep.
  - replace (list_to_set (registrations [Req (Register c)]) ∪ seen)
      with ({[c]} ∪ seen : gset ptr) by (simpl; set_solver).
    destruct (registerClient_Ok_open h c h' Hstep) as (cl & Hcl & Hopen).
    unfold registerClient in Hstep. rewrite Hcl in Hstep.
    eapply broadcastToRoom_settled; [| |exact Hstep].
    + apply (wf_view (add_to_room (roomID cl) c h)); [done|].
      by destruct (add_to_room_inv regd h c cl Hinv Hcl Hopen).
    + apply (settled_view _ (add_to_room (roomID cl) c h)); [done|].
      by apply settled_add_to_room.
  - replace (list_to_set (registrations [Req (Unregister c)]) ∪ seen)
      with seen by (simpl; set_solver).
    destruct (heap h !! c) as [cl|] eqn:Hcl.
    2:{ unfold unregisterClient in Hstep. by rewrite Hcl in Hstep. }
    destruct (decide (c ∈ room_set h (roomID cl))) as [Hin|Hout].
    2:{ rewrite (unregisterClient_absent h c cl) in Hstep by done.
        by injection Hstep as <-. }
    apply elem_of_room_set in Hin as (clients & HR & Hin).
    destruct (Hm _ _ _ HR Hin) as (cl0 & Hcl0 & _ & Hopen).
    assert (cl0 = cl) as -> by congruence.
    destruct (unregisterClient_member h c cl clients Hcl HR Hin Hopen)
      as (h4 & Hrun & Hr4 & Hh4 & _).
    rewrite Hrun in Hstep.
    destruct (unregister_state_inv seen h c cl clients h4 Hm Hs Hcl HR Hin Hr4 Hh4)
      as [Hm4 Hs4].
    by eapply broadcastToRoom_settled.
  - replace (list_to_set (registrations [Req (Broadcast m o)]) ∪ seen)
      with seen by (simpl; set_solver).
    unfold handleBroadcast in Hstep.
    eapply broadcastToRoom_settled; [| |exact Hstep].
    + apply (wf_view h); [symmetry; apply persist_view|done].
    + apply (settled_view _ h); [symmetry; apply persist_view|done].
  - replace (list_to_set (registrations [NewClient u n r]) ∪ seen)
      with seen by (simpl; set_solver).
    injection Hstep as <-. intros x Hx. destruct (Hs x Hx) as (clx & Hclx & Himp).
    exists clx. split; [|done]. simpl. by apply lookup_app_l_Some.
  - replace (list_to_set (registrations [WriterRecv c]) ∪ seen)
      with seen by (simpl; set_solver).
    destruct (heap h !! c) as [cl|] eqn:Hcl; injection Hstep as <-; [|done].
    assert (Hlt : (c < length (heap h))%nat) by (by eapply lookup_lt_Some).
    intros x Hx. destruct (Hs x Hx) as (clx & Hclx & Himp).
    rewrite heap_set_client by done. case_decide as Hxc.
    + subst x. assert (clx = cl) as -> by congruence.
      eexists. split; [done|]. exact Himp.
    + eauto.
Qed.

Lemma run_settled events : ∀ h regd seen h',
  hub_inv regd h → settled seen h → scoped (length (heap h)) events →
  NoDup (registrations events) →
  (∀ c, c ∈ registrations events → c ∉ regd) →
  run h events = Ok h' →
  hub_inv (list_to_set (registrations events) ∪ regd) h'
  ∧ settled (list_to_set (registrations events) ∪ seen) h'.
Proof.
  induction events as [|e rest IH]; intros h regd seen h' Hinv Hs Hsc Hnd Hfresh Hrun.
  - injection Hrun as <-.
    replace (list_to_set (registrations []) ∪ regd) with regd by set_solver.
    replace (list_to_set (registrations []) ∪ seen) with seen by set_solver. done.
  - apply scoped_cons in Hsc as [Hsc1 Hsc2].
    rewrite (registrations_cons e rest) in Hnd, Hfresh.
    apply NoDup_app in Hnd as (Hnd1 & Hdisj & Hnd2).
    simpl in Hrun. apply bind_Ok_inv in Hrun as (h1 & Hstep & Hrun).
    destruct (step_inv regd h e Hinv Hsc1) as (h1' & Hstep' & Hinv1 & Hlen).
    { intros c Hc. apply Hfresh. set_solver. }
    assert (h1' = h1) as -> by congruence.
    pose proof (step_settled regd seen h e h1 Hinv Hs Hstep) as Hs1.
    destruct (IH h1 (list_to_set (registrations [e]) ∪ regd)
                (list_to_set (registrations [e]) ∪ seen) h' Hinv1 Hs1)
      as [Hinv' Hs']; [by rewrite Hlen|done| |done|].
    { intros c Hc. apply not_elem_of_union. split.
      - rewrite elem_of_list_to_set. intros Hc1. by apply (Hdisj c).
      - apply Hfresh. set_solver. }
    rewrite (registrations_cons e rest), list_to_set_app_L.
    assert (Hassoc : ∀ (l1 l2 : list ptr) (X : gset ptr),
              list_to_set l1 ∪ list_to_set l2 ∪ X
              = list_to_set l2 ∪ (list_to_set l1 ∪ X)).
    { clear. intros l1 l2 X. set_solver. }
    by rewrite !Hassoc.
Qed.

(** X7. When every connection is registered at most once, in every
    state the loop reaches the queue of a client is closed exactly when
    the client was registered and is no longer in its room's set: the
    hub closes a queue when, and only when, it takes the client out. *)
Theorem queue_closed_iff_left db events h :
  scoped 0 events → NoDup (registrations events) → Run db events = Ok h →
  ∀ c cl, heap h !! c = Some cl →
    (closed (send cl) = true
     ↔ c ∈ registrations events ∧ c ∉ room_set h (roomID cl)).
Proof.
  intros Hsc Hnd Hrun c cl Hcl.
  destruct (run_settled events (add_log LogHubStarted (NewHub db)) ∅ ∅ h)
    as [([Hm Hq] & Hreg & Hfresh) Hs];
    [apply hub_inv_start| |done|done|set_solver|done|].
  { intros x Hx. by apply elem_of_empty in Hx. }
  split.
  - intros Hclosed. split.
    + destruct (decide (c ∈ registrations events)) as [|Hn]; [done|].
      rewrite (Hfresh c cl Hcl) in Hclosed; [done|]. set_solver.
    + intros Hin. apply elem_of_room_set in Hin as (S & HS & Hin).
      destruct (Hm _ _ _ HS Hin) as (cl0 & Hcl0 & _ & Hopen). congruence.
  - intros [Hin Hout]. destruct (Hs c) as (cl0 & Hcl0 & Himp); [set_solver|].
    assert (cl0 = cl) as -> by congruence.
    destruct (closed (send cl)); [done|]. exfalso. by apply Hout, Himp.
Qed.

(** X7, on the run in which ann joins and leaves. *)
Lemma queue_closed_iff_left_witness :
  let h := state_after ann_left in
  let cl := with_send (mkChan [marshal (joinMessage ann)] 256 true) ann in
  closed (send cl) = true
  ↔ 0%nat ∈ registrations ann_left ∧ 0%nat ∉ room_set h (roomID cl).
Proof.
  intros h cl. apply (queue_closed_iff_left someDB ann_left h).
  - vm_compute. lia.
  - decide_by_computation.
  - by_computation.
  - exact heap_ann_left.
Defined.

End HubMore.

(* ===================================================================== *)
(** ** The writer of a connection *)
(* ===================================================================== *)

Module WriterFacts.
Import Websocket Inv HubFacts Scenario.

Lemma recv_n_all : ∀ (fs : list Frame) cp cl,
  recv_n (length fs) (mkChan fs cp cl) = (fs, mkChan [] cp cl).
Proof.
  induction fs as [|f fs IH]; intros cp cl; [done|].
  simpl. unfold chan_recv. simpl. by rewrite IH.
Qed.

Lemma writer_turn_batch ch f fs close_ok :
  buf ch = f :: fs →
  writer_turn ch (SendReady true close_ok)
  = (text_message f fs close_ok, drained ch, close_ok).
Proof.
  intros Hbuf. unfold writer_turn. rewrite Hbuf.
  unfold chan_recv at 1 2. rewrite Hbuf. simpl tail.
  by rewrite recv_n_all.
Qed.

Lemma written_app a b : written (a ++ b) = written a ++ written b.
Proof. unfold written. by rewrite omap_app. Qed.

Lemma written_text_message f fs ok : written (text_message f fs ok) = f :: fs.
Proof.
  unfold text_message. rewrite !written_app. simpl. f_equal.
  rewrite app_nil_r. induction fs as [|g fs IH]; [done|].
  change ((g :: fs) ≫= (λ g0, [Write Newline; Write (Bytes g0)]))
    with ([Write Newline; Write (Bytes g)] ++ (fs ≫= (λ g0, [Write Newline; Write (Bytes g0)]))).
  rewrite written_app, IH. done.
Qed.

Lemma writer_turn_keeps ch w :
  let '(actions, ch', goes_on) := writer_turn ch w in
  closed ch' = closed ch ∧ cap ch' = cap ch
  ∧ ∃ dropped, written actions ++ dropped ++ buf ch' = buf ch
      ∧ (length dropped ≤ 1)%nat
      ∧ (nextWriter_succeeds w → dropped = [])
      ∧ (dropped ≠ [] → goes_on = false).
Proof.
  destruct w as [nw ok|ping];
    [|simpl; split_and!; [done..|]; exists []; (split_and!; try done; simpl; lia)].
  destruct (buf ch) as [|f fs] eqn:Hbuf.
  - unfold writer_turn. rewrite Hbuf. destruct (closed ch) eqn:Hc; simpl;
      (split_and!; [done..|]; exists []; rewrite ?Hbuf; (split_and!; try done; simpl; lia)).
  - destruct nw.
    + rewrite (writer_turn_batch ch f fs ok Hbuf). lazy beta iota zeta.
      split_and!; [done..|].
      exists []. rewrite written_text_message, ?Hbuf. simpl. rewrite ?app_nil_r.
      (split_and!; try done; simpl; lia).
    + unfold writer_turn. rewrite Hbuf. simpl. split_and!; [done..|].
      exists [f]. rewrite ?Hbuf. simpl. split_and!; [done|lia|done|done].
Qed.

(** X8. Over any sequence of wake-ups, the frames the writer has handed
    to the socket, then at most one dropped frame, then the frames still
    queued are the queue it started with, in order; the writer neither
    closes the channel nor changes its capacity. A frame is dropped only
    when NextWriter fails, after the frame was received. *)
Theorem writer_loses_no_frame wakes : ∀ ch,
  let '(actions, ch', exited) := writer_loop ch wakes in
  closed ch' = closed ch ∧ cap ch' = cap ch
  ∧ ∃ dropped, written actions ++ dropped ++ buf ch' = buf ch
      ∧ (length dropped ≤ 1)%nat
      ∧ (Forall nextWriter_succeeds wakes → dropped = []).
Proof.
  induction wakes as [|w wakes IH]; intros ch; simpl.
  - split_and!; [done..|]. exists []. (split_and!; try done; simpl; lia).
  - pose proof (writer_turn_keeps ch w) as Hturn.
    destruct (writer_turn ch w) as [[acts ch1] goes_on].
    destruct Hturn as (Hc1 & Hcap1 & d1 & Hd1 & Hlen1 & Hok1 & Hstop1).
    destruct goes_on.
    + specialize (IH ch1). destruct (writer_loop ch1 wakes) as [[acts' ch2] ex].
      destruct IH as (Hc2 & Hcap2 & d2 & Hd2 & Hlen2 & Hok2).
      assert (d1 = []) as -> by (destruct d1; [done|]; by discriminate Hstop1).
      split_and!; [congruence..|]. exists d2. split_and!.
      * rewrite written_app, <- app_assoc, Hd2. exact Hd1.
      * done.
      * intros Hall. apply Forall_cons in Hall as [_ Hall]. auto.
    + split_and!; [done..|]. exists d1. split_and!; [done..|].
      intros Hall. apply Forall_cons in Hall as [Hw _]. auto.
Qed.

Lemma reaches_send_nil n : ¬ reaches_send n [].
Proof. intros (pre & w & rest & H & _). by destruct pre. Qed.

Lemma reaches_send_tick ok n wakes :
  reaches_send n (Tick ok :: wakes) ↔ ok = true ∧ reaches_send n wakes.
Proof.
  split.
  - intros (pre & w & rest & Heq & Hw & Hpre & Hn). destruct pre as [|p pre].
    + injection Heq as <- _. done.
    + injection Heq as <- ->. apply Forall_cons in Hpre as [Hp Hpre].
      split; [done|]. exists pre, w, rest. by split_and!.
  - intros [-> (pre & w & rest & -> & Hw & Hpre & Hn)].
    exists (Tick true :: pre), w, rest. split_and!; [done|done| |done].
    by constructor.
Qed.

Lemma reaches_send_send nw ok n wakes :
  reaches_send n (SendReady nw ok :: wakes)
  ↔ n = 1%nat ∨ (nw && ok = true ∧ ∃ m, n = S m ∧ reaches_send m wakes).
Proof.
  split.
  - intros (pre & w & rest & Heq & Hw & Hpre & Hn). destruct pre as [|p pre].
    + left. by rewrite <- Hn.
    + right. injection Heq as <- ->. apply Forall_cons in Hpre as [Hp Hpre].
      split; [done|]. exists (S (sends pre)). split; [by rewrite <- Hn|].
      exists pre, w, rest. by split_and!.
  - intros [->|(Hok & m & -> & pre & w & rest & -> & Hw & Hpre & Hn)].
    + exists [], (SendReady nw ok), wakes. by split_and!.
    + exists (SendReady nw ok :: pre), w, rest. split_and!; [done|done| |].
      * by constructor.
      * unfold sends in *. rewrite filter_cons. simpl. by rewrite Hn.
Qed.

Lemma sends_cons w wakes :
  sends (w :: wakes) = ((if is_send w then 1 else 0) + sends wakes)%nat.
Proof. unfold sends. rewrite filter_cons. by destruct w. Qed.

Lemma close_not_in_text_message f fs ok : WriteCloseMessage ∉ text_message f fs ok.
Proof.
  unfold text_message. rewrite !elem_of_app, !elem_of_cons, list_elem_of_bind.
  intros [[?|[?|[?|?%elem_of_nil]]]|[(g & Hg & _)|[?|?%elem_of_nil]]]; try done.
  rewrite !elem_of_cons in Hg. by destruct Hg as [?|[?|?%elem_of_nil]].
Qed.

Lemma writer_loop_cons ch w wakes :
  writer_loop ch (w :: wakes)
  = let '(actions, ch1, goes_on) := writer_turn ch w in
    if goes_on then
      let '(actions', ch2, exited) := writer_loop ch1 wakes in
      (actions ++ actions', ch2, exited)
    else (actions, ch1, true).
Proof. reflexivity. Qed.

(** The loop of the writer on a closed channel. *)
Lemma writer_loop_closed wakes : ∀ ch,
  closed ch = true →
  let '(actions, ch', exited) := writer_loop ch wakes in
  (exited = true
   ↔ Exists (λ w, succeeds w = false) wakes ∨ (sends_to_close ch ≤ sends wakes)%nat)
  ∧ (WriteCloseMessage ∈ actions ↔ reaches_send (sends_to_close ch) wakes)
  ∧ (WriteCloseMessage ∈ actions →
       written actions = buf ch ∧ buf ch' = []
       ∧ ∃ pre, actions = pre ++ [SetWriteDeadline writeWait; WriteCloseMessage]).
Proof.
  induction wakes as [|w wakes IH]; intros ch Hclosed.
  { simpl. split_and!.
    - split; [done|]. intros [H%Exists_nil|H]; [done|].
      unfold sends_to_close, sends in H. destruct (buf ch); simpl in H; lia.
    - split; [by intros ?%elem_of_nil|]. by intros ?%reaches_send_nil.
    - by intros ?%elem_of_nil. }
  rewrite sends_cons. unfold sends_to_close.
  destruct w as [nw ok|ping].
  - destruct (buf ch) as [|f fs] eqn:Hbuf.
    + assert (Hturn : writer_loop ch (SendReady nw ok :: wakes)
                = ([SetWriteDeadline writeWait; WriteCloseMessage], ch, true)).
      { simpl. by rewrite Hbuf, Hclosed. }
      rewrite Hturn. split_and!.
      * split; [|done]. intros _. right. simpl. lia.
      * split; [|set_solver]. intros _. apply reaches_send_send. by left.
      * intros _. split_and!; [done|done|]. by exists [].
    + destruct nw.
      * assert (Hturn : writer_loop ch (SendReady true ok :: wakes)
                  = let '(actions, ch1, goes_on) :=
                      (text_message f fs ok, drained ch, ok) in
                    if goes_on then
                      let '(actions', ch2, exited) := writer_loop ch1 wakes in
                      (actions ++ actions', ch2, exited)
                    else (actions, ch1, true)).
        { by rewrite writer_loop_cons, (writer_turn_batch ch f fs ok Hbuf). }
        rewrite Hturn. lazy beta iota zeta. destruct ok.
        -- specialize (IH (drained ch) Hclosed).
           destruct (writer_loop (drained ch) wakes) as [[acts' ch2] ex].
           destruct IH as (Hex & Hclose & Hall). unfold sends_to_close in Hex, Hclose.
           simpl in Hex, Hclose.
           split_and!.
           ++ rewrite Hex, Exists_cons. simpl.
              split; [intros [?|?]; [left; by right|right; lia]
                     |intros [[?|?]|?]; [done|by left|right; lia]].
           ++ rewrite elem_of_app, Hclose, reaches_send_send. split.
              ** intros [H|H]; [by apply close_not_in_text_message in H|].
                 right. split; [done|]. by exists 1%nat.
              ** intros [?|(_ & m & [= <-] & H)]; [done|by right].
           ++ intros [H|H]%elem_of_app; [by apply close_not_in_text_message in H|].
              destruct (Hall H) as (Hw & Hb & pre & ->).
              rewrite written_app, written_text_message, Hw. simpl.
              split_and!; [by rewrite app_nil_r|done|].
              exists (text_message f fs true ++ pre). by rewrite app_assoc.
        -- split_and!.
           ++ split; [|done]. intros _. left. by left.
           ++ split; [by intros H%close_not_in_text_message|].
              intros [?|(? & _)]%reaches_send_send; done.
           ++ by intros H%close_not_in_text_message.
      * assert (Hturn : writer_loop ch (SendReady false ok :: wakes)
                  = ([SetWriteDeadline writeWait; NextWriter false], chan_recv ch, true)).
        { simpl. by rewrite Hbuf. }
        rewrite Hturn. split_and!.
        -- split; [|done]. intros _. left. by left.
        -- split; [set_solver|].
           intros [?|(? & _)]%reaches_send_send; done.
        -- set_solver.
  - destruct ping.
    + assert (Hturn : writer_loop ch (Tick true :: wakes)
                = let '(actions', ch2, exited) := writer_loop ch wakes in
                  ([SetWriteDeadline writeWait; WritePing true] ++ actions', ch2, exited))
        by done.
      rewrite Hturn. specialize (IH ch Hclosed). unfold sends_to_close in IH.
      destruct (writer_loop ch wakes) as [[acts' ch2] ex].
      destruct IH as (Hex & Hclose & Hall). split_and!.
      * rewrite Hex, Exists_cons. simpl.
        split; [intros [?|?]; [left; by right|by right]
               |intros [[?|?]|?]; [done|by left|by right]].
      * rewrite reaches_send_tick, <- Hclose. set_solver.
      * intros H. assert (Hin : WriteCloseMessage ∈ acts') by set_solver.
        destruct (Hall Hin) as (Hw & Hb & pre & ->).
        split_and!; [done|done|].
        by exists ([SetWriteDeadline writeWait; WritePing true] ++ pre).
    + assert (Hturn : writer_loop ch (Tick false :: wakes)
                = ([SetWriteDeadline writeWait; WritePing false], ch, true)) by done.
      rewrite Hturn. split_and!.
      * split; [|done]. intros _. left. by left.
      * split; [set_solver|]. by intros [? _]%reaches_send_tick.
      * set_solver.
Qed.

(** X9. Once the hub has closed the queue, whatever the wake-ups and
    whichever socket calls fail: the writer leaves its loop exactly when
    a wake-up fails or the send case has fired often enough to find the
    queue closed and empty (once when nothing is queued, twice
    otherwise); whenever it leaves, it stops its ticker and closes the
    socket. It sends the close message exactly when it reaches that
    firing of the send case with no call failing before; it has then
    written every queued frame, none is left, and the close message is
    the last thing it writes. When NextWriter, Close or a ping fails
    before, it returns without the close message. *)
Theorem writer_stops_on_close ch wakes :
  closed ch = true →
  let '(actions, ch', exited) := writePump ch wakes in
  (exited = true
   ↔ Exists (λ w, succeeds w = false) wakes ∨ (sends_to_close ch ≤ sends wakes)%nat)
  ∧ (exited = true → ∃ pre, actions = pre ++ [TickerStop; WriterConnClose])
  ∧ (WriteCloseMessage ∈ actions ↔ reaches_send (sends_to_close ch) wakes)
  ∧ (WriteCloseMessage ∈ actions →
       written actions = buf ch ∧ buf ch' = []
       ∧ ∃ pre, actions = pre ++ [SetWriteDeadline writeWait; WriteCloseMessage;
                                  TickerStop; WriterConnClose]).
Proof.
  intros Hclosed. unfold writePump.
  pose proof (writer_loop_closed wakes ch Hclosed) as Hloop.
  destruct (writer_loop ch wakes) as [[acts ch'] exited].
  destruct Hloop as (Hex & Hclose & Hall).
  assert (Hin : WriteCloseMessage
                  ∈ NewTicker pingPeriod :: acts
                      ++ (if exited then [TickerStop; WriterConnClose] else [])
                ↔ WriteCloseMessage ∈ acts).
  { rewrite elem_of_cons, elem_of_app. destruct exited; set_solver. }
  split_and!.
  - exact Hex.
  - intros ->. by exists (NewTicker pingPeriod :: acts).
  - by rewrite Hin.
  - rewrite Hin. intros H. destruct (Hall H) as (Hw & Hb & pre & ->).
    assert (exited = true) as ->.
    { apply Hex. apply Hclose in H as (p & w & rest & -> & Hsend & Hp & Hn).
      right. rewrite <- Hn. unfold sends. rewrite filter_app, length_app, filter_cons.
      rewrite decide_True by done. simpl. lia. }
    split_and!.
    + change (NewTicker pingPeriod :: ?l) with ([NewTicker pingPeriod] ++ l).
      rewrite !written_app. rewrite written_app in Hw. simpl. simpl in Hw.
      by rewrite app_nil_r.
    + done.
    + exists (NewTicker pingPeriod :: pre). simpl. by rewrite <- app_assoc.
Qed.

(** X9, on a closed queue of two frames: a tick, then the send case
    twice. *)
Lemma writer_stops_on_close_witness :
  let ch := mkChan [marshal (joinMessage ann); marshal hello] 256 true in
  let wakes := [Tick true; SendReady true true; SendReady true true] in
  (writePump ch wakes).2 = true
  ∧ WriteCloseMessage ∈ (writePump ch wakes).1.1
  ∧ written (writePump ch wakes).1.1 = buf ch.
Proof.
  intros ch wakes.
  pose proof (writer_stops_on_close ch wakes eq_refl) as H.
  destruct (writePump ch wakes) as [[actions ch'] exited].
  destruct H as (Hexit & _ & Hclose & Hall).
  assert (Hreach : reaches_send (sends_to_close ch) wakes).
  { exists [Tick true; SendReady true true], (SendReady true true), [].
    split_and!; [done|done|by repeat constructor|done]. }
  apply Hclose in Hreach. simpl. split_and!.
  - apply Hexit. right. vm_compute. lia.
  - exact Hreach.
  - by destruct (Hall Hreach).
Defined.

(** When NextWriter fails, the writer drops the frame it received and
    returns: no frame is written and no close message is sent. *)
Example writer_gives_up_when_socket_fails :
  writePump (mkChan [marshal (joinMessage ann); marshal hello] 256 true)
    [SendReady false true; SendReady true true]
  = ([NewTicker 54; SetWriteDeadline 10; NextWriter false;
      TickerStop; WriterConnClose],
     mkChan [marshal hello] 256 true, true).
Proof. vm_compute. reflexivity. Qed.

(** On the hub, a turn of the writer is so many receptions. *)
Lemma run_writerRecv n : ∀ h c cl,
  heap h !! c = Some cl →
  run h (replicate n (WriterRecv c))
  = Ok (set_client c (with_send (Nat.iter n chan_recv (send cl)) cl) h).
Proof.
  induction n as [|n IH]; intros h c cl Hcl.
  - simpl. f_equal. destruct h as [r hp d cr l]. unfold set_client. simpl in *.
    f_equal. rewrite list_insert_id; [done|]. rewrite Hcl. by destruct cl.
  - assert (Hlt : (c < length (heap h))%nat) by (by eapply lookup_lt_Some).
    simpl. rewrite Hcl. rewrite bind_Ok.
    rewrite (IH _ c (with_send (chan_recv (send cl)) cl)).
    2:{ rewrite heap_set_client by done. by rewrite decide_True. }
    f_equal. destruct h as [r hp d cr l]. unfold set_client. simpl in *.
    f_equal. rewrite list_insert_insert_eq. f_equal. unfold with_send. simpl. f_equal.
    clear. induction n as [|n IHn]; [done|]. simpl. by rewrite <- IHn.
Qed.

End WriterFacts.

(* ===================================================================== *)
(** ** More on the message store *)
(* ===================================================================== *)

Module StoreMore.
Import Store StoreFacts Scenario.

#[global] Instance older_first_total : Total older_first.
Proof. intros a b. unfold older_first. lia. Qed.

#[global] Instance older_first_trans : Transitive older_first.
Proof. intros a b c. unfold older_first. lia. Qed.

(** X10. GetMessagesSince returns the rows of the room created strictly
    after [since], each once, oldest first, without a limit. *)
Theorem messages_since_are_the_newer_ones db roomID since :
  ∃ rows, GetMessagesSince None db roomID since = inr rows
    ∧ rows ≡ₚ filter (λ m, since < CreatedAt m) (room_rows db roomID)
    ∧ StronglySorted older_first rows
    ∧ (∀ r, r ∈ rows ↔ r ∈ room_rows db roomID ∧ since < CreatedAt r).
Proof.
  eexists. split; [reflexivity|].
  assert (Hperm : merge_sort older_first
                    (filter (λ m, since < CreatedAt m) (room_rows db roomID))
                  ≡ₚ filter (λ m, since < CreatedAt m) (room_rows db roomID))
    by apply merge_sort_Permutation.
  split_and!; [done|apply (StronglySorted_merge_sort _)|].
  intros r. rewrite Hperm, list_elem_of_filter. tauto.
Qed.

Lemma filter_none {A} (P : A → Prop) `{!∀ x, Decision (P x)} (l : list A) :
  (∀ y, y ∈ l → ¬ P y) → filter P l = [].
Proof.
  induction l as [|v l IH]; intros Hno; [done|].
  rewrite filter_cons, decide_False by (apply Hno; by left).
  apply IH. intros y Hy. apply Hno. by right.
Qed.

Lemma filter_key_unique {A} (key : A → Z) (l : list A) (k : Z) x :
  NoDup (key <$> l) → x ∈ l → key x = k → filter (λ y, k = key y) l = [x].
Proof.
  intros Hnd Hx <-. induction l as [|v l IH]; [by apply elem_of_nil in Hx|].
  rewrite fmap_cons in Hnd. apply NoDup_cons in Hnd as [Hv Hnd].
  rewrite filter_cons. apply elem_of_cons in Hx as [->|Hx].
  - rewrite decide_True by done. f_equal. apply filter_none.
    intros y Hy Heq. apply Hv. rewrite Heq. by apply list_elem_of_fmap_2.
  - rewrite decide_False; [by apply IH|].
    intros Heq. apply Hv. rewrite <- Heq. by apply list_elem_of_fmap_2.
Qed.

(** The rows of a room after a successful insert, the sender being a
    user of the table with a key of its own. *)
Lemma room_rows_insert db m id ts u R :
  u ∈ users db → u_id u = UserID m → NoDup (u_id <$> users db) →
  room_rows (mkDB (messages db ++ [mkRow id (RoomID m) (UserID m) (Content m) ts])
                  (users db)) R
  = room_rows db R
      ++ (if decide (RoomID m = R)
          then [mkMessage id (RoomID m) (UserID m) (Content m) (u_username u) ts]
          else []).
Proof.
  intros Hu Hid Hnd. unfold room_rows. simpl.
  rewrite filter_app, bind_app. f_equal.
  rewrite filter_cons, filter_nil. simpl. case_decide; [|done].
  simpl. rewrite app_nil_r. unfold inner_join_users. simpl.
  by rewrite (filter_key_unique u_id (users db) (UserID m) u).
Qed.

(** A list sorted newest first starts with its one newest element. *)
Lemma newest_is_head (l : list Message) x :
  StronglySorted newer_first l → x ∈ l →
  (∀ y, y ∈ l → y = x ∨ CreatedAt y < CreatedAt x) →
  ∃ rest, l = x :: rest.
Proof.
  intros Hs Hx Hnew. destruct l as [|a l]; [by apply elem_of_nil in Hx|].
  destruct (Hnew a (list_elem_of_here _ _)) as [->|Hlt]; [eauto|]. exfalso.
  apply StronglySorted_cons in Hs as [Hall _]. rewrite Forall_forall in Hall.
  apply elem_of_cons in Hx as [->|Hx]; [lia|].
  specialize (Hall x Hx). unfold newer_first in Hall. lia.
Qed.

Lemma history_after_insert order_by db m id ts u :
  orders_newest_first order_by →
  u ∈ users db → u_id u = UserID m → NoDup (u_id <$> users db) →
  (∀ r, r ∈ room_rows db (RoomID m) → CreatedAt r < ts) →
  ∃ older,
    GetRoomMessages order_by None
      (mkDB (messages db ++ [mkRow id (RoomID m) (UserID m) (Content m) ts]) (users db))
      (RoomID m) 100
    = inr (older ++ [mkMessage id (RoomID m) (UserID m) (Content m) (u_username u) ts]).
Proof.
  intros Horder Hu Hid Hnd Hnew.
  set (db' := mkDB _ _). set (new := mkMessage _ _ _ _ _ _).
  assert (Hrows : room_rows db' (RoomID m) = room_rows db (RoomID m) ++ [new]).
  { unfold db'. rewrite (room_rows_insert db m id ts u) by done.
    by rewrite decide_True. }
  unfold GetRoomMessages, select_room_messages. rewrite decide_False by lia.
  rewrite reverse_in_place_reverse.
  set (sorted := order_by (room_rows db' (RoomID m))).
  destruct (Horder (room_rows db' (RoomID m))) as [Hperm Hsorted].
  fold sorted in Hperm, Hsorted. rewrite Hrows in Hperm.
  destruct (newest_is_head sorted new) as [rest Hhead].
  - exact Hsorted.
  - rewrite Hperm. set_solver.
  - intros y Hy. rewrite Hperm in Hy. apply elem_of_app in Hy as [Hy|Hy].
    + right. by apply Hnew.
    + left. by apply list_elem_of_singleton in Hy.
  - rewrite Hhead. change (Z.to_nat 100) with (S 99). simpl take.
    rewrite reverse_cons. eauto.
Qed.

(** Create leaves the rows of the other rooms alone. *)
Lemma room_rows_create ctx db m o R :
  R ≠ RoomID m → room_rows (Create ctx db m o).1.1 R = room_rows db R.
Proof.
  intros HR. destruct o as [id ts|e]; [|done]. simpl.
  unfold room_rows. simpl. rewrite filter_app, bind_app.
  rewrite filter_cons, filter_nil. simpl. rewrite decide_False by done.
  simpl. by rewrite app_nil_r.
Qed.

(** X11. Create changes the history of the message's room only. For
    any other room, whether the insert succeeded or failed: under the
    same behaviour of the database (the same failure, the same order of
    rows of equal created_at) GetRoomMessages returns what it returned
    before; and whatever the database does at each of the two calls,
    the results GetRoomMessages can return are the same before and
    after. *)
Theorem create_leaves_other_rooms db m o ctx R limit :
  R ≠ RoomID m →
  (∀ order_by fail,
     GetRoomMessages order_by fail (Create ctx db m o).1.1 R limit
     = GetRoomMessages order_by fail db R limit)
  ∧ (∀ result,
       Inv.history_answers (Create ctx db m o).1.1 R limit result
       ↔ Inv.history_answers db R limit result).
Proof.
  intros HR.
  assert (Hsame : ∀ order_by fail,
            GetRoomMessages order_by fail (Create ctx db m o).1.1 R limit
            = GetRoomMessages order_by fail db R limit).
  { intros order_by fail. unfold GetRoomMessages, select_room_messages.
    by rewrite (room_rows_create ctx db m o R HR). }
  split; [exact Hsame|]. intros result. unfold Inv.history_answers.
  split; intros (order_by & fail & Horder & Hget); exists order_by, fail;
    (split; [done|]).
  - by rewrite <- Hsame.
  - by rewrite Hsame.
Qed.

(** X11, on the database of four messages: an insert in room 8 and the
    history of room 7, the database sorting with a merge sort. *)
Lemma create_leaves_other_rooms_witness :
  GetRoomMessages (merge_sort newer_first) None
    (Create (mkCtx Request None) chatDB (Store.mkMessage 0 8 2 "hi there" "" 0)
       (Inserted 5 40)).1.1 7 100
  = GetRoomMessages (merge_sort newer_first) None chatDB 7 100.
Proof.
  destruct (create_leaves_other_rooms chatDB (Store.mkMessage 0 8 2 "hi there" "" 0)
              (Inserted 5 40) (mkCtx Request None) 7 100) as [Hsame _]; [done|].
  exact (Hsame (merge_sort newer_first) None).
Defined.

End StoreMore.

(* ===================================================================== *)
(** ** The membership table *)
(* ===================================================================== *)

Module MemberFacts.
Import Store Inv Scenario.

#[global] Instance joined_earlier_total : Total joined_earlier.
Proof. intros a b. unfold joined_earlier. lia. Qed.

#[global] Instance joined_earlier_trans : Transitive joined_earlier.
Proof. intros a b c. unfold joined_earlier. lia. Qed.

Lemma keys_unique_filter (P : RoomMember → Prop) `{!∀ x, Decision (P x)}
    (tbl : list RoomMember) :
  keys_unique tbl → keys_unique (filter P tbl).
Proof.
  unfold keys_unique. induction tbl as [|r tbl IH]; [done|].
  rewrite fmap_cons. intros [Hr Hnd]%NoDup_cons. rewrite filter_cons.
  case_decide; [|by apply IH]. rewrite fmap_cons. apply NoDup_cons. split; [|by apply IH].
  intros Hin. apply Hr. apply list_elem_of_fmap in Hin as (y & Hy & Hin).
  apply list_elem_of_filter in Hin as [_ Hin]. rewrite Hy. by apply list_elem_of_fmap_2.
Qed.

(** X12. Join and Leave keep the primary key of room_members: if no
    two rows have the same (room_id, user_id), none have afterwards. *)
Theorem membership_key_is_kept fail now tbl roomID userID :
  keys_unique tbl →
  keys_unique (Join fail now tbl roomID userID).1
  ∧ keys_unique (Leave fail tbl roomID userID).1.
Proof.
  intros Hk. split.
  - unfold Join. destruct fail; [done|]. case_decide as Hin; [done|]. simpl.
    unfold keys_unique. rewrite fmap_app. apply NoDup_app. split_and!; [done| |].
    + intros k Hk1 Hk2. apply list_elem_of_singleton in Hk2. by subst.
    + apply NoDup_singleton.
  - unfold Leave. destruct fail; [done|]. simpl. by apply keys_unique_filter.
Qed.

Lemma keys_unique_memberTbl : keys_unique memberTbl.
Proof. apply (bool_decide_unpack _). vm_compute. exact I. Qed.

(** X12, on the table of three memberships. *)
Lemma membership_key_is_kept_witness :
  keys_unique (Join None 30 memberTbl 8 2).1
  ∧ keys_unique (Leave None memberTbl 7 1).1.
Proof.
  destruct (membership_key_is_kept None 30 memberTbl 8 2 keys_unique_memberTbl)
    as [Hjoin _].
  destruct (membership_key_is_kept None 30 memberTbl 7 1 keys_unique_memberTbl)
    as [_ Hleave].
  split; [exact Hjoin|exact Hleave].
Defined.

Lemma IsUserInRoom_true tbl R u :
  IsUserInRoom None tbl R u = inr true ↔ (R, u) ∈ member_key <$> tbl.
Proof.
  unfold IsUserInRoom. split.
  - intros [= H]. by apply bool_decide_eq_true in H.
  - intros H. f_equal. by apply bool_decide_eq_true.
Qed.

Lemma IsUserInRoom_false tbl R u :
  IsUserInRoom None tbl R u = inr false ↔ (R, u) ∉ member_key <$> tbl.
Proof.
  unfold IsUserInRoom. split.
  - intros [= H]. by apply bool_decide_eq_false in H.
  - intros H. f_equal. by apply bool_decide_eq_false.
Qed.

Lemma elem_of_keys_filter (P : RoomMember → Prop) `{!∀ x, Decision (P x)}
    (tbl : list RoomMember) k :
  k ∈ member_key <$> filter P tbl ↔ ∃ r, r ∈ tbl ∧ P r ∧ member_key r = k.
Proof.
  rewrite list_elem_of_fmap. split.
  - intros (r & -> & Hr). apply list_elem_of_filter in Hr as [HP Hr]. eauto.
  - intros (r & Hr & HP & <-). exists r. split; [done|]. by apply list_elem_of_filter.
Qed.

(** X13. Join of a member fails with the unique violation and leaves
    the table alone; Join of a non-member succeeds, makes exactly that
    pair a member and changes no other membership, and a Leave after it
    gives back the table; a Join that fails never changes the table. *)
Theorem join_adds_one_pair now tbl roomID userID :
  (IsUserInRoom None tbl roomID userID = inr true →
     Join None now tbl roomID userID = (tbl, Some UniqueViolation))
  ∧ (IsUserInRoom None tbl roomID userID = inr false →
     ∃ tbl', Join None now tbl roomID userID = (tbl', None)
       ∧ (∀ R u, IsUserInRoom None tbl' R u = inr true
                 ↔ (R, u) = (roomID, userID) ∨ IsUserInRoom None tbl R u = inr true)
       ∧ (Leave None tbl' roomID userID).1 = tbl)
  ∧ (∀ fail, (Join fail now tbl roomID userID).2 ≠ None →
     (Join fail now tbl roomID userID).1 = tbl).
Proof.
  split_and!.
  - intros Hin%IsUserInRoom_true. unfold Join. by rewrite decide_True.
  - intros Hout%IsUserInRoom_false. unfold Join. rewrite decide_False by done.
    eexists. split; [done|]. split.
    + intros R u. rewrite !IsUserInRoom_true, fmap_app, elem_of_app. simpl.
      rewrite list_elem_of_singleton. unfold member_key at 2. simpl. tauto.
    + unfold Leave. simpl. rewrite filter_app, filter_cons, filter_nil.
      rewrite decide_False by (intros H; by apply H).
      rewrite app_nil_r. clear -Hout.
      induction tbl as [|r tbl IH]; [done|]. rewrite fmap_cons in Hout.
      apply not_elem_of_cons in Hout as [Hr Hout].
      rewrite filter_cons, decide_True by done. f_equal. by apply IH.
  - intros fail. unfold Join. destruct fail; [done|]. by case_decide.
Qed.

(** X14. Leave succeeds whether the user is a member or not; afterwards
    exactly that pair is no member and all other memberships are as
    before; a second Leave changes nothing, and the user can join
    again. *)
Theorem leave_removes_one_pair tbl roomID userID :
  ∃ tbl', Leave None tbl roomID userID = (tbl', None)
    ∧ (∀ R u, IsUserInRoom None tbl' R u = inr true
              ↔ (R, u) ≠ (roomID, userID) ∧ IsUserInRoom None tbl R u = inr true)
    ∧ Leave None tbl' roomID userID = (tbl', None)
    ∧ (∀ now, (Join None now tbl' roomID userID).2 = None).
Proof.
  eexists. split; [reflexivity|].
  assert (Hmem : ∀ R u,
            (R, u) ∈ member_key <$> filter (λ m, member_key m ≠ (roomID, userID)) tbl
            ↔ (R, u) ≠ (roomID, userID) ∧ (R, u) ∈ member_key <$> tbl).
  { intros R u. rewrite elem_of_keys_filter, list_elem_of_fmap. split.
    - intros (r & Hr & Hne & Hk). rewrite <- Hk. split; [done|]. eauto.
    - intros (Hne & r & Hk & Hr). exists r. rewrite <- Hk. by split_and!. }
  split_and!.
  - intros R u. rewrite !IsUserInRoom_true. apply Hmem.
  - unfold Leave. f_equal. rewrite list_filter_filter.
    apply list_filter_iff. tauto.
  - intros now. unfold Join. rewrite decide_False; [done|].
    rewrite Hmem. by intros [Hne _].
Qed.

Lemma NoDup_users_of_room (l : list RoomMember) R :
  NoDup (member_key <$> l) → (∀ r, r ∈ l → rm_room_id r = R) →
  NoDup (rm_user_id <$> l).
Proof.
  induction l as [|a l IH]; [constructor|].
  rewrite !fmap_cons. intros [Ha Hnd]%NoDup_cons Hroom.
  apply NoDup_cons. split.
  - intros Hin. apply Ha. apply list_elem_of_fmap in Hin as (y & Hy & Hin).
    apply list_elem_of_fmap. exists y. split; [|done]. unfold member_key.
    rewrite Hy, (Hroom a), (Hroom y); [done|by right|by left].
  - apply IH; [done|]. intros r Hr. apply Hroom. by right.
Qed.

(** X15. On a table that satisfies its primary key, the three queries
    agree: GetRoomMembers returns the users of the room's rows, each
    once, in the order they joined; GetRoomMemberCount is the length of
    that list; IsUserInRoom is true exactly of its elements. *)
Theorem member_queries_agree tbl roomID :
  keys_unique tbl →
  ∃ rows, GetRoomMembers None tbl roomID = inr (rm_user_id <$> rows)
    ∧ rows ≡ₚ filter (λ m, rm_room_id m = roomID) tbl
    ∧ StronglySorted joined_earlier rows
    ∧ NoDup (rm_user_id <$> rows)
    ∧ GetRoomMemberCount None tbl roomID = inr (length (rm_user_id <$> rows))
    ∧ (∀ u, u ∈ rm_user_id <$> rows ↔ IsUserInRoom None tbl roomID u = inr true).
Proof.
  intros Hk. eexists. split; [reflexivity|].
  set (rows := merge_sort joined_earlier (filter (λ m, rm_room_id m = roomID) tbl)).
  assert (Hperm : rows ≡ₚ filter (λ m, rm_room_id m = roomID) tbl)
    by apply merge_sort_Permutation.
  split_and!.
  - done.
  - apply (StronglySorted_merge_sort _).
  - rewrite Hperm. apply (NoDup_users_of_room _ roomID).
    + by apply keys_unique_filter.
    + intros r Hr. by apply list_elem_of_filter in Hr as [? _].
  - unfold GetRoomMemberCount. f_equal. by rewrite length_fmap, Hperm.
  - intros u. rewrite IsUserInRoom_true, Hperm, !list_elem_of_fmap. split.
    + intros (r & -> & Hr). apply list_elem_of_filter in Hr as [Hroom Hr].
      exists r. split; [|done]. unfold member_key. by rewrite Hroom.
    + intros (r & Hkey & Hr). unfold member_key in Hkey. injection Hkey as Hroom Hu.
      exists r. split; [done|]. by apply list_elem_of_filter.
Qed.

(** X15, on the table of three memberships, for room 7. *)
Lemma member_queries_agree_witness :
  ∃ rows, GetRoomMembers None memberTbl 7 = inr (rm_user_id <$> rows)
    ∧ rows ≡ₚ filter (λ m, rm_room_id m = 7) memberTbl
    ∧ StronglySorted joined_earlier rows
    ∧ NoDup (rm_user_id <$> rows)
    ∧ GetRoomMemberCount None memberTbl 7 = inr (length (rm_user_id <$> rows))
    ∧ (∀ u, u ∈ rm_user_id <$> rows ↔ IsUserInRoom None memberTbl 7 u = inr true).
Proof.
  exact (member_queries_agree memberTbl 7 keys_unique_memberTbl).
Defined.

End MemberFacts.

(* ===================================================================== *)
(** ** The handlers of cmd/api with the store and the hub *)
(* ===================================================================== *)

Module HandlerFacts.
Import Store Websocket Inv HubFacts Scenario HubMore StoreFacts StoreMore MemberFacts Api.

(** What registerClient does on a well-formed hub to the client and to
    the members its room had. *)
Lemma registerClient_served h c cl :
  wf h → heap h !! c = Some cl → closed (send cl) = false →
  ∃ h', registerClient h c = Ok h' ∧ wf h'
    ∧ (∀ R, R ≠ roomID cl → rooms h' !! R = rooms h !! R)
    ∧ ∀ x, x ∈ ({[c]} ∪ room_set h (roomID cl) : gset ptr) →
        ∃ clx, heap h !! x = Some clx
          ∧ served (roomID cl) (marshal (joinMessage cl)) h' x clx.
Proof.
  intros Hwf Hcl Hopen. unfold registerClient. rewrite Hcl.
  set (h1 := add_to_room (roomID cl) c h).
  set (h2 := add_log _ h1).
  assert (Hwf2 : wf h2).
  { apply (wf_view h1); [done|].
    by destruct (add_to_room_inv _ h c cl (wf_hub_inv h Hwf) Hcl Hopen). }
  assert (HR2 : rooms h2 !! roomID cl = Some ({[c]} ∪ room_set h (roomID cl))).
  { subst h2 h1. rewrite rooms_add_log. apply add_to_room_lookup. }
  destruct (fanout_members h2 (roomID cl) (joinMessage cl) _ Hwf2 HR2)
    as (h' & Hrun & Hwf' & _ & Hserved & _).
  destruct (broadcastToRoom_spec h2 (roomID cl) (joinMessage cl) _ (proj1 Hwf2) HR2)
    as (h'' & Hrun' & _ & _ & Hother & _).
  assert (h'' = h') as -> by congruence.
  exists h'. split; [done|]. split; [done|]. split.
  - intros R HR. rewrite Hother by done. subst h2 h1.
    rewrite rooms_add_log. by apply add_to_room_other.
  - intros x Hx. destruct (Hserved x Hx) as (clx & Hclx & _ & _ & Hs).
    exists clx. split; [|done].
    assert (heap h2 = heap h) as Hheap2 by apply add_to_room_heap.
    by rewrite Hheap2 in Hclx.
Qed.

(** X16. websocketHandler builds a client exactly when the request is
    authenticated, the room id parses, both queries succeed, the user is
    a member of the room and has a row in users, and the upgrade
    succeeds. The client is then for that user and that room, carries
    the name stored in users, and has an empty open queue of capacity
    256. *)
Theorem only_members_connect user room memberFail userFail upgrade_ok members db cl :
  websocketHandler user room memberFail userFail upgrade_ok members db = Connected cl
  ↔ ∃ u, user = Some (userID cl) ∧ room = inr (roomID cl)
       ∧ memberFail = None ∧ (roomID cl, userID cl) ∈ member_key <$> members
       ∧ userFail = None
       ∧ head (filter (λ u, u_id u = userID cl) (users db)) = Some u
       ∧ upgrade_ok = true
       ∧ cl = newClient (userID cl) (u_username u) (roomID cl).
Proof.
  unfold websocketHandler, IsUserInRoom, GetByID. split.
  - destruct user as [uid|]; [|done]. destruct room as [|R]; [done|].
    destruct memberFail; [done|]. case_bool_decide as Hin; [|done].
    destruct userFail; [done|].
    destruct (filter _ (users db)) as [|u us] eqn:Hf; [done|].
    destruct upgrade_ok; [|done]. intros [= <-]. simpl. exists u.
    rewrite Hf. by split_and!.
  - intros (u & -> & -> & -> & Hin & -> & Hu & -> & Hcl).
    rewrite bool_decide_eq_true_2 by done.
    destruct (filter _ (users db)) as [|u' us]; [done|].
    injection Hu as ->. by rewrite Hcl.
Qed.

(** X17. The handler and the hub together: on a well-formed hub, the
    client the handler builds and registers ends up in its room's set
    with its own join frame as the only frame queued; every member the
    room had is served the same frame (queued last, or evicted when 256
    frames were queued); the hub stays well formed and the other rooms
    are unchanged. *)
Theorem connected_client_joins h uid name R :
  wf h →
  let cl := newClient uid name R in
  let c := length (heap h) in
  ∃ h', run h (arrival h (Connected cl)) = Ok h' ∧ wf h'
    ∧ c ∈ room_set h' R
    ∧ heap h' !! c
      = Some (with_send (mkChan [marshal (joinMessage cl)] 256 false) cl)
    ∧ (∀ x clx, x ∈ room_set h R → heap h !! x = Some clx →
         served R (marshal (joinMessage cl)) h' x clx)
    ∧ (∀ R', R' ≠ R → rooms h' !! R' = rooms h !! R').
Proof.
  intros Hwf cl c. simpl.
  set (h1 := mkHub (rooms h) (heap h ++ [newClient uid name R]) (db h) (creates h) (log h)).
  assert (Hwf1 : wf h1) by (by destruct (newClient_inv _ h uid name R (wf_hub_inv h Hwf))).
  assert (Hc : heap h1 !! c = Some cl).
  { subst h1 c. simpl. rewrite lookup_app_r by lia. by rewrite Nat.sub_diag. }
  destruct (registerClient_served h1 c cl Hwf1 Hc eq_refl)
    as (h' & Hrun & Hwf' & Hother & Hserved).
  exists h'. fold c. rewrite Hrun, bind_Ok. split; [done|]. split; [done|].
  destruct (Hserved c) as (clc & Hclc & Hs); [set_solver|].
  assert (clc = cl) as -> by congruence.
  unfold served in Hs. rewrite decide_False in Hs by done.
  destruct Hs as [Hin Hq]. split; [done|]. split; [done|]. split.
  - intros x clx Hx Hclx.
    destruct (Hserved x) as (clx' & Hclx' & Hs').
    { apply elem_of_union_r. exact Hx. }
    subst h1. simpl in Hclx'. rewrite lookup_app_l in Hclx'
      by (by apply lookup_lt_Some in Hclx).
    assert (clx' = clx) as -> by congruence. done.
  - intros R' HR'. by rewrite (Hother R' HR').
Qed.

(** X17, on a run: bob connects to room 7, where ann is. *)
Lemma connected_client_joins_witness :
  let h := state_after ann_joins in
  ∃ h', run h (arrival h (Connected bob)) = Ok h' ∧ wf h'
    ∧ 1%nat ∈ room_set h' 7
    ∧ queue_of h' 1 = [marshal (joinMessage bob)]
    ∧ queue_of h' 0 = [marshal (joinMessage ann); marshal (joinMessage bob)].
Proof.
  intros h.
  destruct (connected_client_joins h 2 "bob" 7 wf_ann_joined)
    as (h' & Hrun & Hwf & Hin & Hq & Hothers & _).
  exists h'. split; [exact Hrun|]. split; [exact Hwf|]. split; [exact Hin|]. split.
  - unfold queue_of. change (length (heap h)) with 1%nat in Hq. by rewrite Hq.
  - assert (Hin0 : 0%nat ∈ room_set h 7) by decide_by_computation.
    pose proof (Hothers 0%nat _ Hin0 heap_ann_joined) as Hs.
    unfold served in Hs. rewrite decide_False in Hs by (simpl; lia).
    destruct Hs as [_ Hq0]. unfold queue_of. by rewrite Hq0.
Defined.

(** X18. joinRoomHandler answers 200 only for a user who was not a
    member, and IsUserInRoom holds afterwards; for a member it answers
    409 and leaves the table alone. leaveRoomHandler answers 200 whether
    the user was a member or not, and afterwards websocketHandler
    refuses the user with 403. *)
Theorem membership_handlers_drive_the_gate user R now members userFail ok db :
  (∀ members', joinRoomHandler (Some user) (inr R) None None now members
               = (replyMessage 200 "joined room successfully", members') →
      IsUserInRoom None members R user = inr false
      ∧ IsUserInRoom None members' R user = inr true)
  ∧ (IsUserInRoom None members R user = inr true →
      joinRoomHandler (Some user) (inr R) None None now members
      = (replyError 409 "already a member of this room", members))
  ∧ ∃ members', leaveRoomHandler (Some user) (inr R) None members
               = (replyMessage 200 "left room successfully", members')
      ∧ websocketHandler (Some user) (inr R) None userFail ok members' db
        = Refused (writeError 403 "you must join the room before connecting").
Proof.
  split; [|split].
  - intros members'. unfold joinRoomHandler, Join, IsUserInRoom.
    case_decide as Hin; simpl; [done|]. intros [= <-].
    rewrite bool_decide_eq_false_2 by done.
    rewrite bool_decide_eq_true_2; [done|]. rewrite fmap_app. set_solver.
  - unfold joinRoomHandler, Join, IsUserInRoom. intros [= Hin].
    apply bool_decide_eq_true in Hin. by rewrite decide_True.
  - eexists. split; [reflexivity|]. unfold websocketHandler, IsUserInRoom.
    rewrite bool_decide_eq_false_2; [done|].
    intros Hin. apply list_elem_of_fmap in Hin as (m & Hm & Hin).
    apply list_elem_of_filter in Hin as [Hne _]. done.
Qed.

(** X19. The hub, the store and the history handler together. When the
    store accepts a chat message (type "message") whose sender has one
    row in users, and stamps it later than the room's history, the row
    is in the database the hub leaves. Asked for the history afterwards,
    getRoomMessagesHandler answers 200 with that message last, under the
    id and the time the store gave it and with the name stored in users
    (not the name the frame carried), whatever order the database gives
    to rows of equal created_at; and it answers 500 when the history
    query fails. *)
Theorem chat_reaches_history h m id ts u reader order_by :
  wf h → Type_ m = "message" →
  u ∈ Store.users (db h) → Store.u_id u = UserID m →
  NoDup (Store.u_id <$> Store.users (db h)) →
  (∀ r, r ∈ Store.room_rows (db h) (RoomID m) → Store.CreatedAt r < ts) →
  Store.orders_newest_first order_by →
  ∃ h',
    handleBroadcast h m (Store.Inserted id ts) = Ok h'
    ∧ (∃ older,
         Api.getRoomMessagesHandler (Some reader) (inr (RoomID m)) (inr true)
           order_by None (db h')
         = Api.writeJSON 200
             (Store.marshal <$>
                older ++ [Store.mkMessage id (RoomID m) (UserID m) (Content m)
                            (Store.u_username u) ts]))
    ∧ (∀ err,
         Api.getRoomMessagesHandler (Some reader) (inr (RoomID m)) (inr true)
           order_by (Some err) (db h')
         = Api.writeError 500 "failed to retrieve messages").
Proof.
  intros Hwf Hty Hu Hid Hnd Hnew Horder.
  destruct (handleBroadcast_inv _ h m (Store.Inserted id ts) (wf_hub_inv h Hwf))
    as (h' & Hrun & _).
  pose proof Hrun as Hdb. unfold handleBroadcast in Hdb.
  apply broadcastToRoom_store in Hdb as (Hdb & _).
  unfold persist in Hdb. rewrite decide_True in Hdb by done. simpl in Hdb.
  destruct (history_after_insert order_by (db h) (dbMessage m) id ts u
              Horder Hu Hid Hnd Hnew) as (older & Hhist).
  exists h'. split; [done|]. split; [|done].
  exists older. unfold Api.getRoomMessagesHandler. rewrite Hdb. simpl in Hhist.
  by rewrite Hhist.
Qed.

Lemma wf_ann_talked : wf (state_after ann_talked).
Proof. apply state_after_wf; [vm_compute; lia|decide_by_computation]. Qed.

(** X19, on a run: the second message of ann is the last of the
    history of room 7, the database sorting with a merge sort. *)
Lemma chat_reaches_history_witness :
  let h := state_after ann_talked in
  ∃ h',
    handleBroadcast h again (Store.Inserted 2 2000) = Ok h'
    ∧ (∃ older,
         getRoomMessagesHandler (Some 2) (inr 7) (inr true)
           (merge_sort Store.newer_first) None (db h')
         = writeJSON 200
             (Store.marshal <$>
                older ++ [Store.mkMessage 2 7 1 "hello again" "ann" 2000]))
    ∧ (∀ err,
         getRoomMessagesHandler (Some 2) (inr 7) (inr true)
           (merge_sort Store.newer_first) (Some err) (db h')
         = writeError 500 "failed to retrieve messages").
Proof.
  intros h.
  apply (chat_reaches_history h again 2 2000 (mkUser 1 "ann") 2
           (merge_sort Store.newer_first) wf_ann_talked eq_refl).
  - apply list_elem_of_here.
  - reflexivity.
  - decide_by_computation.
  - intros r Hr.
    change (r ∈ [Store.mkMessage 1 7 1 "hello" "ann" 1000]) in Hr.
    apply list_elem_of_singleton in Hr as ->. reflexivity.
  - exact merge_sort_orders_newest_first.
Defined.

End HandlerFacts.

(* ===================================================================== *)
(** ** The authentication middleware *)
(* ===================================================================== *)

Module AuthFacts.
Import Inv Api.

Lemma split_space_nonempty s : split_space s ≠ [].
Proof.
  destruct s as [|c s]; simpl; [done|].
  case_decide; [done|]. by destruct (split_space s).
Qed.

Lemma join_split s : join_space (split_space s) = s.
Proof.
  induction s as [|c s IH]; [done|]. simpl. case_decide as Hc.
  - subst c. pose proof (split_space_nonempty s).
    destruct (split_space s) as [|p ps] eqn:Hs; [done|].
    simpl in *. by rewrite IH.
  - pose proof (split_space_nonempty s).
    destruct (split_space s) as [|p ps] eqn:Hs; [done|].
    destruct ps as [|q ps]; simpl in *; by rewrite <- IH.
Qed.

Lemma split_pieces_no_space s : Forall (λ p, has_space p = false) (split_space s).
Proof.
  induction s as [|c s IH]; simpl; [by repeat constructor|].
  case_decide as Hc; [by constructor|].
  pose proof (split_space_nonempty s).
  destruct (split_space s) as [|p ps]; [done|].
  apply Forall_cons in IH as [Hp Hps]. constructor; [|done].
  simpl. rewrite Hp. by rewrite bool_decide_eq_false_2.
Qed.

Lemma split_no_space s : has_space s = false → split_space s = [s].
Proof.
  induction s as [|c s IH]; [done|]. simpl.
  intros [Hc Hs]%orb_false_iff. apply bool_decide_eq_false in Hc.
  rewrite decide_False by done. by rewrite IH.
Qed.

Lemma split_app a s :
  has_space a = false → split_space (a +:+ " " +:+ s) = a :: split_space s.
Proof.
  induction a as [|c a IH]; [done|]. simpl.
  intros [Hc Ha]%orb_false_iff. apply bool_decide_eq_false in Hc.
  rewrite decide_False by done. by rewrite IH.
Qed.

Lemma split_two s a b :
  split_space s = [a; b]
  ↔ s = a +:+ " " +:+ b ∧ has_space a = false ∧ has_space b = false.
Proof.
  split.
  - intros Hs. pose proof (join_split s) as Hj. pose proof (split_pieces_no_space s) as Hp.
    rewrite Hs in Hj, Hp. simpl in Hj.
    apply Forall_cons in Hp as [Ha Hp]. apply Forall_cons in Hp as [Hb _]. done.
  - intros (-> & Ha & Hb). by rewrite split_app, split_no_space.
Qed.

(** X20. AuthMiddleware lets a request through exactly when its
    Authorization header is "Bearer ", then a token without a space that
    ValidateToken accepts; the user id it puts in the context is the one
    ValidateToken returned. Every refusal is a 401. *)
Theorem bearer_header_only validate authHeader :
  (∀ userID,
     AuthMiddleware validate authHeader = inr userID
     ↔ ∃ token, authHeader = "Bearer " +:+ token ∧ has_space token = false
                ∧ validate token = ValidToken userID)
  ∧ (∀ r, AuthMiddleware validate authHeader = inl r → ∃ msg, r = writeError 401 msg).
Proof.
  split.
  - intros userID. unfold AuthMiddleware. split.
    + case_decide as Hempty; [done|].
      destruct (split_space authHeader) as [|scheme [|token [|? ?]]] eqn:Hs; try done.
      case_decide as Hscheme; [|done]. subst scheme.
      apply split_two in Hs as (-> & _ & Htok).
      destruct (validate token) as [u| |] eqn:Hv; try done.
      intros [= ->]. eauto.
    + intros (token & -> & Htok & Hv).
      rewrite decide_False by done.
      change ("Bearer " +:+ token) with ("Bearer" +:+ " " +:+ token).
      rewrite (split_app "Bearer" token eq_refl), (split_no_space token Htok).
      rewrite decide_True by done. by rewrite Hv.
  - intros r. unfold AuthMiddleware. repeat case_match; intros [= <-]; eauto.
Qed.

End AuthFacts.

(* ===================================================================== *)
(** ** A connection from its arrival to its end *)
(* ===================================================================== *)

Module SessionFacts.
Import Store Websocket Inv HubFacts Scenario HubMore Api.

Lemma run_app a : ∀ h b, run h (a ++ b) = run h a ≫= λ h1, run h1 b.
Proof.
  induction a as [|e a IH]; intros h b; [done|]. simpl.
  destruct (step h e) as [h1|p]; [|done]. rewrite !bind_Ok. apply IH.
Qed.

Lemma registrations_app a b :
  registrations (a ++ b) = registrations a ++ registrations b.
Proof. unfold registrations. by rewrite omap_app. Qed.

(** A client enters a room's set by its Register only. *)
Lemma step_not_member h e h' c :
  step h e = Ok h' → c ∉ registrations [e] →
  (∀ R, c ∉ room_set h R) → ∀ R, c ∉ room_set h' R.
Proof.
  intros Hstep Hreg Hout R Hin.
  destruct e as [[x|x|m o]|u n r|x]; simpl in Hstep.
  - apply registerClient_Ok_inv in Hstep as (cl & _ & (_ & _ & Hsub & _)).
    apply Hsub in Hin. unfold room_set in Hin.
    destruct (decide (R = roomID cl)) as [->|Hne].
    + rewrite add_to_room_lookup in Hin. simpl in Hin.
      apply elem_of_union in Hin as [Hin|Hin]; [|by apply (Hout (roomID cl))].
      apply elem_of_singleton in Hin as ->. apply Hreg. simpl. by left.
    + rewrite add_to_room_other in Hin by done. by apply (Hout R).
  - apply unregisterClient_within in Hstep as [(_ & _ & Hsub & _) _].
    by apply (Hout R), Hsub.
  - apply handleBroadcast_within in Hstep as (_ & _ & Hsub & _).
    by apply (Hout R), Hsub.
  - injection Hstep as <-. by apply (Hout R).
  - destruct (heap h !! x); injection Hstep as <-; by apply (Hout R).
Qed.

Lemma run_not_member events c : ∀ h h',
  run h events = Ok h' → c ∉ registrations events →
  (∀ R, c ∉ room_set h R) → ∀ R, c ∉ room_set h' R.
Proof.
  induction events as [|e rest IH]; intros h h' Hrun Hreg Hout.
  - by injection Hrun as <-.
  - simpl in Hrun. apply bind_Ok_inv in Hrun as (h1 & Hstep & Hrun).
    rewrite (registrations_cons e rest) in Hreg.
    apply (IH h1 h' Hrun); [set_solver|].
    apply (step_not_member h e h1 c Hstep); [set_solver|done].
Qed.

(** X21. A connection from its arrival to its end, in any run in which
    every connection is registered at most once. The handler builds the
    client and registers it; later the hub serves its Unregister. In
    between and afterwards the hub may serve anything: the chat
    messages of this connection, which travel on another channel and
    may be served before or after its Unregister, the requests of other
    connections, receptions by writers. The loop does not panic and
    stays well formed, and at the end the client is in no room's set
    and its queue is closed, whether its Unregister took it out or an
    eviction did before. *)
Theorem session_leaves_nothing db events0 h uid name R before after :
  Run db events0 = Ok h →
  let cl := newClient uid name R in
  let c := length (heap h) in
  let events := events0 ++ arrival h (Connected cl)
                  ++ before ++ Req (Unregister c) :: after in
  scoped 0 events → NoDup (registrations events) →
  ∃ h', Run db events = Ok h' ∧ wf h'
    ∧ (∀ R', c ∉ room_set h' R')
    ∧ ∃ cl', heap h' !! c = Some cl' ∧ closed (send cl') = true.
Proof.
  intros Hrun0 cl c events Hsc Hnd.
  set (start := add_log LogHubStarted (NewHub db)).
  destruct (run_inv events start ∅) as (h' & Hrun & Hinv);
    [apply hub_inv_start|done|done|set_solver|].
  destruct (run_settled events start ∅ ∅ h') as [_ Hs];
    [apply hub_inv_start|by intros x Hx; apply elem_of_empty in Hx
    |done|done|set_solver|done|].
  destruct Hinv as [Hwf' _].
  assert (Hregs : registrations events
            = registrations events0 ++ [c] ++ registrations before
                ++ registrations after).
  { subst events. simpl. rewrite !registrations_app. simpl.
    by rewrite !registrations_app. }
  assert (Hcafter : c ∉ registrations after).
  { rewrite Hregs in Hnd. apply NoDup_app in Hnd as (_ & _ & Hnd).
    apply NoDup_app in Hnd as (_ & Hdisj & _). intros Hin.
    apply (Hdisj c); [by left|]. set_solver. }
  exists h'. split; [done|]. split; [done|].
  assert (Hout : ∀ R', c ∉ room_set h' R').
  { unfold Run in Hrun. fold start in Hrun.
    assert (Hsplit : events
              = (events0 ++ arrival h (Connected cl) ++ before)
                  ++ [Req (Unregister c)] ++ after).
    { subst events. by rewrite <- !app_assoc. }
    rewrite Hsplit, run_app in Hrun.
    apply bind_Ok_inv in Hrun as (h1 & Hrun1 & Hrun).
    rewrite run_app in Hrun. apply bind_Ok_inv in Hrun as (h2 & Hun & Hrun2).
    simpl in Hun. apply bind_Ok_inv in Hun as (h2' & Hun & [= ->]).
    assert (Hwf1 : wf h1).
    { eapply run_wf; [|exact Hrun1]. by destruct (hub_inv_start db ∅). }
    assert (Hwf2 : wf h2)
      by (apply (step_wf h1 (Req (Unregister c)) h2 Hwf1 Hun)).
    apply unregisterClient_within in Hun as [(_ & Hroom & _) (cl0 & Hcl0 & Hout0)].
    apply (run_not_member after c h2 h' Hrun2 Hcafter).
    intros R' Hin. apply elem_of_room_set in Hin as (S & HS & Hin).
    destruct Hwf2 as [Hm2 _].
    destruct (Hm2 _ _ _ HS Hin) as (cl2 & Hcl2 & HR2 & _).
    specialize (Hroom c). rewrite Hcl2, Hcl0 in Hroom. injection Hroom as Hroom.
    apply Hout0. rewrite <- Hroom, HR2. apply elem_of_room_set. eauto. }
  split; [done|].
  destruct (Hs c) as (cl' & Hcl' & Himp); [rewrite Hregs; set_solver|].
  exists cl'. split; [done|].
  destruct (closed (send cl')); [done|]. exfalso. by apply (Hout (roomID cl')), Himp.
Qed.

(** X21, on a run: bob connects to room 7; his Unregister is served
    while his chat message is still pending, which is served after it. *)
Lemma session_leaves_nothing_witness :
  let events := ann_joins ++ [NewClient 2 "bob" 7; Req (Register 1%nat)]
                  ++ [Req (Broadcast hello timed_out)]
                  ++ Req (Unregister 1%nat)
                       :: [Req (Broadcast (chat_of bob "hi") timed_out);
                           WriterRecv 0%nat] in
  ∃ h', Run someDB events = Ok h' ∧ wf h'
    ∧ (∀ R', 1%nat ∉ room_set h' R')
    ∧ ∃ cl', heap h' !! 1%nat = Some cl' ∧ closed (send cl') = true.
Proof.
  intros events.
  apply (session_leaves_nothing someDB ann_joins (state_after ann_joins) 2 "bob" 7
           [Req (Broadcast hello timed_out)]
           [Req (Broadcast (chat_of bob "hi") timed_out); WriterRecv 0%nat]).
  - by_computation.
  - vm_compute. lia.
  - decide_by_computation.
Defined.

End SessionFacts.
